(** * The crawl queue of auto-parts-parser: store, reservation, repair, URLs

    A shallow embedding of [db.py] (class [DB]), [repair.py] and of
    [canonicalize_url] from [parse.py], with the properties of the work
    queue proved over it.

    Modelling conventions.
    - Every table of the schema declares [url TEXT PRIMARY KEY]; a table is a
      finite map ([gmap]) from the URL to the remaining columns of its row.
    - A Python [str] is a [string]; one symbol stands for one character.
    - [time.time()] is read by the caller and passed as the argument [now];
      timestamps are integers on some fixed clock scale: the code only
      stores and compares them, and tests them for being zero.
    - A nullable column is an [option]; [None] is SQL's NULL.
    - [tries] is SQLite's INTEGER, taken unbounded here.
    - The [url] arguments are [str] throughout, so a key is never NULL; the
      [kind] arguments are the three literals the callers pass. *)

From stdpp Require Import gmap strings list fin_maps sorting.
From Stdlib Require Import ZArith QArith Ascii String.

Local Open Scope string_scope.
Local Open Scope Z_scope.

(* ===================================================================== *)
(** * Part I. Definitions *)
(* ===================================================================== *)

(** ** db.py: the schema *)

(** [kind TEXT CHECK(kind IN ('catalog','category','product'))] *)
Inductive kind := Catalog | Category | Product.

(** [status TEXT CHECK(status IN ('pending','done','error'))] *)
Inductive status := Pending | Done | Error.

#[global] Instance kind_eq_dec : EqDecision kind.
Proof. solve_decision. Defined.

#[global] Instance status_eq_dec : EqDecision status.
Proof. solve_decision. Defined.

(** A row of [queue], without its key. *)
Record queue_row := QueueRow {
  q_kind : kind;
  q_status : status;
  q_tries : Z;
  q_last_error : option string;
  q_updated_at : option Z
}.

(** A row of [locks]. *)
Record lock_row := LockRow { l_ts : option Z }.

(** A row of [categories]. *)
Record category_row := CategoryRow {
  c_name : option string;
  c_discovered_at : option Z
}.

(** A row of [product_discovery]. *)
Record discovery_row := DiscoveryRow {
  pd_title : option string;
  pd_category_url : option string;
  pd_discovered_at : option Z
}.

(** A row of [products]. *)
Record product_row := ProductRow {
  p_title : option string;
  p_price : option Q;
  p_currency : option string;
  p_part_number : option string;
  p_brand : option string;
  p_stock : option Z;
  p_prod_id : option string;
  p_app_id : option string;
  p_alt_sku : option string;
  p_category_url : option string;
  p_attrs_json : option string;
  p_fitment_json : option string;
  p_discovered_at : option Z;
  p_scraped_at : option Z
}.

(** The database file: the five tables created by [DB._init]. *)
Record store := Store {
  queue : gmap string queue_row;
  locks : gmap string lock_row;
  categories : gmap string category_row;
  product_discovery : gmap string discovery_row;
  products : gmap string product_row
}.

(** The state after [DB._init] on a new file. *)
Definition empty_store : store := Store ∅ ∅ ∅ ∅ ∅.

Definition with_queue (f : gmap string queue_row → gmap string queue_row)
    (s : store) : store :=
  Store (f (queue s)) (locks s) (categories s) (product_discovery s) (products s).

Definition with_locks (f : gmap string lock_row → gmap string lock_row)
    (s : store) : store :=
  Store (queue s) (f (locks s)) (categories s) (product_discovery s) (products s).

Definition with_categories
    (f : gmap string category_row → gmap string category_row)
    (s : store) : store :=
  Store (queue s) (locks s) (f (categories s)) (product_discovery s) (products s).

Definition with_product_discovery
    (f : gmap string discovery_row → gmap string discovery_row)
    (s : store) : store :=
  Store (queue s) (locks s) (categories s) (f (product_discovery s)) (products s).

Definition with_products
    (f : gmap string product_row → gmap string product_row)
    (s : store) : store :=
  Store (queue s) (locks s) (categories s) (product_discovery s) (f (products s)).

(** ** The SQL statements used *)

(** [INSERT OR IGNORE INTO t(url, ...) VALUES(k, ...)]: the row is added
    unless the primary key is taken. *)
Definition insert_or_ignore {V} (k : string) (v : V) (t : gmap string V)
    : gmap string V :=
  match t !! k with
  | Some _ => t
  | None => <[k := v]> t
  end.

(** [UPDATE t SET ... WHERE url = k]. *)
Definition update_url {V} (f : V → V) (k : string) (t : gmap string V)
    : gmap string V :=
  alter f k t.

(** [UPDATE t SET ... WHERE cond]. *)
Definition update_where {V} (cond : V → bool) (f : V → V) (t : gmap string V)
    : gmap string V :=
  (λ r, if cond r then f r else r) <$> t.

(** [INSERT ... ON CONFLICT(url) DO UPDATE SET ...]: [merge old new] is the
    row the SET clause leaves. *)
Definition insert_on_conflict {V} (merge : V → V → V) (k : string) (v : V)
    (t : gmap string V) : gmap string V :=
  match t !! k with
  | Some old => <[k := merge old v]> t
  | None => <[k := v]> t
  end.

(** ** db.py: the queue *)

Definition new_queue_row (k : kind) (now : Z) : queue_row :=
  QueueRow k Pending 0 None (Some now).

Definition seed_catalog (url : string) (now : Z) (s : store) : store :=
  with_queue (insert_or_ignore url (new_queue_row Catalog now)) s.

Definition upsert_queue (url : string) (k : kind) (now : Z) (s : store) : store :=
  with_queue (insert_or_ignore url (new_queue_row k now)) s.

Definition count_pending (s : store) : nat :=
  size (filter (λ kv, q_status kv.2 = Pending) (queue s)).

(** [SET status='done', updated_at=?] *)
Definition set_done (now : Z) (r : queue_row) : queue_row :=
  QueueRow (q_kind r) Done (q_tries r) (q_last_error r) (Some now).

Definition mark_done (url : string) (now : Z) (s : store) : store :=
  with_locks (delete url) (with_queue (update_url (set_done now) url) s).

(** [err[:n]] *)
Fixpoint str_prefix (n : nat) (s : string) : string :=
  match n, s with
  | S n', String c s' => String c (str_prefix n' s')
  | _, _ => EmptyString
  end.

(** [SET status='error', tries=tries+1, last_error=?, updated_at=?] *)
Definition set_error (msg : string) (now : Z) (r : queue_row) : queue_row :=
  QueueRow (q_kind r) Error (q_tries r + 1) (Some msg) (Some now).

Definition mark_error (url : string) (err : string) (now : Z) (s : store) : store :=
  with_locks (delete url)
    (with_queue (update_url (set_error (str_prefix 1000 err) now) url) s).

(** [CASE kind WHEN 'catalog' THEN 0 WHEN 'category' THEN 1 ELSE 2 END] *)
Definition priority (k : kind) : Z :=
  match k with
  | Catalog => 0
  | Category => 1
  | Product => 2
  end.

(** [updated_at ASC]: SQLite sorts NULL before every number. *)
Definition ts_leb (a b : option Z) : bool :=
  match a, b with
  | None, _ => true
  | Some _, None => false
  | Some x, Some y => x <=? y
  end.

Definition ts_ltb (a b : option Z) : bool := negb (ts_leb b a).

(** The ORDER BY clause of [reserve_next], as a comparison of two rows. *)
Definition order_leb (a b : queue_row) : bool :=
  (priority (q_kind a) <? priority (q_kind b)) ||
  ((priority (q_kind a) =? priority (q_kind b)) &&
   ts_leb (q_updated_at a) (q_updated_at b)).

Definition queue_order (a b : string * queue_row) : Prop :=
  order_leb a.2 b.2 = true.

#[global] Instance queue_order_dec : RelDecision queue_order.
Proof. intros a b. unfold queue_order. apply _. Defined.

(** [WHERE status='pending' AND url NOT IN (SELECT url FROM locks)] *)
Definition reservable (s : store) (ur : string * queue_row) : Prop :=
  q_status ur.2 = Pending ∧ locks s !! ur.1 = None.

#[global] Instance reservable_dec s ur : Decision (reservable s ur).
Proof. unfold reservable. apply _. Defined.

Definition candidates (s : store) : list (string * queue_row) :=
  filter (reservable s) (map_to_list (queue s)).

(** [SELECT url, kind ... ORDER BY ... LIMIT 1]: the first row of the sorted
    candidates.  SQL leaves the order among rows with equal sort keys open;
    the sort used here fixes one. *)
Definition select_next (s : store) : option (string * queue_row) :=
  head (merge_sort queue_order (candidates s)).

(** The whole of [reserve_next] runs between [BEGIN IMMEDIATE] and [COMMIT]
    and contains no [await]: it is one transition of the store. *)
Definition reserve_next (now : Z) (s : store) : option (string * kind) * store :=
  match select_next s with
  | None => (None, s)
  | Some (url, row) =>
      (Some (url, q_kind row),
       with_locks (insert_or_ignore url (LockRow (Some now))) s)
  end.

(** ** db.py: categories and products *)

Definition insert_category (url name : string) (now : Z) (s : store) : store :=
  with_categories
    (insert_or_ignore url (CategoryRow (Some name) (Some now))) s.

Definition insert_product_discovery (url title category_url : string) (now : Z)
    (s : store) : store :=
  with_product_discovery
    (insert_or_ignore url
       (DiscoveryRow (Some title) (Some category_url) (Some now))) s.

Definition product_exists (url : string) (s : store) : bool :=
  bool_decide (is_Some (products s !! url)).

(** *** json.dumps(x, ensure_ascii=False)

    The standard encoder, on the two shapes [upsert_product] serialises: a
    dict from str to str and a list of fitment dicts. *)

Definition quote_char : ascii := "034"%char.
Definition backslash_char : ascii := "092"%char.

Definition hex_digit (n : N) : ascii :=
  nth (N.to_nat n) (list_ascii_of_string "0123456789abcdef") "0"%char.

(** [ESCAPE_DCT]: the replacement of one character matched by [ESCAPE]. *)
Definition json_escape_char (c : ascii) : string :=
  let n := N_of_ascii c in
  if (n =? 92)%N then String backslash_char (String backslash_char "")
  else if (n =? 34)%N then String backslash_char (String quote_char "")
  else if (n =? 8)%N then String backslash_char "b"
  else if (n =? 12)%N then String backslash_char "f"
  else if (n =? 10)%N then String backslash_char "n"
  else if (n =? 13)%N then String backslash_char "r"
  else if (n =? 9)%N then String backslash_char "t"
  else if (n <? 32)%N then
    String backslash_char
      ("u00" ++ String (hex_digit (n / 16)) (String (hex_digit (n mod 16)) ""))
  else String c "".

Fixpoint json_escape (s : string) : string :=
  match s with
  | EmptyString => ""
  | String c s' => json_escape_char c ++ json_escape s'
  end.

(** [encode_basestring] *)
Definition json_str (s : string) : string :=
  String quote_char (json_escape s ++ String quote_char "").

Definition json_opt_str (o : option string) : string :=
  match o with
  | None => "null"
  | Some s => json_str s
  end.

(** [', '.join(items)] *)
Fixpoint json_join (items : list string) : string :=
  match items with
  | [] => ""
  | [x] => x
  | x :: rest => x ++ ", " ++ json_join rest
  end.

(** A dict of attributes, in insertion order. *)
Definition attrs := list (string * string).

(** One fitment dict: [{"vehicle": .., "sub_model": .., "engine": ..}]. *)
Record fitment_row := FitmentRow {
  f_vehicle : option string;
  f_sub_model : option string;
  f_engine : option string
}.

Definition json_dumps_attrs (a : attrs) : string :=
  "{" ++ json_join (map (λ kv, json_str kv.1 ++ ": " ++ json_str kv.2) a) ++ "}".

Definition json_member (k : string) (v : option string) : string :=
  json_str k ++ ": " ++ json_opt_str v.

Definition json_dumps_fitment_row (f : fitment_row) : string :=
  "{" ++ json_join [json_member "vehicle" (f_vehicle f);
                    json_member "sub_model" (f_sub_model f);
                    json_member "engine" (f_engine f)] ++ "}".

Definition json_dumps_fitment (l : list fitment_row) : string :=
  "[" ++ json_join (map json_dumps_fitment_row l) ++ "]".

(** *** upsert_product *)

(** The dict handed to [upsert_product]; an absent key reads as [None]
    through [data.get]. *)
Record product_data := ProductData {
  d_url : string;
  d_title : option string;
  d_price : option Q;
  d_currency : option string;
  d_part_number : option string;
  d_brand : option string;
  d_stock : option Z;
  d_prod_id : option string;
  d_app_id : option string;
  d_alt_sku : option string;
  d_category_url : option string;
  d_attrs : option attrs;
  d_fitment : option (list fitment_row);
  d_discovered_at : option Z;
  d_scraped_at : option Z
}.

(** [x or self._ts()] on an optional float: [None] and [0.0] are falsy. *)
Definition or_ts (x : option Z) (now : Z) : Z :=
  match x with
  | Some t => if t =? 0 then now else t
  | None => now
  end.

(** The VALUES tuple; [now1] and [now2] are the two readings of the clock. *)
Definition product_values (d : product_data) (now1 now2 : Z) : product_row :=
  ProductRow (d_title d) (d_price d) (d_currency d) (d_part_number d)
    (d_brand d) (d_stock d) (d_prod_id d) (d_app_id d) (d_alt_sku d)
    (d_category_url d)
    (Some (json_dumps_attrs (default [] (d_attrs d))))
    (Some (json_dumps_fitment (default [] (d_fitment d))))
    (Some (or_ts (d_discovered_at d) now1))
    (Some (or_ts (d_scraped_at d) now2)).

(** The SET clause of the upsert: every column is taken from [excluded]
    but [discovered_at], which the clause does not list. *)
Definition product_on_conflict (old excluded : product_row) : product_row :=
  ProductRow (p_title excluded) (p_price excluded) (p_currency excluded)
    (p_part_number excluded) (p_brand excluded) (p_stock excluded)
    (p_prod_id excluded) (p_app_id excluded) (p_alt_sku excluded)
    (p_category_url excluded) (p_attrs_json excluded)
    (p_fitment_json excluded) (p_discovered_at old) (p_scraped_at excluded).

(** What SQLite stores as an INTEGER: a signed value of 64 bits. *)
Definition sqlite_int (z : Z) : bool := (- 2 ^ 63 <=? z) && (z <? 2 ^ 63).

(** Binding the parameters of the statement. [stock] is the only Python int
    among them; on an int outside 64 bits the module [sqlite3] raises
    [OverflowError] before the statement runs. *)
Definition binds (d : product_data) : bool :=
  match d_stock d with
  | Some z => sqlite_int z
  | None => true
  end.

(** The [repr] of that exception. *)
Definition overflow_error : string :=
  "OverflowError('Python int too large to convert to SQLite INTEGER')".

(** [upsert_product]; [None] stands for the [OverflowError], which leaves
    the table as it was. *)
Definition upsert_product (d : product_data) (now1 now2 : Z) (s : store)
    : option store :=
  if binds d then
    Some (with_products
            (insert_on_conflict product_on_conflict (d_url d)
               (product_values d now1 now2)) s)
  else None.

(** ** repair.py *)

Definition space_char : ascii := " "%char.

(** SQLite's [ltrim(X)] and [rtrim(X)]: spaces only. *)
Fixpoint sql_ltrim (s : string) : string :=
  match s with
  | String c s' => if Ascii.eqb c space_char then sql_ltrim s' else s
  | EmptyString => EmptyString
  end.

Fixpoint sql_rtrim (s : string) : string :=
  match s with
  | String c s' =>
      match sql_rtrim s' with
      | EmptyString => if Ascii.eqb c space_char then EmptyString else String c EmptyString
      | r => String c r
      end
  | EmptyString => EmptyString
  end.

(** [trim(X)] *)
Definition sql_trim (s : string) : string := sql_rtrim (sql_ltrim s).

(** [IFNULL(trim(x),'') = ''] *)
Definition blank (x : option string) : bool :=
  match x with
  | None => true
  | Some t => String.eqb (sql_trim t) ""
  end.

(** [title IS NULL OR trim(title) = '' OR title IN ('USD','EUR','GBP')] *)
Definition bad_title (x : option string) : bool :=
  match x with
  | None => true
  | Some t =>
      String.eqb (sql_trim t) "" ||
      (String.eqb t "USD" || String.eqb t "EUR" || String.eqb t "GBP")
  end.

(** [attrs_json IS NULL OR attrs_json = '' OR attrs_json = '{}'] *)
Definition no_attrs (x : option string) : bool :=
  match x with
  | None => true
  | Some t => String.eqb t "" || String.eqb t "{}"
  end.

(** The WHERE clause of [find_empty_products]. *)
Definition is_empty_product (p : product_row) : bool :=
  bad_title (p_title p) ||
  (bool_decide (p_price p = None) && blank (p_part_number p) &&
   blank (p_brand p) && no_attrs (p_attrs_json p)).

Definition find_empty_products (s : store) : list string :=
  (map_to_list (filter (λ kv, is_empty_product kv.2 = true) (products s))).*1.

(** [executemany("DELETE FROM t WHERE url = ?", urls)] *)
Definition delete_urls {V} (urls : list string) (t : gmap string V) : gmap string V :=
  foldl (λ t u, delete u t) t urls.

(** The state left by [delete_products]; its return value, a change counter
    of the connection, is not used by the caller. *)
Definition delete_products (urls : list string) (s : store) : store :=
  with_products (delete_urls urls) s.

(** [SET status='pending', tries=0, last_error=NULL, updated_at=?] *)
Definition set_pending (ts : Z) (r : queue_row) : queue_row :=
  QueueRow (q_kind r) Pending 0 None (Some ts).

(** One turn of the loop of [ensure_queue_pending_for_products]. *)
Definition ensure_queue_pending (ts : Z) (s : store) (u : string) : store :=
  with_locks (delete u)
    (with_queue (insert_or_ignore u (new_queue_row Product ts))
       (with_queue
          (update_url
             (λ r, if decide (q_status r ≠ Pending) then set_pending ts r else r) u)
          s)).

Definition ensure_queue_pending_for_products (urls : list string) (ts : Z)
    (s : store) : store :=
  foldl (ensure_queue_pending ts) s urls.

Definition is_error (r : queue_row) : bool := bool_decide (q_status r = Error).

(** [SELECT url FROM queue WHERE status='error'] *)
Definition error_urls (s : store) : list string :=
  (map_to_list (filter (λ kv, q_status kv.2 = Error) (queue s))).*1.

Definition requeue_all_errors (ts : Z) (s : store) : nat * store :=
  let urls := error_urls s in
  (List.length urls,
   with_locks (delete_urls urls)
     (with_queue (update_where is_error (set_pending ts)) s)).

(** The first transaction of [main]: the corrupt-result pass. *)
Definition repair_empty_products (ts : Z) (s : store) : store :=
  let empty_urls := find_empty_products s in
  ensure_queue_pending_for_products empty_urls ts (delete_products empty_urls s).

(** The second transaction of [main]: the error amnesty. *)
Definition repair_errors (ts : Z) (s : store) : store :=
  (requeue_all_errors ts s).2.

Definition repair_main (ts : Z) (s : store) : store :=
  repair_errors ts (repair_empty_products ts s).

(** ** The operations as a transition system *)

(** Every call that changes the store, with its arguments and the clock
    readings it takes. *)
Inductive op :=
  | SeedCatalog (url : string) (now : Z)
  | UpsertQueue (url : string) (k : kind) (now : Z)
  | MarkDone (url : string) (now : Z)
  | MarkError (url err : string) (now : Z)
  | ReserveNext (now : Z)
  | InsertCategory (url name : string) (now : Z)
  | InsertProductDiscovery (url title category_url : string) (now : Z)
  | UpsertProduct (d : product_data) (now1 now2 : Z)
  | DeleteProducts (urls : list string)
  | EnsureQueuePending (urls : list string) (ts : Z)
  | RequeueAllErrors (ts : Z).

Definition exec (o : op) (s : store) : store :=
  match o with
  | SeedCatalog url now => seed_catalog url now s
  | UpsertQueue url k now => upsert_queue url k now s
  | MarkDone url now => mark_done url now s
  | MarkError url err now => mark_error url err now s
  | ReserveNext now => (reserve_next now s).2
  | InsertCategory url name now => insert_category url name now s
  | InsertProductDiscovery url title c now =>
      insert_product_discovery url title c now s
  | UpsertProduct d now1 now2 => default s (upsert_product d now1 now2 s)
  | DeleteProducts urls => delete_products urls s
  | EnsureQueuePending urls ts => ensure_queue_pending_for_products urls ts s
  | RequeueAllErrors ts => (requeue_all_errors ts s).2
  end.

Definition run (ops : list op) (s : store) : store :=
  foldl (λ s o, exec o s) s ops.

(** The states the program can bring a new database file to. *)
Definition reachable (s : store) : Prop :=
  ∃ ops, s = run ops empty_store.

(** The repair operations that can set the status of [url] to pending. *)
Definition requeues (url : string) (o : op) : Prop :=
  match o with
  | EnsureQueuePending urls _ => url ∈ urls
  | RequeueAllErrors _ => True
  | _ => False
  end.

(** The operations that release the lock of [url]: recording its outcome,
    and the corrupt-result pass of the repair when it names [url]. *)
Definition releases (url : string) (o : op) : Prop :=
  match o with
  | MarkDone u _ => u = url
  | MarkError u _ _ => u = url
  | EnsureQueuePending urls _ => url ∈ urls
  | _ => False
  end.

(** ** parse.py: canonicalize_url

    [urlsplit] and [urlunsplit] are those of [urllib.parse] (CPython 3.11),
    on a str taken as the list of its characters. *)

Definition code (c : ascii) : N := N_of_ascii c.

(** [_WHATWG_C0_CONTROL_OR_SPACE]: the characters 0x00 to 0x20. *)
Definition is_c0_or_space (c : ascii) : bool := (code c <=? 32)%N.

Definition is_ascii (c : ascii) : bool := (code c <? 128)%N.

(** [c.isascii() and c.isalpha()] *)
Definition is_ascii_alpha (c : ascii) : bool :=
  ((65 <=? code c) && (code c <=? 90) || (97 <=? code c) && (code c <=? 122))%N.

(** [c in scheme_chars]: letters, digits, [+], [-] and [.]. *)
Definition is_scheme_char (c : ascii) : bool :=
  (is_ascii_alpha c || (48 <=? code c) && (code c <=? 57) ||
   (code c =? 43) || (code c =? 45) || (code c =? 46))%N.

(** [str.lower] on one character of a scheme. *)
Definition lower_char (c : ascii) : ascii :=
  if ((65 <=? code c) && (code c <=? 90))%N then ascii_of_N (code c + 32) else c.

Definition slash : ascii := "/"%char.
Definition colon : ascii := ":"%char.
Definition qmark : ascii := "?"%char.
Definition hash : ascii := "#"%char.

(** [s.lstrip(chars)] and [s.rstrip(chars)], the set given as a test. *)
Fixpoint lstrip (p : ascii → bool) (l : list ascii) : list ascii :=
  match l with
  | c :: l' => if p c then lstrip p l' else l
  | [] => []
  end.

Definition rstrip (p : ascii → bool) (l : list ascii) : list ascii :=
  rev (lstrip p (rev l)).

(** [s.replace(b, "")] for a single character [b]. *)
Fixpoint remove_char (b : ascii) (l : list ascii) : list ascii :=
  match l with
  | c :: l' => if Ascii.eqb c b then remove_char b l' else c :: remove_char b l'
  | [] => []
  end.

(** [_UNSAFE_URL_BYTES_TO_REMOVE = ['\t', '\r', '\n']] *)
Definition unsafe_bytes : list ascii := ["009"%char; "013"%char; "010"%char].

(** [s.split(d, 1)] when [d in s]: the text before and after the first [d];
    [None] when [d] does not occur. *)
Fixpoint split1 (d : ascii) (l : list ascii) : option (list ascii * list ascii) :=
  match l with
  | [] => None
  | c :: l' =>
      if Ascii.eqb c d then Some ([], l')
      else match split1 d l' with
           | Some (a, b) => Some (c :: a, b)
           | None => None
           end
  end.

(** The scheme test of [urlsplit]: with [i = url.find(':')], when [i > 0],
    [url[0]] is an ASCII letter and all of [url[:i]] are scheme characters,
    the scheme is [url[:i].lower()] and the rest is [url[i+1:]]. *)
Definition split_scheme (url : list ascii) : list ascii * list ascii :=
  match split1 colon url with
  | Some (c :: pre, post) =>
      if is_ascii_alpha c && forallb is_scheme_char (c :: pre)
      then (map lower_char (c :: pre), post)
      else ([], url)
  | _ => ([], url)
  end.

Definition is_netloc_delim (c : ascii) : bool :=
  Ascii.eqb c slash || Ascii.eqb c qmark || Ascii.eqb c hash.

Fixpoint take_until (p : ascii → bool) (l : list ascii) : list ascii :=
  match l with
  | c :: l' => if p c then [] else c :: take_until p l'
  | [] => []
  end.

Fixpoint drop_until (p : ascii → bool) (l : list ascii) : list ascii :=
  match l with
  | c :: l' => if p c then l else drop_until p l'
  | [] => []
  end.

(** [_splitnetloc(url, 2)]: [(url[2:delim], url[delim:])] with [delim] the
    first of [/], [?] and [#] from position 2 on, or the end. *)
Definition splitnetloc (url : list ascii) : list ascii * list ascii :=
  (take_until is_netloc_delim (drop 2 url),
   drop_until is_netloc_delim (drop 2 url)).

Definition has_char (c : ascii) (l : list ascii) : bool :=
  existsb (Ascii.eqb c) l.

(** [url[:2] == '//'] *)
Definition starts_with_2slash (l : list ascii) : bool :=
  match l with
  | a :: b :: _ => Ascii.eqb a slash && Ascii.eqb b slash
  | _ => false
  end.

(** The result of [urlsplit], a 5-tuple. *)
Record url_parts := UrlParts {
  scheme : list ascii;
  netloc : list ascii;
  path : list ascii;
  query : list ascii;
  fragment : list ascii
}.

(** The two validations of a netloc that reach outside [urllib.parse]
    ([ipaddress] and [unicodedata]); each answers whether the netloc passes,
    that is whether no [ValueError] is raised. *)
Class NetlocChecks := {
  check_bracketed_netloc : list ascii → bool;
  nfkc_safe : list ascii → bool
}.

(** [_checknetloc]: nothing to check on an empty or all-ASCII netloc. *)
Definition checknetloc `{NetlocChecks} (nl : list ascii) : bool :=
  match nl with
  | [] => true
  | _ => forallb is_ascii nl || nfkc_safe nl
  end.

(** The checks [urlsplit] makes on the netloc it has cut out. *)
Definition netloc_ok `{NetlocChecks} (nl : list ascii) : bool :=
  let lb := has_char "["%char nl in
  let rb := has_char "]"%char nl in
  negb ((lb && negb rb) || (rb && negb lb)) &&
  (if lb && rb then check_bracketed_netloc nl else true) &&
  checknetloc nl.

(** [urlsplit(url)]; [None] stands for the [ValueError] it may raise. *)
Definition urlsplit `{NetlocChecks} (url : list ascii) : option url_parts :=
  let url := lstrip is_c0_or_space url in
  let url := foldl (λ u b, remove_char b u) url unsafe_bytes in
  let '(sch, url) := split_scheme url in
  let '(nl, url) :=
    if starts_with_2slash url then splitnetloc url else ([], url) in
  let '(url, frag) :=
    match split1 hash url with
    | Some (a, b) => (a, b)
    | None => (url, [])
    end in
  let '(url, qry) :=
    match split1 qmark url with
    | Some (a, b) => (a, b)
    | None => (url, [])
    end in
  if netloc_ok nl then Some (UrlParts sch nl url qry frag) else None.

Definition uses_netloc : list (list ascii) :=
  map list_ascii_of_string
    [""; "ftp"; "http"; "gopher"; "nntp"; "telnet"; "imap"; "wais"; "file";
     "mms"; "https"; "shttp"; "snews"; "prospero"; "rtsp"; "rtspu"; "rsync";
     "svn"; "svn+ssh"; "sftp"; "nfs"; "git"; "git+ssh"; "ws"; "wss"].

Definition nonempty (l : list ascii) : bool :=
  match l with
  | [] => false
  | _ => true
  end.

(** [url[:1] != '/'] *)
Definition no_leading_slash (l : list ascii) : bool :=
  match l with
  | c :: _ => negb (Ascii.eqb c slash)
  | [] => true
  end.

(** [urlunsplit(components)] *)
Definition urlunsplit (p : url_parts) : list ascii :=
  let url := path p in
  let url :=
    if nonempty (netloc p) ||
       (nonempty (scheme p) && bool_decide (scheme p ∈ uses_netloc) &&
        negb (starts_with_2slash url))
    then
      let url := if nonempty url && no_leading_slash url then slash :: url else url in
      ([slash; slash] ++ netloc p ++ url)%list
    else url in
  let url := if nonempty (scheme p) then (scheme p ++ [colon] ++ url)%list else url in
  let url := if nonempty (query p) then (url ++ [qmark] ++ query p)%list else url in
  let url := if nonempty (fragment p) then (url ++ [hash] ++ fragment p)%list else url in
  url.

Definition is_slash (c : ascii) : bool := Ascii.eqb c slash.

(** [s.endswith("/")] *)
Definition ends_with_slash (l : list ascii) : bool :=
  match rev l with
  | c :: _ => is_slash c
  | [] => false
  end.

(** [canonicalize_url] on the characters of the URL. *)
Definition canonicalize `{NetlocChecks} (url : list ascii) : option (list ascii) :=
  match urlsplit url with
  | None => None
  | Some parts =>
      let parts :=
        UrlParts (scheme parts) (netloc parts) (path parts) (query parts) [] in
      let clean := urlunsplit parts in
      Some (if ends_with_slash clean && negb (bool_decide (path parts = [slash]))
            then rstrip is_slash clean
            else clean)
  end.

Definition canonicalize_url `{NetlocChecks} (url : string) : option string :=
  string_of_list_ascii <$> canonicalize (list_ascii_of_string url).

(** A netloc validation that lets everything pass, to evaluate examples. *)
Definition lenient_checks : NetlocChecks :=
  {| check_bracketed_netloc := λ _, true; nfkc_safe := λ _, true |}.

(** The question mark and the query, as [urlunsplit] writes them. *)
Definition query_text (qry : list ascii) : list ascii :=
  if nonempty qry then qmark :: qry else [].

(** *** The text of a URL, by its parts

    What [urlunsplit] writes when the fragment is empty: the scheme and a
    colon when there is a scheme, [//] and the netloc when [authority] is
    set, the path, and a question mark and the query when there is a
    query. *)
Definition url_text (sch : list ascii) (authority : bool)
    (nl pth qry : list ascii) : list ascii :=
  ((if nonempty sch then sch ++ [colon] else []) ++
   (if authority then [slash; slash] ++ nl else []) ++
   pth ++ query_text qry)%list.

(** The test of [urlunsplit] for writing [//]. *)
Definition writes_authority (sch nl pth : list ascii) : bool :=
  nonempty nl ||
  (nonempty sch && bool_decide (sch ∈ uses_netloc) && negb (starts_with_2slash pth)).

(** A character that [urlsplit] does not remove. *)
Definition safe_char (c : ascii) : bool := negb (has_char c unsafe_bytes).

(** [url.lstrip(...)] followed by the three [replace] calls of [urlsplit]. *)
Definition strip_unsafe (url : list ascii) : list ascii :=
  foldl (λ u b, remove_char b u) (lstrip is_c0_or_space url) unsafe_bytes.

(** The scheme test of [urlsplit] on the text before the first colon. *)
Definition scheme_like (s : list ascii) : bool :=
  match s with
  | c :: _ => is_ascii_alpha c && forallb is_scheme_char s
  | [] => false
  end.

(** ** Reading the queue *)

(** [SELECT status FROM queue WHERE url = ?] *)
Definition status_of (url : string) (s : store) : option status :=
  q_status <$> queue s !! url.

(** [SELECT * FROM queue WHERE url = ?], as the list of rows found. *)
Definition rows_for (url : string) (s : store) : list (string * queue_row) :=
  filter (λ kv, kv.1 = url) (map_to_list (queue s)).

(** The calls that record the outcome of [url]. *)
Definition records_outcome (url : string) (o : op) : Prop :=
  match o with
  | MarkDone u _ => u = url
  | MarkError u _ _ => u = url
  | _ => False
  end.

(** The status changes of the transition discipline: none, pending to done,
    pending to error, error to pending by a repair operation, and done to
    pending by the re-queueing that follows the deletion of results. *)
Inductive transition (o : op) : status → status → Prop :=
  | transition_none st : transition o st st
  | transition_done : transition o Pending Done
  | transition_error : transition o Pending Error
  | transition_retry url : requeues url o → transition o Error Pending
  | transition_redo urls ts :
      o = EnsureQueuePending urls ts → transition o Done Pending.

(** Pending items carry no failure: tries is 0 and last_error is NULL. *)
Definition pending_fresh (s : store) : Prop :=
  ∀ url r, queue s !! url = Some r → q_status r = Pending →
    q_tries r = 0 ∧ q_last_error r = None.

(** ** Sample data *)

(** A catalog root, a category and a product, all waiting. *)
Definition sample_queue : store :=
  upsert_queue "c" Category 3
    (upsert_queue "p" Product 1 (seed_catalog "r" 5 empty_store)).

(** Two results scraped for the same product page. *)
Definition first_scrape : product_data :=
  ProductData "p" (Some "Brake pad") (Some (1299 # 100)) (Some "USD")
    (Some "BP-1") (Some "Acme") (Some 4) (Some "11") (Some "22") None
    (Some "c") (Some [("Brand", "Acme")]) (Some []) None (Some 10).

Definition second_scrape : product_data :=
  ProductData "p" (Some "Brake pad set") None (Some "EUR")
    None (Some "Acme Ltd") None None None (Some "alt") (Some "c")
    None (Some [FitmentRow (Some "Car") None None]) (Some 77) (Some 20).

(** A result whose stock is 2^63, one more than SQLite can store. *)
Definition large_stock : product_data :=
  ProductData "p" (Some "Brake pad") None (Some "USD") None None
    (Some (2 ^ 63)) None None None None None None None (Some 10).

(** A diagnostic of 1200 characters. *)
Definition long_message : string :=
  string_of_list_ascii (replicate 1200 "x"%char).

(** A store whose only result has a blank title. *)
Definition blank_result : product_data :=
  ProductData "p" (Some "  ") (Some (5 # 1)) (Some "USD")
    (Some "BP-1") (Some "Acme") None None None None
    (Some "c") (Some [("Brand", "Acme")]) None None (Some 10).

Definition corrupt_ops : list op :=
  [SeedCatalog "r" 1; UpsertQueue "p" Product 2; ReserveNext 3;
   MarkDone "r" 4; ReserveNext 5; UpsertProduct blank_result 6 6;
   MarkDone "p" 7; ReserveNext 8].

(** ** db.py: progress *)

(** The dict [{"total", "done", "pending", "error"}] of the two progress
    queries. *)
Record counts := Counts {
  n_total : nat;
  n_done : nat;
  n_pending : nat;
  n_error : nat
}.

(** [category_counts]: four COUNT queries over the queue rows of kind
    category, the last three by status. *)
Definition category_counts (s : store) : counts :=
  Counts
    (size (filter (λ kv, q_kind kv.2 = Category) (queue s)))
    (size (filter (λ kv, q_kind kv.2 = Category ∧ q_status kv.2 = Done) (queue s)))
    (size (filter (λ kv, q_kind kv.2 = Category ∧ q_status kv.2 = Pending) (queue s)))
    (size (filter (λ kv, q_kind kv.2 = Category ∧ q_status kv.2 = Error) (queue s))).

(** [url IN (SELECT url FROM product_discovery WHERE category_url=?)] *)
Definition discovered_in (category_url : string) (s : store) (url : string) : bool :=
  match product_discovery s !! url with
  | Some d => bool_decide (pd_category_url d = Some category_url)
  | None => false
  end.

(** [product_counts_for_category]: the discoveries made under the category,
    and the queue rows of kind product among them, by status. *)
Definition product_counts_for_category (category_url : string) (s : store) : counts :=
  Counts
    (size (filter (λ kv, pd_category_url kv.2 = Some category_url)
             (product_discovery s)))
    (size (filter (λ kv, q_kind kv.2 = Product ∧ q_status kv.2 = Done ∧
                         discovered_in category_url s kv.1 = true) (queue s)))
    (size (filter (λ kv, q_kind kv.2 = Product ∧ q_status kv.2 = Pending ∧
                         discovered_in category_url s kv.1 = true) (queue s)))
    (size (filter (λ kv, q_kind kv.2 = Product ∧ q_status kv.2 = Error ∧
                         discovered_in category_url s kv.1 = true) (queue s))).

(** ** Rows the program writes *)

(** What every row of the queue written by the program looks like: the
    counter is not negative, the timestamp is set, a pending row carries no
    failure, an error row carries one, and a diagnostic is at most 1000
    characters long. *)
Definition row_sound (r : queue_row) : Prop :=
  0 ≤ q_tries r ∧
  is_Some (q_updated_at r) ∧
  (q_status r = Pending → q_tries r = 0 ∧ q_last_error r = None) ∧
  (q_status r = Error → 1 ≤ q_tries r ∧ is_Some (q_last_error r)) ∧
  (∀ m, q_last_error r = Some m → (String.length m ≤ 1000)%nat).

(** Locks are held on pending items only. *)
Definition locks_sound (s : store) : Prop :=
  ∀ url l, locks s !! url = Some l →
    ∃ r, queue s !! url = Some r ∧ q_status r = Pending.

(** ** parse.py: reading a page

    The handlers of parse.py read a page through the browser and write to
    the database. What the browser returns is an argument here; the
    database calls are those of the code, in its order. *)

(** The truth value of a [str | None]: [None] and the empty text are
    false. *)
Definition truthy (x : option string) : bool :=
  match x with
  | Some (String _ _) => true
  | _ => false
  end.

(** [x or y] *)
Definition py_or (x y : option string) : option string :=
  if truthy x then x else y.

(** [c.isspace()] for a character below 256: tab to carriage return, the
    four separators 0x1c to 0x1f, the space, 0x85 and 0xa0. *)
Definition py_isspace (c : ascii) : bool :=
  ((9 <=? code c) && (code c <=? 13) || (28 <=? code c) && (code c <=? 32) ||
   (code c =? 133) || (code c =? 160))%N.

(** [s.strip()] *)
Definition py_strip (s : string) : string :=
  string_of_list_ascii
    (rstrip py_isspace (lstrip py_isspace (list_ascii_of_string s))).

(** [get_text]: [None] when the element is missing, else its inner text,
    stripped. *)
Definition get_text (el : option string) : option string :=
  py_strip <$> el.

(** [d.get(k)] on a dict with str keys, in insertion order. *)
Definition dict_get {V} (k : string) (d : list (string * V)) : option V :=
  snd <$> List.find (λ kv, String.eqb kv.1 k) d.

(** [extract_links] on the nodes found, each with its [href] attribute and
    its inner text: a node without a [href], or with an empty one, is
    skipped; both texts are stripped. *)
Definition extract_links (nodes : list (option string * string))
    : list (string * string) :=
  omap (λ n, match n.1 with
             | Some href =>
                 if truthy (Some href) then Some (py_strip href, py_strip n.2)
                 else None
             | None => None
             end) nodes.

(** [find_next_page]: the stripped [href] of the link, [None] without a
    link or without a [href]. *)
Definition find_next_page (el : option (option string)) : option string :=
  match el with
  | Some (Some href) => if truthy (Some href) then Some (py_strip href) else None
  | _ => None
  end.

(** [vals[0]], [vals[1]], [vals[2]], each [None] when the row is shorter. *)
Definition fitment_of_cells (vals : list string) : fitment_row :=
  FitmentRow (vals !! 0%nat) (vals !! 1%nat) (vals !! 2%nat).

(** [any([vehicle, sub_model, engine])] *)
Definition any_field (f : fitment_row) : bool :=
  truthy (f_vehicle f) || truthy (f_sub_model f) || truthy (f_engine f).

(** [extract_fitment_table] on the rows of the table, each the inner texts
    of its cells. *)
Definition extract_fitment_table (rows : list (list string)) : list fitment_row :=
  filter (λ f, any_field f = true)
    ((λ tds, fitment_of_cells (py_strip <$> tds)) <$> rows).

(** What the handlers call outside this model: [urljoin] of urllib, the
    text of the [ValueError] that [urlsplit] raises on a URL,
    [parse_price_to_float], and the search for [(digits)] in the stock
    text with its conversion by [int]. *)
Class Scraping := {
  urljoin : string → string → string;
  value_error : string → string;
  parse_price_to_float : option string → option Q * option string;
  stock_in_parens : string → option Z
}.

(** A product page as [parse_product] reads it: the inner texts of the
    title, price and stock elements ([None] for a missing element), the
    dict of [extract_attr_block], the dict of [extract_hidden_inputs] and
    the rows of the fitment table. *)
Record product_page := ProductPage {
  pg_title : option string;
  pg_price : option string;
  pg_attrs : attrs;
  pg_hidden : list (string * option string);
  pg_stock : option string;
  pg_fitment : list (list string)
}.

(** Loading a page: an exception of the browser (with its [repr]), the
    product container not found in time, or the page. *)
Inductive page_load :=
  | Raised (e : string)
  | NotReady
  | Ready (pg : product_page).

(** The readings of the clock a handler takes, numbered: in a loop by the
    calls made so far, elsewhere by the place that takes the reading. *)
Definition clock := nat → Z.

(** What a handler leaves: the store, and the [repr] of the exception when
    it ends by one. *)
Definition outcome := (store * option string)%type.

(** ** parse.py: parse_product *)

(** The dict [data] that [parse_product] hands to [upsert_product]. *)
Definition scraped_data `{Scraping} (url : string) (category_url : option string)
    (pg : product_page) (now : Z) : product_data :=
  let title := get_text (pg_title pg) in
  let price := parse_price_to_float (get_text (pg_price pg)) in
  let hidden k := mjoin (dict_get k (pg_hidden pg)) in
  let part_number := dict_get "Part Number" (pg_attrs pg) in
  let part_number :=
    if truthy part_number then part_number
    else py_or (hidden "part_number") (hidden "alt_sku") in
  let stock_text := get_text (pg_stock pg) in
  let stock :=
    if truthy stock_text then stock_text ≫= stock_in_parens else None in
  ProductData url title price.1 (py_or price.2 (Some "USD")) part_number
    (dict_get "Brand" (pg_attrs pg)) stock
    (hidden "prod_id") (hidden "app_id") (hidden "alt_sku")
    category_url (Some (pg_attrs pg))
    (Some (extract_fitment_table (pg_fitment pg))) None (Some now).

(** The first lines of [parse_product]: a URL that has a result is marked
    done at once. The test and the call run with no [await] between them. *)
Definition parse_product_known (url : string) (now : Z) (s : store) : option store :=
  if product_exists url s then Some (mark_done url now s) else None.

(** The rest of [parse_product], from the loading of the page on. The
    readings of the clock: [ts 0] for [scraped_at], [ts 1] and [ts 2] inside
    [upsert_product], [ts 3] for the outcome. No [await] separates
    [upsert_product] from [mark_done]; the [OverflowError] of
    [upsert_product] ends the handler. *)
Definition parse_product_page `{Scraping} (url : string)
    (category_url : option string) (load : page_load) (ts : clock) (s : store)
    : outcome :=
  match load with
  | Raised e => (s, Some e)
  | NotReady => (mark_error url "product_container_not_found" (ts 3%nat) s, None)
  | Ready pg =>
      let data := scraped_data url category_url pg (ts 0%nat) in
      if truthy (d_title data) then
        match upsert_product data (ts 1%nat) (ts 2%nat) s with
        | Some s' => (mark_done url (ts 3%nat) s', None)
        | None => (s, Some overflow_error)
        end
      else (mark_error url "title_missing" (ts 3%nat) s, None)
  end.

(** [parse_product], run with no other writer between its first lines and
    its last. *)
Definition parse_product `{Scraping} (url : string) (category_url : option string)
    (load : page_load) (ts : clock) (s : store) : outcome :=
  match parse_product_known url (ts 3%nat) s with
  | Some s' => (s', None)
  | None => parse_product_page url category_url load ts s
  end.

(** ** parse.py: parse_catalog and parse_category *)

(** Loading a page of links: an exception of the browser, or the nodes
    found, each with its [href] attribute and its inner text. *)
Inductive links_load :=
  | LinksRaised (e : string)
  | Links (nodes : list (option string * string)).

(** The loop of [parse_catalog] over the links; [n] counts the readings of
    the clock taken so far. A URL that [urlsplit] rejects ends the loop by
    its [ValueError]. *)
Fixpoint parse_catalog_links `{NetlocChecks} `{Scraping} (url : string)
    (links : list (string * string)) (ts : clock) (n : nat) (s : store)
    : store * nat * option string :=
  match links with
  | [] => (s, n, None)
  | (href, name) :: rest =>
      match canonicalize_url (urljoin url href) with
      | None => (s, n, Some (value_error (urljoin url href)))
      | Some abs_url =>
          parse_catalog_links url rest ts (S (S n))
            (upsert_queue abs_url Category (ts (S n))
               (insert_category abs_url name (ts n) s))
      end
  end.

Definition parse_catalog `{NetlocChecks} `{Scraping} (url : string)
    (load : links_load) (ts : clock) (s : store) : outcome :=
  match load with
  | LinksRaised e => (s, Some e)
  | Links nodes =>
      match parse_catalog_links url (extract_links nodes) ts 0 s with
      | (s', n, None) => (mark_done url (ts n) s', None)
      | (s', _, Some e) => (s', Some e)
      end
  end.

(** One page of a category: the product links and the next-page link. *)
Inductive category_load :=
  | CategoryRaised (e : string)
  | CategoryPage (nodes : list (option string * string))
      (next : option (option string)).

(** The loop of [parse_category] over the product links of one page. *)
Fixpoint parse_category_links `{NetlocChecks} `{Scraping} (url cur_url : string)
    (links : list (string * string)) (ts : clock) (n : nat) (s : store)
    : store * nat * option string :=
  match links with
  | [] => (s, n, None)
  | (href, title) :: rest =>
      match canonicalize_url (urljoin cur_url href) with
      | None => (s, n, Some (value_error (urljoin cur_url href)))
      | Some abs_url =>
          parse_category_links url cur_url rest ts (S (S n))
            (upsert_queue abs_url Product (ts (S n))
               (insert_product_discovery abs_url title url (ts n) s))
      end
  end.

(** The [while] loop of [parse_category] on the pages the browser returns,
    in order; [None] when the page shown last still has a next-page link,
    so that the loop has not ended. *)
Fixpoint parse_category_pages `{NetlocChecks} `{Scraping} (url cur_url : string)
    (pages : list category_load) (ts : clock) (n : nat) (s : store)
    : option outcome :=
  match pages with
  | [] => None
  | CategoryRaised e :: _ => Some (s, Some e)
  | CategoryPage nodes next :: rest =>
      match parse_category_links url cur_url (extract_links nodes) ts n s with
      | (s', _, Some e) => Some (s', Some e)
      | (s', n', None) =>
          let next_rel := find_next_page next in
          if truthy next_rel then
            match canonicalize_url (urljoin cur_url (default "" next_rel)) with
            | None =>
                Some (s', Some (value_error (urljoin cur_url (default "" next_rel))))
            | Some next_url => parse_category_pages url next_url rest ts n' s'
            end
          else Some (mark_done url (ts n') s', None)
      end
  end.

Definition parse_category `{NetlocChecks} `{Scraping} (url : string)
    (pages : list category_load) (ts : clock) (s : store) : option outcome :=
  parse_category_pages url url pages ts 0 s.

(** ** parse.py: worker *)

(** [SELECT category_url FROM product_discovery WHERE url=?] *)
Definition category_of (url : string) (s : store) : option string :=
  product_discovery s !! url ≫= pd_category_url.

(** [try: ... except Exception as e: db.mark_error(url, repr(e))] *)
Definition guarded (url : string) (now : Z) (r : outcome) : store :=
  match r.2 with
  | None => r.1
  | Some e => mark_error url e now r.1
  end.

(** What the browser returns to the handler that runs. *)
Record browser := Browser {
  as_catalog : links_load;
  as_category : list category_load;
  as_product : page_load
}.

(** How a turn of the loop of [worker] ends: the worker returns, sleeps and
    tries again, or has handled an item. *)
Inductive turn := Stop | Wait | Handled (url : string) (k : kind).

(** One turn of the loop of [worker], run with no other worker in between:
    [t_reserve] is the reading of the clock in [reserve_next], [t_error] the
    one in the [except] branch. [None] when the category handler has not
    ended on the pages given. *)
Definition worker_turn `{NetlocChecks} `{Scraping} (b : browser) (ts : clock)
    (t_reserve t_error : Z) (s : store) : option (turn * store) :=
  match reserve_next t_reserve s with
  | (None, s') =>
      Some (if decide (count_pending s' = 0%nat) then Stop else Wait, s')
  | (Some (url, k), s') =>
      let handled r := (Handled url k, guarded url t_error r) in
      match k with
      | Catalog => Some (handled (parse_catalog url (as_catalog b) ts s'))
      | Category => handled <$> parse_category url (as_category b) ts s'
      | Product =>
          Some (handled (parse_product url (category_of url s') (as_product b) ts s'))
      end
  end.

(** A scraping environment to evaluate examples: every link is absolute
    already, and no price or stock is recognised. *)
Definition plain_scraping : Scraping :=
  {| urljoin := λ _ href, href;
     value_error := λ _, "ValueError";
     parse_price_to_float := λ _, (None, None);
     stock_in_parens := λ _, None |}.

(** The same, with a stock of 12 read from every stock text. *)
Definition stock_scraping : Scraping :=
  {| urljoin := λ _ href, href;
     value_error := λ _, "ValueError";
     parse_price_to_float := λ _, (None, None);
     stock_in_parens := λ _, Some 12 |}.

(** A handler's loop only adds: it takes or releases no lock, and every
    item of the queue keeps its row. *)
Definition only_adds (s s' : store) : Prop :=
  locks s' = locks s ∧
  ∀ url r, queue s !! url = Some r → queue s' !! url = Some r.

(** What the loops of [parse_category] do for the category [url]: they
    only add; a discovery they add names [url] as its category; an item
    they add to the queue is a pending product that has a discovery. *)
Definition discovers (url : string) (s s' : store) : Prop :=
  only_adds s s' ∧
  products s' = products s ∧
  categories s' = categories s ∧
  (∀ u d, product_discovery s !! u = Some d → product_discovery s' !! u = Some d) ∧
  (∀ u d, product_discovery s' !! u = Some d → product_discovery s !! u = None →
     pd_category_url d = Some url) ∧
  (∀ u r, queue s' !! u = Some r → queue s !! u = None →
     (∃ t, r = new_queue_row Product t) ∧ is_Some (product_discovery s' !! u)).

(** The item of [url] has its outcome: no lock, and status done or error. *)
Definition settled (url : string) (s : store) : Prop :=
  locks s !! url = None ∧
  ∃ r, queue s !! url = Some r ∧ (q_status r = Done ∨ q_status r = Error).

(** How a handler ends for the item [url] it was given: by an exception
    after a loop that only adds, or by recording the outcome after one. *)
Definition ends_by (url : string) (s : store) (res : outcome) : Prop :=
  ∃ s1, only_adds s s1 ∧
    ((∃ e, res = (s1, Some e)) ∨
     (∃ t, res = (mark_done url t s1, None)) ∨
     (∃ e t, res = (mark_error url e t s1, None))).

(* ===================================================================== *)
(** * Part II. Properties *)
(* ===================================================================== *)

(** ** The SQL statements *)

Section statements.
Context {V : Type}.
Implicit Types (t : gmap string V) (k : string) (v : V).

Lemma insert_or_ignore_taken k v t x :
  t !! k = Some x → insert_or_ignore k v t = t.
Proof. intros Hk. unfold insert_or_ignore. by rewrite Hk. Qed.

Lemma insert_or_ignore_lookup k v t k' :
  insert_or_ignore k v t !! k' =
    match t !! k' with
    | Some x => Some x
    | None => if decide (k = k') then Some v else None
    end.
Proof.
  unfold insert_or_ignore. destruct (t !! k) as [x|] eqn:Hk.
  - destruct (t !! k') as [y|] eqn:Hk'; [done|].
    case_decide; [congruence | done].
  - destruct (decide (k = k')) as [<-|Hne].
    + by rewrite lookup_insert_eq, Hk.
    + rewrite lookup_insert_ne by done. by destruct (t !! k').
Qed.

Lemma insert_or_ignore_is_Some k v t : is_Some (insert_or_ignore k v t !! k).
Proof.
  rewrite insert_or_ignore_lookup. destruct (t !! k); [eauto|].
  rewrite decide_True by done. eauto.
Qed.

Lemma insert_or_ignore_keeps k v t k' x :
  t !! k' = Some x → insert_or_ignore k v t !! k' = Some x.
Proof. intros Hk. by rewrite insert_or_ignore_lookup, Hk. Qed.

Lemma insert_or_ignore_idemp k v v' t :
  insert_or_ignore k v' (insert_or_ignore k v t) = insert_or_ignore k v t.
Proof.
  destruct (insert_or_ignore_is_Some k v t) as [x Hx].
  by apply insert_or_ignore_taken with x.
Qed.

Lemma delete_urls_lookup urls t k :
  delete_urls urls t !! k = if decide (k ∈ urls) then None else t !! k.
Proof.
  unfold delete_urls. revert t.
  induction urls as [|u urls IH]; intros t; simpl; [done|].
  rewrite IH. destruct (decide (k = u)) as [->|Hne].
  - rewrite lookup_delete_eq. rewrite (decide_True (P := u ∈ u :: urls)) by (apply elem_of_cons; by left).
    by case_decide.
  - rewrite lookup_delete_ne by done.
    destruct (decide (k ∈ urls)).
    + rewrite decide_True by (apply elem_of_cons; by right). done.
    + rewrite decide_False by (intros [?|?]%elem_of_cons; done). done.
Qed.

Lemma update_where_lookup (cond : V → bool) (f : V → V) t k :
  update_where cond f t !! k = (λ r, if cond r then f r else r) <$> t !! k.
Proof. unfold update_where. by rewrite lookup_fmap. Qed.
End statements.

(** ** reserve_next: the selection *)

Lemma ts_leb_total a b : ts_leb a b = true ∨ ts_leb b a = true.
Proof. destruct a, b; simpl; auto. rewrite !Z.leb_le. lia. Qed.

Lemma ts_leb_trans a b c :
  ts_leb a b = true → ts_leb b c = true → ts_leb a c = true.
Proof. destruct a, b, c; simpl; try done. rewrite !Z.leb_le. lia. Qed.

(** [order_leb] is the lexicographic order on [(priority, updated_at)]. *)
Lemma order_leb_lex a b :
  order_leb a b = true ↔
    priority (q_kind a) < priority (q_kind b) ∨
    (priority (q_kind a) = priority (q_kind b) ∧
     ts_leb (q_updated_at a) (q_updated_at b) = true).
Proof.
  unfold order_leb.
  rewrite orb_true_iff, andb_true_iff, Z.ltb_lt, Z.eqb_eq. tauto.
Qed.

#[global] Instance queue_order_total : Total queue_order.
Proof.
  intros [u a] [v b]. unfold queue_order. simpl. rewrite !order_leb_lex.
  destruct (Z.lt_trichotomy (priority (q_kind a)) (priority (q_kind b)))
    as [?|[?|?]]; [by left; left | | by right; left].
  destruct (ts_leb_total (q_updated_at a) (q_updated_at b));
    [left | right]; right; by split.
Qed.

#[global] Instance queue_order_trans : Transitive queue_order.
Proof.
  intros [u a] [v b] [w c]. unfold queue_order. simpl. rewrite !order_leb_lex.
  intros [?|[? Hab]] [?|[? Hbc]]; try lia.
  right. split; [lia|]. by apply ts_leb_trans with (q_updated_at b).
Qed.

Lemma elem_of_candidates s url row :
  (url, row) ∈ candidates s ↔
    queue s !! url = Some row ∧ q_status row = Pending ∧ locks s !! url = None.
Proof.
  unfold candidates, reservable.
  rewrite list_elem_of_filter, elem_of_map_to_list. simpl. tauto.
Qed.

(** ORDER BY then LIMIT 1: the row returned is a candidate and no candidate
    sorts before it; nothing is returned only when there is no candidate. *)
Lemma select_next_Some s url row :
  select_next s = Some (url, row) →
  (url, row) ∈ candidates s ∧
  ∀ ur, ur ∈ candidates s → queue_order (url, row) ur.
Proof.
  unfold select_next. intros Hhd.
  pose proof (merge_sort_Permutation queue_order (candidates s)) as Hperm.
  pose proof (StronglySorted_merge_sort queue_order (candidates s)) as Hsorted.
  destruct (merge_sort queue_order (candidates s)) as [|x l] eqn:Hsort; [done|].
  simpl in Hhd. injection Hhd as ->.
  apply StronglySorted_cons in Hsorted as [Hall _].
  split.
  - rewrite <- Hperm. apply elem_of_cons. by left.
  - intros ur Hur. rewrite <- Hperm in Hur.
    apply elem_of_cons in Hur as [->|Hur].
    + destruct (total queue_order (url, row) (url, row)); done.
    + rewrite Forall_forall in Hall. by apply Hall.
Qed.

Lemma select_next_None s : select_next s = None → candidates s = [].
Proof.
  unfold select_next. intros Hhd.
  pose proof (merge_sort_Permutation queue_order (candidates s)) as Hperm.
  destruct (merge_sort queue_order (candidates s)); [|done].
  by apply Permutation_nil_l in Hperm.
Qed.

Lemma reserve_next_result now s :
  (reserve_next now s).1 = (λ ur, (ur.1, q_kind ur.2)) <$> select_next s.
Proof. unfold reserve_next. by destruct (select_next s) as [[u r]|]. Qed.

Lemma reserve_next_queue now s : queue (reserve_next now s).2 = queue s.
Proof. unfold reserve_next. by destruct (select_next s) as [[u r]|]. Qed.

Lemma reserve_next_products now s : products (reserve_next now s).2 = products s.
Proof. unfold reserve_next. by destruct (select_next s) as [[u r]|]. Qed.

Lemma reserve_next_locks_keep now s url x :
  locks s !! url = Some x → locks (reserve_next now s).2 !! url = Some x.
Proof.
  unfold reserve_next. destruct (select_next s) as [[u r]|]; simpl; [|done].
  apply insert_or_ignore_keeps.
Qed.

(** A URL that holds a lock is not handed out. *)
Lemma reserve_next_unlocked now s url k :
  (reserve_next now s).1 = Some (url, k) →
  ∃ row, queue s !! url = Some row ∧ q_kind row = k ∧
         q_status row = Pending ∧ locks s !! url = None.
Proof.
  rewrite reserve_next_result.
  destruct (select_next s) as [[u r]|] eqn:Hsel; [|done].
  simpl. intros [= <- <-].
  apply select_next_Some in Hsel as [Hin _].
  apply elem_of_candidates in Hin as (Hrow & Hst & Hlock).
  by exists r.
Qed.


(** ** The repair loop, one URL at a time *)

Lemma ensure_queue_pending_queue ts s u k :
  queue (ensure_queue_pending ts s u) !! k =
    if decide (k = u) then
      Some match queue s !! u with
           | Some r => if decide (q_status r ≠ Pending) then set_pending ts r else r
           | None => new_queue_row Product ts
           end
    else queue s !! k.
Proof.
  unfold ensure_queue_pending, update_url. simpl.
  rewrite insert_or_ignore_lookup. destruct (decide (k = u)) as [->|Hne].
  - rewrite lookup_alter_eq. destruct (queue s !! u); simpl; [done|].
    by rewrite decide_True.
  - rewrite lookup_alter_ne by done.
    destruct (queue s !! k); [done|]. by rewrite decide_False.
Qed.

Lemma ensure_queue_pending_locks ts s u k :
  locks (ensure_queue_pending ts s u) !! k =
    if decide (k = u) then None else locks s !! k.
Proof.
  unfold ensure_queue_pending. simpl. destruct (decide (k = u)) as [->|Hne].
  - apply lookup_delete_eq.
  - by apply lookup_delete_ne.
Qed.

Lemma ensure_queue_pending_products ts s u :
  products (ensure_queue_pending ts s u) = products s.
Proof. done. Qed.

Lemma ensure_for_products_other urls ts s k :
  k ∉ urls →
  queue (ensure_queue_pending_for_products urls ts s) !! k = queue s !! k ∧
  locks (ensure_queue_pending_for_products urls ts s) !! k = locks s !! k.
Proof.
  unfold ensure_queue_pending_for_products. revert s.
  induction urls as [|u urls IH]; intros s Hk; simpl; [done|].
  apply not_elem_of_cons in Hk as [Hne Hk].
  destruct (IH (ensure_queue_pending ts s u) Hk) as [-> ->].
  rewrite ensure_queue_pending_queue, ensure_queue_pending_locks.
  by rewrite !decide_False.
Qed.

Lemma ensure_for_products_products urls ts s :
  products (ensure_queue_pending_for_products urls ts s) = products s.
Proof.
  unfold ensure_queue_pending_for_products. revert s.
  induction urls as [|u urls IH]; intros s; simpl; [done|]. by rewrite IH.
Qed.

Lemma elem_of_error_urls s url :
  url ∈ error_urls s ↔ ∃ r, queue s !! url = Some r ∧ q_status r = Error.
Proof.
  unfold error_urls. rewrite list_elem_of_fmap. split.
  - intros ([u r] & -> & Hin).
    apply elem_of_map_to_list, map_lookup_filter_Some in Hin as [Hrow Hst].
    by exists r.
  - intros (r & Hrow & Hst). exists (url, r). split; [done|].
    by apply elem_of_map_to_list, map_lookup_filter_Some.
Qed.

Lemma run_cons o ops s : run (o :: ops) s = run ops (exec o s).
Proof. done. Qed.

Lemma run_app ops1 ops2 s : run (ops1 ++ ops2)%list s = run ops2 (run ops1 s).
Proof. unfold run. apply foldl_app. Qed.

(** The [UpsertProduct] case of a proof by cases on the operation: the call
    stores the row, or raises and leaves the store as it was. *)
Ltac upsert_cases :=
  try (unfold upsert_product in *;
       match goal with
       | |- context [binds ?d] => destruct (binds d)
       | H : context [binds ?d] |- _ => destruct (binds d)
       end; simpl in *).

(** ** C1: the claim made by reserve_next *)

(** [url] holds a lock and its item is pending: it has been handed to a
    worker that has not recorded an outcome yet. *)
Lemma exec_keeps_claim url o s :
  ¬ releases url o →
  is_Some (locks s !! url) ∧ (∃ r, queue s !! url = Some r ∧ q_status r = Pending) →
  is_Some (locks (exec o s) !! url) ∧
  (∃ r, queue (exec o s) !! url = Some r ∧ q_status r = Pending).
Proof.
  intros Hrel [[x Hlock] (r & Hrow & Hst)].
  destruct o; simpl in *; upsert_cases; try (split; eauto; fail).
  - split; [eauto|]. exists r. split; [|done]. by apply insert_or_ignore_keeps.
  - split; [eauto|]. exists r. split; [|done]. by apply insert_or_ignore_keeps.
  - unfold update_url. rewrite lookup_delete_ne, lookup_alter_ne by done. eauto.
  - unfold update_url. rewrite lookup_delete_ne, lookup_alter_ne by done. eauto.
  - rewrite reserve_next_queue. split; [|eauto].
    exists x. by apply reserve_next_locks_keep.
  - destruct (ensure_for_products_other urls ts s url Hrel) as [-> ->]. eauto.
  - rewrite update_where_lookup, delete_urls_lookup, Hrow. simpl.
    unfold is_error. rewrite bool_decide_eq_false_2 by (by rewrite Hst).
    rewrite decide_False; [eauto|].
    rewrite elem_of_error_urls. intros (r' & Hrow' & Hst'). congruence.
Qed.

Lemma run_keeps_claim url ops s :
  Forall (λ o, ¬ releases url o) ops →
  is_Some (locks s !! url) ∧ (∃ r, queue s !! url = Some r ∧ q_status r = Pending) →
  is_Some (locks (run ops s) !! url).
Proof.
  revert s. induction ops as [|o ops IH]; intros s Hops Hs.
  - apply Hs.
  - apply Forall_cons in Hops as [Ho Hops]. rewrite run_cons.
    apply IH; [done|]. by apply exec_keeps_claim.
Qed.

(** C1. [reserve_next] is one transition of the store that both selects an
    item without a lock and inserts its lock: whenever it returns
    [(url, kind)], no lock for [url] existed in the state it selected from
    and one exists in the state it leaves; and after any further operations
    none of which records an outcome for [url] or re-queues [url] in the
    repair, [reserve_next] does not return [url]. *)
Theorem reserve_next_exclusive (now : Z) (s s' : store) (url : string) (k : kind) :
  reserve_next now s = (Some (url, k), s') →
  locks s !! url = None ∧
  is_Some (locks s' !! url) ∧
  ∀ (ops : list op) (now' : Z) (k' : kind),
    Forall (λ o, ¬ releases url o) ops →
    (reserve_next now' (run ops s')).1 ≠ Some (url, k').
Proof.
  intros Hres.
  assert ((reserve_next now s).1 = Some (url, k)) as H1 by by rewrite Hres.
  destruct (reserve_next_unlocked _ _ _ _ H1) as (row & Hrow & _ & Hst & Hlock).
  assert (is_Some (locks s' !! url)) as Hlock'.
  { unfold reserve_next in Hres.
    destruct (select_next s) as [[u r]|]; [|done].
    injection Hres as -> _ <-. simpl. apply insert_or_ignore_is_Some. }
  assert (queue s' = queue s) as Hq.
  { replace s' with (reserve_next now s).2 by by rewrite Hres.
    apply reserve_next_queue. }
  repeat split; [done..|].
  intros ops now' k' Hops Hagain.
  apply reserve_next_unlocked in Hagain as (_ & _ & _ & _ & Hfree).
  assert (is_Some (locks (run ops s') !! url)) as [x Hx].
  { apply run_keeps_claim; [done|]. split; [done|].
    exists row. by rewrite Hq. }
  congruence.
Qed.

Lemma reserve_next_exclusive_witness :
  locks sample_queue !! "r" = None ∧
  is_Some (locks (reserve_next 9 sample_queue).2 !! "r") ∧
  ∀ (ops : list op) (now' : Z) (k' : kind),
    Forall (λ o, ¬ releases "r" o) ops →
    (reserve_next now' (run ops (reserve_next 9 sample_queue).2)).1
      ≠ Some ("r", k').
Proof.
  apply (reserve_next_exclusive 9 sample_queue _ "r" Catalog).
  vm_compute. reflexivity.
Defined.

(** ** C3: release of the lock *)

Lemma requeues_dec url o : Decision (requeues url o).
Proof. destruct o; simpl; apply _. Defined.

(** No operation deletes a row of the queue. *)
Lemma ensure_for_products_keeps_row urls ts s url :
  is_Some (queue s !! url) →
  is_Some (queue (ensure_queue_pending_for_products urls ts s) !! url).
Proof.
  unfold ensure_queue_pending_for_products. revert s.
  induction urls as [|u urls IH]; intros s Hrow; simpl; [done|].
  apply IH. rewrite ensure_queue_pending_queue. by case_decide.
Qed.

Lemma exec_keeps_row o s url :
  is_Some (queue s !! url) → is_Some (queue (exec o s) !! url).
Proof.
  intros [r Hrow]. destruct o; simpl; upsert_cases; try (eauto; fail).
  - exists r. by apply insert_or_ignore_keeps.
  - exists r. by apply insert_or_ignore_keeps.
  - unfold update_url. apply lookup_alter_is_Some. eauto.
  - unfold update_url. apply lookup_alter_is_Some. eauto.
  - rewrite reserve_next_queue. eauto.
  - apply ensure_for_products_keeps_row. eauto.
  - rewrite update_where_lookup, Hrow. simpl. eauto.
Qed.

(** Outside the repair no operation makes an item pending again. *)
Lemma exec_keeps_not_pending url o s :
  ¬ requeues url o →
  (∃ r, queue s !! url = Some r ∧ q_status r ≠ Pending) →
  ∃ r, queue (exec o s) !! url = Some r ∧ q_status r ≠ Pending.
Proof.
  intros Hrep (r & Hrow & Hst).
  destruct o; simpl in *; upsert_cases; try (eauto; fail).
  - exists r. split; [|done]. by apply insert_or_ignore_keeps.
  - exists r. split; [|done]. by apply insert_or_ignore_keeps.
  - unfold update_url. destruct (decide (url0 = url)) as [->|Hne].
    + rewrite lookup_alter_eq, Hrow. simpl. eauto.
    + rewrite lookup_alter_ne by done. eauto.
  - unfold update_url. destruct (decide (url0 = url)) as [->|Hne].
    + rewrite lookup_alter_eq, Hrow. simpl. eauto.
    + rewrite lookup_alter_ne by done. eauto.
  - rewrite reserve_next_queue. eauto.
  - destruct (ensure_for_products_other urls ts s url Hrep) as [-> _]. eauto.
  - by destruct Hrep.
Qed.

Lemma status_of_Some url s st :
  status_of url s = Some st ↔ ∃ r, queue s !! url = Some r ∧ q_status r = st.
Proof.
  unfold status_of. destruct (queue s !! url) as [r|]; simpl.
  - split; [intros [= <-]; eauto | intros (r' & [= <-] & <-); done].
  - split; [done | intros (r' & ? & _); done].
Qed.

(** An item that is not pending and is later handed out was made pending
    by a repair operation in between. *)
Lemma reserved_after_requeue url ops s now k :
  (∃ r, queue s !! url = Some r ∧ q_status r ≠ Pending) →
  (reserve_next now (run ops s)).1 = Some (url, k) →
  ∃ ops1 o ops2, ops = (ops1 ++ o :: ops2)%list ∧ requeues url o ∧
    status_of url (exec o (run ops1 s)) = Some Pending.
Proof.
  revert s. induction ops as [|o ops IH]; intros s Hs Hres.
  - apply reserve_next_unlocked in Hres as (row & Hrow & _ & Hst & _).
    destruct Hs as (r & Hr & Hnp). simpl in Hrow. congruence.
  - rewrite run_cons in Hres.
    assert (is_Some (queue (exec o s) !! url)) as [r' Hr'].
    { destruct Hs as (r & Hr & _). apply exec_keeps_row. eauto. }
    destruct (decide (q_status r' = Pending)) as [Hp|Hp].
    + exists [], o, ops. repeat split; [|by apply status_of_Some; eauto].
      destruct (requeues_dec url o) as [|Hno]; [done|].
      destruct (exec_keeps_not_pending url o s Hno Hs) as (r & Hr & Hnp).
      congruence.
    + destruct (IH (exec o s)) as (ops1 & o' & ops2 & -> & Hreq & Hst);
        [eauto | done |].
      exists (o :: ops1), o', ops2. by repeat split.
Qed.

(** C3. After [mark_done url] or [mark_error url], [url] has no lock,
    whether it had one or not; and for the item of [url], whose outcome
    was recorded, a later [reserve_next] returns [url] only if one of the
    operations in between is a repair operation that left the item
    pending. *)
Theorem lock_release (s : store) (url err : string) (now : Z) :
  locks (mark_done url now s) !! url = None ∧
  locks (mark_error url err now s) !! url = None ∧
  (is_Some (queue s !! url) →
   ∀ (s1 : store) (ops : list op) (now' : Z) (k : kind),
     s1 = mark_done url now s ∨ s1 = mark_error url err now s →
     (reserve_next now' (run ops s1)).1 = Some (url, k) →
     ∃ ops1 o ops2, ops = (ops1 ++ o :: ops2)%list ∧ requeues url o ∧
       status_of url (exec o (run ops1 s1)) = Some Pending).
Proof.
  split; [apply lookup_delete_eq|]. split; [apply lookup_delete_eq|].
  intros [r Hrow] s1 ops now' k Hs1.
  apply reserved_after_requeue.
  destruct Hs1 as [-> | ->]; simpl; unfold update_url;
    rewrite lookup_alter_eq, Hrow; simpl; eauto.
Qed.

Lemma lock_release_witness :
  ∃ ops1 o ops2,
    [MarkDone "c" 7; MarkDone "r" 7; RequeueAllErrors 8]
      = (ops1 ++ o :: ops2)%list ∧
    requeues "p" o ∧
    status_of "p" (exec o (run ops1 (mark_error "p" "boom" 6 sample_queue)))
      = Some Pending.
Proof.
  destruct (lock_release sample_queue "p" "boom" 6) as (_ & _ & H).
  apply (H ltac:(vm_compute; eauto) _ _ 9 Product); [by right|].
  vm_compute. reflexivity.
Defined.

(** ** C4: upsert_queue *)

Lemma rows_for_lookup url s :
  rows_for url s =
    match queue s !! url with
    | Some r => [(url, r)]
    | None => []
    end.
Proof.
  unfold rows_for.
  assert (∀ kv, kv ∈ filter (λ kv, kv.1 = url) (map_to_list (queue s)) ↔
                kv.1 = url ∧ queue s !! kv.1 = Some kv.2) as Hin.
  { intros [u r]. rewrite list_elem_of_filter, elem_of_map_to_list. done. }
  assert (NoDup (filter (λ kv, kv.1 = url) (map_to_list (queue s)))) as Hnd.
  { apply NoDup_filter, NoDup_map_to_list. }
  destruct (queue s !! url) as [r|] eqn:Hrow.
  - symmetry. apply Permutation_singleton_l. apply NoDup_Permutation.
    + apply NoDup_singleton.
    + done.
    + intros [u r']. rewrite Hin, list_elem_of_singleton. simpl. split.
      * intros [= -> ->]. done.
      * intros [-> Hr']. congruence.
  - destruct (filter _ _) as [|[u r] l]; [done|].
    destruct (Hin (u, r)) as [Hu _]. simpl in Hu.
    destruct Hu as [-> Hu]; [apply elem_of_cons; by left|]. congruence.
Qed.

(** C4. [upsert_queue] is a no-op on a URL already in the queue: the store,
    and so the kind, status, tries, last_error and updated_at of the item,
    are unchanged; a second call for the same URL changes nothing whatever
    its arguments; and after any number of calls for the URL the queue holds
    exactly one row for it, the one that was there or else the one the first
    call inserted. *)
Theorem upsert_queue_idempotent (s : store) (url : string) (k : kind) (now : Z) :
  (∀ row, queue s !! url = Some row →
     upsert_queue url k now s = s ∧
     queue (upsert_queue url k now s) !! url = Some row) ∧
  (∀ k' now',
     upsert_queue url k' now' (upsert_queue url k now s) = upsert_queue url k now s) ∧
  (∀ calls : list (kind * Z),
     let s' := foldl (λ s c, upsert_queue url c.1 c.2 s) (upsert_queue url k now s) calls in
     s' = upsert_queue url k now s ∧
     rows_for url s' =
       [(url, default (new_queue_row k now) (queue s !! url))]).
Proof.
  assert (∀ k' now', upsert_queue url k' now' (upsert_queue url k now s)
                     = upsert_queue url k now s) as Hidem.
  { intros k' now'. unfold upsert_queue, with_queue. simpl.
    by rewrite insert_or_ignore_idemp. }
  split; [|split].
  - intros row Hrow. unfold upsert_queue, with_queue.
    rewrite (insert_or_ignore_taken _ _ _ _ Hrow). by destruct s.
  - done.
  - intros calls. simpl.
    assert (foldl (λ s c, upsert_queue url c.1 c.2 s) (upsert_queue url k now s) calls
            = upsert_queue url k now s) as ->.
    { induction calls as [|c calls IH]; simpl; [done|]. by rewrite Hidem. }
    split; [done|]. rewrite rows_for_lookup. simpl.
    rewrite insert_or_ignore_lookup. destruct (queue s !! url); simpl; [done|].
    by rewrite decide_True.
Qed.

Lemma upsert_queue_idempotent_witness :
  upsert_queue "p" Category 8 sample_queue = sample_queue ∧
  queue (upsert_queue "p" Category 8 sample_queue) !! "p"
    = Some (QueueRow Product Pending 0 None (Some 1)).
Proof.
  apply (upsert_queue_idempotent sample_queue "p" Category 8).
  vm_compute. reflexivity.
Defined.

(** ** C5: the status transitions *)

Lemma ensure_for_products_row urls ts s url r :
  queue s !! url = Some r →
  ∃ r', queue (ensure_queue_pending_for_products urls ts s) !! url = Some r' ∧
        q_kind r' = q_kind r ∧
        (r' = r ∨
         (url ∈ urls ∧ q_status r ≠ Pending ∧ r' = set_pending ts r)).
Proof.
  unfold ensure_queue_pending_for_products. revert s r.
  induction urls as [|u urls IH]; intros s r Hrow; simpl.
  - exists r. auto.
  - destruct (decide (url = u)) as [->|Hne].
    + destruct (decide (q_status r ≠ Pending)) as [Hnp|Hp].
      * destruct (IH (ensure_queue_pending ts s u) (set_pending ts r))
          as (r' & Hr' & Hk & Hcase).
        { rewrite ensure_queue_pending_queue, decide_True, Hrow by done.
          by rewrite decide_True. }
        exists r'. split; [done|]. split; [done|]. right.
        split; [apply elem_of_cons; by left|]. split; [done|].
        destruct Hcase as [->|(_ & Hcontra & _)];
             [by repeat split | by destruct Hcontra].
      * destruct (IH (ensure_queue_pending ts s u) r) as (r' & Hr' & Hk & Hcase).
        { rewrite ensure_queue_pending_queue, decide_True, Hrow by done.
          by rewrite decide_False. }
        exists r'. split; [done|]. split; [done|].
        destruct Hcase as [->|(_ & Hcontra & _)]; [by left | done].
    + destruct (IH (ensure_queue_pending ts s u) r) as (r' & Hr' & Hk & Hcase).
      { by rewrite ensure_queue_pending_queue, decide_False. }
      exists r'. split; [done|]. split; [done|].
      destruct Hcase as [->|(Hin & Hnp & ->)]; [by left|].
      right. split; [apply elem_of_cons; by right | done].
Qed.

(** C5, amended. No operation deletes an item of the queue or changes its
    kind. [mark_done] and [mark_error] set the status to done and to error
    whatever it was before: their UPDATE does not test the status. When
    outcomes are recorded for pending items only, as the worker does for the
    item it has reserved, a status moves only from pending to done, from
    pending to error, from error to pending by a repair operation, and from
    done to pending by the re-queueing that follows the deletion of
    results. *)
Theorem status_transitions (o : op) (s : store) (url : string) (r : queue_row) :
  queue s !! url = Some r →
  ∃ r', queue (exec o s) !! url = Some r' ∧
    q_kind r' = q_kind r ∧
    (records_outcome url o →
     q_status r' = match o with MarkDone _ _ => Done | _ => Error end) ∧
    ((records_outcome url o → q_status r = Pending) →
     transition o (q_status r) (q_status r')).
Proof.
  intros Hrow.
  assert (∀ o, ¬ records_outcome url o →
            transition o (q_status r) (q_status r)) as Hnone
    by (intros; apply transition_none).
  destruct o; simpl.
  - exists r. split; [by apply insert_or_ignore_keeps|].
    repeat split; [done|]. intros _. apply transition_none.
  - exists r. split; [by apply insert_or_ignore_keeps|].
    repeat split; [done|]. intros _. apply transition_none.
  - unfold update_url. destruct (decide (url0 = url)) as [->|Hne].
    + exists (set_done now r). rewrite lookup_alter_eq, Hrow.
      repeat split. intros Hp. rewrite Hp by done. apply transition_done.
    + exists r. rewrite lookup_alter_ne by done.
      repeat split; [done..|]. intros _. apply transition_none.
  - unfold update_url. destruct (decide (url0 = url)) as [->|Hne].
    + exists (set_error (str_prefix 1000 err) now r).
      rewrite lookup_alter_eq, Hrow.
      repeat split. intros Hp. rewrite Hp by done. apply transition_error.
    + exists r. rewrite lookup_alter_ne by done.
      repeat split; [done..|]. intros _. apply transition_none.
  - exists r. rewrite reserve_next_queue.
    repeat split; [done..|]. intros _. apply transition_none.
  - exists r. repeat split; [done..|]. intros _. apply transition_none.
  - exists r. repeat split; [done..|]. intros _. apply transition_none.
  - exists r. unfold upsert_product. destruct (binds d); cbn [default queue with_products].
    + repeat split; [done..|]. intros _. apply transition_none.
    + repeat split; [done..|]. intros _. apply transition_none.
  - exists r. repeat split; [done..|]. intros _. apply transition_none.
  - destruct (ensure_for_products_row urls ts s url r Hrow)
      as (r' & Hr' & Hk & Hcase).
    exists r'. repeat split; [done..|]. intros _.
    destruct Hcase as [->|(Hin & Hnp & ->)]; [apply transition_none|].
    simpl. destruct (q_status r) eqn:Hst; [done | |].
    + by eapply transition_redo.
    + by apply transition_retry with url.
  - rewrite update_where_lookup, Hrow. simpl. unfold is_error.
    case_bool_decide as Hst.
    + exists (set_pending ts r). repeat split; [done|]. intros _.
      rewrite Hst. simpl. by apply transition_retry with url.
    + exists r. repeat split; [done|]. intros _. apply transition_none.
Qed.

Lemma status_transitions_witness :
  ∃ r', queue (exec (MarkError "p" "boom" 6) sample_queue) !! "p" = Some r' ∧
    q_kind r' = Product ∧
    (records_outcome "p" (MarkError "p" "boom" 6) → q_status r' = Error) ∧
    ((records_outcome "p" (MarkError "p" "boom" 6) → Pending = Pending) →
     transition (MarkError "p" "boom" 6) Pending (q_status r')).
Proof.
  apply (status_transitions (MarkError "p" "boom" 6) sample_queue "p"
           (QueueRow Product Pending 0 None (Some 1))).
  vm_compute. reflexivity.
Defined.

(** C5 as stated fails: [mark_error] on an item that is done makes it an
    error item, a change from done that is not the repair's. *)
Lemma done_item_marked_error :
  ¬ (∀ (o : op) (s : store) (url : string) (r r' : queue_row),
       queue s !! url = Some r →
       queue (exec o s) !! url = Some r' →
       transition o (q_status r) (q_status r')).
Proof.
  intros H.
  specialize (H (MarkError "r" "late" 7) (mark_done "r" 6 sample_queue) "r"
                (QueueRow Catalog Done 0 None (Some 6))
                (QueueRow Catalog Error 1 (Some "late") (Some 7))).
  assert (transition (MarkError "r" "late" 7) Done Error) as Ht.
  { apply H; vm_compute; reflexivity. }
  inversion Ht.
Qed.

(** ** C7: the error amnesty *)

(** C7. After [requeue_all_errors], every item that was in status error is
    pending with tries 0, no last_error and the pass's timestamp, and has no
    lock, whatever its last_error was; every other item, and its lock if
    any, is as before; the count returned is the number of error items. *)
Theorem requeue_all_errors_amnesty (ts : Z) (s : store) (url : string) (r : queue_row) :
  queue s !! url = Some r →
  (q_status r = Error →
   queue (requeue_all_errors ts s).2 !! url
     = Some (QueueRow (q_kind r) Pending 0 None (Some ts)) ∧
   locks (requeue_all_errors ts s).2 !! url = None) ∧
  (q_status r ≠ Error →
   queue (requeue_all_errors ts s).2 !! url = Some r ∧
   locks (requeue_all_errors ts s).2 !! url = locks s !! url) ∧
  (requeue_all_errors ts s).1
    = size (filter (λ kv, q_status kv.2 = Error) (queue s)).
Proof.
  intros Hrow. unfold requeue_all_errors. simpl.
  rewrite update_where_lookup, delete_urls_lookup, Hrow. simpl.
  unfold is_error. split; [|split].
  - intros Hst. rewrite bool_decide_eq_true_2 by done.
    rewrite decide_True by (apply elem_of_error_urls; eauto). done.
  - intros Hst. rewrite bool_decide_eq_false_2 by done.
    rewrite decide_False; [done|].
    rewrite elem_of_error_urls. intros (r' & Hr' & Hst'). congruence.
  - unfold error_urls. rewrite length_fmap. apply length_map_to_list.
Qed.

Lemma requeue_all_errors_amnesty_witness :
  queue (requeue_all_errors 9 (mark_error "p" "boom" 6 sample_queue)).2 !! "p"
    = Some (QueueRow Product Pending 0 None (Some 9)) ∧
  locks (requeue_all_errors 9 (mark_error "p" "boom" 6 sample_queue)).2 !! "p"
    = None.
Proof.
  apply (requeue_all_errors_amnesty 9 (mark_error "p" "boom" 6 sample_queue) "p"
           (QueueRow Product Error 1 (Some "boom") (Some 6)));
    vm_compute; reflexivity.
Defined.

(** ** C8: mark_error *)

Lemma str_prefix_length n s : (String.length (str_prefix n s) ≤ n)%nat.
Proof.
  revert s. induction n as [|n IH]; intros [|c s]; simpl; try lia.
  specialize (IH s). lia.
Qed.

Lemma str_prefix_is_prefix n s : ∃ rest, s = (str_prefix n s ++ rest)%string.
Proof.
  revert s. induction n as [|n IH]; intros [|c s]; simpl; eauto.
  destruct (IH s) as [rest Hrest]. exists rest.
  change (String c s = String c (str_prefix n s ++ rest)%string). by f_equal.
Qed.

Lemma str_prefix_short n s : (String.length s ≤ n)%nat → str_prefix n s = s.
Proof.
  revert s. induction n as [|n IH]; intros [|c s]; simpl; try done; try lia.
  intros Hlen. rewrite IH; [done | lia].
Qed.

Lemma str_prefix_length_min n s :
  String.length (str_prefix n s) = Nat.min n (String.length s).
Proof.
  revert s. induction n as [|n IH]; intros [|c s]; simpl; try done.
  by rewrite IH.
Qed.

(** C8. [mark_error url err] sets the status of the item to error, adds
    exactly one to tries, sets updated_at to the time of the call, keeps the
    kind, and leaves no lock for [url]. The last_error it stores is the
    message cut after its first 1000 characters: [err] is the stored text
    followed by the rest, and the stored text has 1000 characters when the
    message has more, and all of them when it has not. So the stored text is
    never longer than 1000 characters, whatever the message is. *)
Theorem mark_error_bounded (s : store) (url err : string) (now : Z) (r : queue_row) :
  queue s !! url = Some r →
  ∃ stored rest,
    queue (mark_error url err now s) !! url
      = Some (QueueRow (q_kind r) Error (q_tries r + 1) (Some stored) (Some now)) ∧
    locks (mark_error url err now s) !! url = None ∧
    err = (stored ++ rest)%string ∧
    String.length stored = Nat.min 1000 (String.length err) ∧
    (String.length stored ≤ 1000)%nat.
Proof.
  intros Hrow. unfold mark_error, update_url, with_locks, with_queue.
  cbn [queue locks]. rewrite lookup_alter_eq, Hrow, lookup_delete_eq.
  pose proof (str_prefix_length_min 1000 err) as Hmin.
  pose proof (str_prefix_length 1000 err) as Hlen.
  destruct (str_prefix_is_prefix 1000 err) as [rest Hrest].
  generalize dependent (str_prefix 1000 err). intros stored Hmin Hlen Hrest.
  by exists stored, rest.
Qed.

Lemma mark_error_bounded_witness :
  ∃ stored rest,
    queue (mark_error "p" long_message 6 sample_queue) !! "p"
      = Some (QueueRow Product Error (0 + 1) (Some stored) (Some 6)) ∧
    long_message = (stored ++ rest)%string ∧
    String.length stored = 1000%nat.
Proof.
  destruct (mark_error_bounded sample_queue "p" long_message 6
              (QueueRow Product Pending 0 None (Some 1)))
    as (stored & rest & Hrow & _ & Hrest & Hlen & _);
    [vm_compute; reflexivity|].
  exists stored, rest. split; [exact Hrow|]. split; [exact Hrest|].
  rewrite Hlen. vm_compute. reflexivity.
Defined.

(** ** C9: upsert_product *)

Lemma sqlite_int_spec z : sqlite_int z = true ↔ - 2 ^ 63 ≤ z < 2 ^ 63.
Proof. unfold sqlite_int. rewrite andb_true_iff, Z.leb_le, Z.ltb_lt. done. Qed.

Lemma binds_spec d :
  binds d = true ↔ ∀ z, d_stock d = Some z → - 2 ^ 63 ≤ z < 2 ^ 63.
Proof.
  unfold binds. destruct (d_stock d) as [z|].
  - rewrite sqlite_int_spec. split.
    + by intros Hz z' [= <-].
    + intros Hz. by apply Hz.
  - split; [by intros _ z [=] | done].
Qed.

(** The [OverflowError]: nothing is returned and, for the callers, the
    store stays as it was. *)
Lemma upsert_product_raises d now1 now2 s z :
  d_stock d = Some z → ¬ (- 2 ^ 63 ≤ z < 2 ^ 63) →
  upsert_product d now1 now2 s = None.
Proof.
  intros Hz Hout. unfold upsert_product.
  destruct (binds d) eqn:Hb; [|done].
  destruct Hout. by apply (proj1 (binds_spec d) Hb).
Qed.

Lemma upsert_product_Some d now1 now2 s s' :
  upsert_product d now1 now2 s = Some s' →
  queue s' = queue s ∧ locks s' = locks s ∧ categories s' = categories s ∧
  product_discovery s' = product_discovery s ∧
  products s' !! d_url d =
    Some match products s !! d_url d with
         | Some old => product_on_conflict old (product_values d now1 now2)
         | None => product_values d now1 now2
         end ∧
  ∀ url, url ≠ d_url d → products s' !! url = products s !! url.
Proof.
  unfold upsert_product. destruct (binds d); [|done]. intros [= <-].
  unfold with_products, insert_on_conflict.
  cbn [queue locks categories product_discovery products].
  do 4 (split; [done|]). split.
  - destruct (products s !! d_url d); apply lookup_insert_eq.
  - intros url Hne. destruct (products s !! d_url d); by rewrite lookup_insert_ne.
Qed.

Lemma upsert_product_binds d now1 now2 s :
  binds d = true → is_Some (upsert_product d now1 now2 s).
Proof. intros Hb. unfold upsert_product. rewrite Hb. by eexists. Qed.

(** C9, amended. For data whose [stock], when there is one, fits in 64
    bits, [upsert_product] stores a row for the URL with every column of
    the call: the title, price, currency, part number, brand, stock, the
    three identifiers, the category, the two JSON texts, and as scraped_at
    the value of the call (the clock when the call gives none). The
    discovered_at is that of the row already stored when there is one, and
    that of the call (or the clock) when the URL is new. Rows of other URLs
    are untouched. So a second call for the URL leaves the second call's
    columns and scraped_at with the discovered_at the first call left. For
    a [stock] outside 64 bits the call raises and stores nothing. *)
Theorem upsert_product_merge (d : product_data) (now1 now2 : Z) (s : store) :
  ((∀ z, d_stock d = Some z → - 2 ^ 63 ≤ z < 2 ^ 63) →
   ∃ s' r,
     upsert_product d now1 now2 s = Some s' ∧
     products s' !! d_url d = Some r ∧
     (p_title r = d_title d ∧ p_price r = d_price d ∧
      p_currency r = d_currency d ∧ p_part_number r = d_part_number d ∧
      p_brand r = d_brand d ∧ p_stock r = d_stock d ∧
      p_prod_id r = d_prod_id d ∧ p_app_id r = d_app_id d ∧
      p_alt_sku r = d_alt_sku d ∧ p_category_url r = d_category_url d ∧
      p_attrs_json r = Some (json_dumps_attrs (default [] (d_attrs d))) ∧
      p_fitment_json r = Some (json_dumps_fitment (default [] (d_fitment d)))) ∧
     p_scraped_at r =
       Some match d_scraped_at d with
            | Some t => if decide (t = 0) then now2 else t
            | None => now2
            end ∧
     p_discovered_at r =
       match products s !! d_url d with
       | Some old => p_discovered_at old
       | None =>
           Some match d_discovered_at d with
                | Some t => if decide (t = 0) then now1 else t
                | None => now1
                end
       end ∧
     (∀ url, url ≠ d_url d → products s' !! url = products s !! url) ∧
     (∀ d2 t1 t2, d_url d2 = d_url d →
        (∀ z, d_stock d2 = Some z → - 2 ^ 63 ≤ z < 2 ^ 63) →
        ∃ s'' r2,
          upsert_product d2 t1 t2 s' = Some s'' ∧
          products s'' !! d_url d = Some r2 ∧
          p_discovered_at r2 = p_discovered_at r ∧
          p_scraped_at r2 =
            Some match d_scraped_at d2 with
                 | Some t => if decide (t = 0) then t2 else t
                 | None => t2
                 end ∧
          p_title r2 = d_title d2 ∧ p_price r2 = d_price d2 ∧
          p_currency r2 = d_currency d2 ∧ p_part_number r2 = d_part_number d2 ∧
          p_brand r2 = d_brand d2 ∧ p_stock r2 = d_stock d2 ∧
          p_prod_id r2 = d_prod_id d2 ∧ p_app_id r2 = d_app_id d2 ∧
          p_alt_sku r2 = d_alt_sku d2 ∧ p_category_url r2 = d_category_url d2 ∧
          p_attrs_json r2 = Some (json_dumps_attrs (default [] (d_attrs d2))) ∧
          p_fitment_json r2 =
            Some (json_dumps_fitment (default [] (d_fitment d2))))) ∧
  (∀ z, d_stock d = Some z → ¬ (- 2 ^ 63 ≤ z < 2 ^ 63) →
     upsert_product d now1 now2 s = None).
Proof.
  split; [|apply upsert_product_raises].
  intros Hfit.
  assert (∀ x now, or_ts x now =
            match x with
            | Some t => if decide (t = 0) then now else t
            | None => now
            end) as Hts.
  { intros [t|] now; [|done]. unfold or_ts.
    destruct (Z.eqb_spec t 0); by case_decide. }
  destruct (upsert_product_binds d now1 now2 s (proj2 (binds_spec d) Hfit))
    as [s' Hs'].
  destruct (upsert_product_Some d now1 now2 s s' Hs')
    as (_ & _ & _ & _ & Hrow & Hother).
  eexists s', _. split; [done|]. split; [exact Hrow|].
  split; [by destruct (products s !! d_url d)|].
  split; [destruct (products s !! d_url d); cbn; by rewrite Hts|].
  split; [destruct (products s !! d_url d); cbn; by rewrite ?Hts|].
  split; [done|].
  intros d2 t1 t2 Hurl Hfit2.
  destruct (upsert_product_binds d2 t1 t2 s' (proj2 (binds_spec d2) Hfit2))
    as [s'' Hs''].
  destruct (upsert_product_Some d2 t1 t2 s' s'' Hs'') as (_ & _ & _ & _ & Hrow2 & _).
  rewrite Hurl, Hrow in Hrow2.
  eexists s'', _. split; [done|]. split; [exact Hrow2|].
  cbn. rewrite Hts. by repeat split.
Qed.

Lemma upsert_product_merge_witness :
  ∃ s1 s2 r,
    upsert_product first_scrape 11 12 empty_store = Some s1 ∧
    upsert_product second_scrape 21 22 s1 = Some s2 ∧
    products s2 !! "p" = Some r ∧
    p_title r = Some "Brake pad set" ∧
    p_discovered_at r = Some 11 ∧ p_scraped_at r = Some 20.
Proof.
  destruct (upsert_product_merge first_scrape 11 12 empty_store) as [Hfit _].
  destruct Hfit as (s1 & r1 & Hs1 & Hr1 & _ & _ & Hd1 & _ & Htwice).
  { intros z [= <-]. lia. }
  destruct (Htwice second_scrape 21 22 eq_refl)
    as (s2 & r2 & Hs2 & Hr2 & Hd2 & Hsc & Ht & _).
  { intros z [=]. }
  exists s1, s2, r2. split; [exact Hs1|]. split; [exact Hs2|].
  split; [exact Hr2|]. split; [exact Ht|]. split; [|exact Hsc].
  rewrite Hd2. exact Hd1.
Defined.

(** The two sample scrapes: the second call's values, the first call's
    discovered_at. *)
Example upsert_product_twice :
  (λ s, products s !! "p") <$>
    (upsert_product first_scrape 11 12 empty_store ≫=
     upsert_product second_scrape 21 22)
  = Some (Some (ProductRow (Some "Brake pad set") None (Some "EUR") None
                  (Some "Acme Ltd") None None None (Some "alt") (Some "c")
                  (Some "{}")
                  (Some (json_dumps_fitment [FitmentRow (Some "Car") None None]))
                  (Some 11) (Some 20))).
Proof. vm_compute. reflexivity. Qed.

(** C9 as stated fails on a stock of 2^63, which the stock text of a page
    can give: the call raises, and no row is inserted. *)
Lemma upsert_product_large_stock :
  ¬ ∃ s', upsert_product large_stock 11 12 empty_store = Some s' ∧
          is_Some (products s' !! "p").
Proof. intros (s' & Hs' & _). vm_compute in Hs'. discriminate. Qed.

(** ** C6: the corrupt-result pass *)

Lemma ensure_queue_pending_fresh ts s u :
  pending_fresh s → pending_fresh (ensure_queue_pending ts s u).
Proof.
  intros Hs url r. rewrite ensure_queue_pending_queue.
  case_decide as Hu; [|apply Hs]. subst url.
  destruct (queue s !! u) as [r0|] eqn:Hr0.
  - case_decide as Hst.
    + by intros [= <-].
    + intros [= <-]. by apply Hs with u.
  - by intros [= <-].
Qed.

(** Every operation keeps pending items free of failures. *)
Lemma exec_pending_fresh o s : pending_fresh s → pending_fresh (exec o s).
Proof.
  intros Hs. destruct o; simpl; upsert_cases; try done.
  - intros url' r. unfold seed_catalog. simpl. rewrite insert_or_ignore_lookup.
    destruct (queue s !! url') eqn:Hrow.
    + intros [= <-]. by apply Hs with url'.
    + case_decide; [by intros [= <-] | done].
  - intros url' r. unfold upsert_queue. simpl. rewrite insert_or_ignore_lookup.
    destruct (queue s !! url') eqn:Hrow.
    + intros [= <-]. by apply Hs with url'.
    + case_decide; [by intros [= <-] | done].
  - intros url' r. unfold mark_done, update_url. simpl.
    destruct (decide (url = url')) as [->|Hne].
    + rewrite lookup_alter_eq. destruct (queue s !! url'); [|done].
      by intros [= <-].
    + rewrite lookup_alter_ne by done. apply Hs.
  - intros url' r. unfold mark_error, update_url, with_locks, with_queue.
    cbn [queue]. destruct (decide (url = url')) as [->|Hne].
    + rewrite lookup_alter_eq. destruct (queue s !! url'); [|done].
      by intros [= <-].
    + rewrite lookup_alter_ne by done. apply Hs.
  - intros url' r. rewrite reserve_next_queue. apply Hs.
  - unfold ensure_queue_pending_for_products. revert s Hs.
    induction urls as [|u urls IH]; intros s Hs; simpl; [done|].
    by apply IH, ensure_queue_pending_fresh.
  - intros url' r. unfold with_locks, with_queue. cbn [queue].
    rewrite update_where_lookup.
    destruct (queue s !! url') as [r0|] eqn:Hr0; [|done]. simpl.
    destruct (is_error r0).
    + by intros [= <-].
    + intros [= <-]. by apply Hs with url'.
Qed.

Lemma reachable_pending_fresh s : reachable s → pending_fresh s.
Proof.
  intros [ops ->]. induction ops as [|o ops IH] using rev_ind.
  - intros url r Hrow. done.
  - rewrite run_app. simpl. by apply exec_pending_fresh.
Qed.

Lemma elem_of_find_empty_products s url :
  url ∈ find_empty_products s ↔
    ∃ p, products s !! url = Some p ∧ is_empty_product p = true.
Proof.
  unfold find_empty_products. rewrite list_elem_of_fmap. split.
  - intros ([u p] & -> & Hin).
    apply elem_of_map_to_list, map_lookup_filter_Some in Hin as [Hrow Hp].
    by exists p.
  - intros (p & Hrow & Hp). exists (url, p). split; [done|].
    by apply elem_of_map_to_list, map_lookup_filter_Some.
Qed.

Lemma ensure_for_products_locks urls ts s k :
  locks (ensure_queue_pending_for_products urls ts s) !! k =
    if decide (k ∈ urls) then None else locks s !! k.
Proof.
  unfold ensure_queue_pending_for_products. revert s.
  induction urls as [|u urls IH]; intros s; simpl; [done|].
  rewrite IH, ensure_queue_pending_locks.
  destruct (decide (k ∈ urls)) as [Hin|Hnin].
  - rewrite decide_True by (apply elem_of_cons; by right). done.
  - destruct (decide (k = u)) as [->|Hne].
    + rewrite decide_True by (apply elem_of_cons; by left). done.
    + rewrite decide_False by (intros [?|?]%elem_of_cons; done). done.
Qed.

(** The loop leaves every URL it is given pending, with tries 0 and no
    last_error, when the pending items it meets carry no failure. *)
Lemma ensure_for_products_requeued urls ts s url :
  url ∈ urls →
  (∀ r, queue s !! url = Some r → q_status r = Pending →
        q_tries r = 0 ∧ q_last_error r = None) →
  ∃ r, queue (ensure_queue_pending_for_products urls ts s) !! url = Some r ∧
    q_status r = Pending ∧ q_tries r = 0 ∧ q_last_error r = None ∧
    q_kind r = match queue s !! url with
               | Some r0 => q_kind r0
               | None => Product
               end.
Proof.
  revert s. induction urls as [|u urls IH]; intros s Hin Hfresh.
  - by apply elem_of_nil in Hin.
  - change (ensure_queue_pending_for_products (u :: urls) ts s)
      with (ensure_queue_pending_for_products urls ts (ensure_queue_pending ts s u)).
    destruct (decide (url = u)) as [->|Hne].
    + pose proof (ensure_queue_pending_queue ts s u u) as Hstep.
      rewrite decide_True in Hstep by done.
      destruct (ensure_for_products_row urls ts _ u _ Hstep)
        as (r' & Hr' & _ & Hcase).
      exists r'. split; [done|].
      destruct (queue s !! u) as [r0|] eqn:Hr0.
      * destruct (decide (q_status r0 ≠ Pending)) as [Hnp|Hp].
        -- destruct Hcase as [->|(_ & Hcontra & _)];
             [by repeat split | by destruct Hcontra].
        -- assert (q_status r0 = Pending) as Hst by by apply dec_stable.
           destruct (Hfresh r0 eq_refl Hst) as [Htries Herr].
           destruct Hcase as [->|(_ & Hcontra & _)];
             [by repeat split | by destruct Hcontra].
      * destruct Hcase as [->|(_ & Hcontra & _)];
             [by repeat split | by destruct Hcontra].
    + apply elem_of_cons in Hin as [?|Hin]; [done|].
      pose proof (ensure_queue_pending_queue ts s u url) as Hstep.
      rewrite decide_False in Hstep by done.
      destruct (IH (ensure_queue_pending ts s u) Hin) as (r & Hr & Hgood).
      { rewrite Hstep. apply Hfresh. }
      exists r. split; [done|]. by rewrite <- Hstep.
Qed.

(** C6. In every state the program can reach, the corrupt-result pass
    deletes every result that matches the empty-result test and keeps every
    other result; and for each URL whose result it deletes, the queue then
    holds an item for the URL, of kind product when there was none, that is
    pending with tries 0 and no last_error, and the URL has no lock. *)
Theorem repair_empty_products_requeues (ts : Z) (s : store) (url : string) (p : product_row) :
  reachable s →
  products s !! url = Some p →
  is_empty_product p = true →
  products (repair_empty_products ts s) !! url = None ∧
  (∃ r, queue (repair_empty_products ts s) !! url = Some r ∧
     q_status r = Pending ∧ q_tries r = 0 ∧ q_last_error r = None ∧
     q_kind r = match queue s !! url with
                | Some r0 => q_kind r0
                | None => Product
                end) ∧
  locks (repair_empty_products ts s) !! url = None ∧
  (∀ url' p', products (repair_empty_products ts s) !! url' = Some p' ↔
     products s !! url' = Some p' ∧ is_empty_product p' = false).
Proof.
  intros Hreach Hrow Hempty. unfold repair_empty_products.
  assert (url ∈ find_empty_products s) as Hin
    by (apply elem_of_find_empty_products; eauto).
  assert (∀ url', products (ensure_queue_pending_for_products (find_empty_products s) ts
                     (delete_products (find_empty_products s) s)) !! url'
                  = if decide (url' ∈ find_empty_products s) then None
                    else products s !! url') as Hprod.
  { intros url'. rewrite ensure_for_products_products. simpl.
    apply delete_urls_lookup. }
  split; [|split; [|split]].
  - by rewrite Hprod, decide_True.
  - apply (ensure_for_products_requeued (find_empty_products s) ts
             (delete_products (find_empty_products s) s) url Hin).
    intros r Hr. apply (reachable_pending_fresh s Hreach url r Hr).
  - by rewrite ensure_for_products_locks, decide_True.
  - intros url' p'. rewrite Hprod. case_decide as Hin'.
    + apply elem_of_find_empty_products in Hin' as (q & Hq & Hqe).
      split; [done|]. intros [Hq' Hne]. congruence.
    + split.
      * intros Hq. split; [done|].
        destruct (is_empty_product p') eqn:Hp'; [|done].
        exfalso. apply Hin'. apply elem_of_find_empty_products. eauto.
      * by intros [Hq _].
Qed.

Lemma repair_empty_products_requeues_witness :
  products (repair_empty_products 9 (run corrupt_ops empty_store)) !! "p" = None ∧
  (∃ r, queue (repair_empty_products 9 (run corrupt_ops empty_store)) !! "p" = Some r ∧
     q_status r = Pending ∧ q_tries r = 0 ∧ q_last_error r = None ∧
     q_kind r = match queue (run corrupt_ops empty_store) !! "p" with
                | Some r0 => q_kind r0
                | None => Product
                end) ∧
  locks (repair_empty_products 9 (run corrupt_ops empty_store)) !! "p" = None ∧
  (∀ url' p',
     products (repair_empty_products 9 (run corrupt_ops empty_store)) !! url' = Some p' ↔
     products (run corrupt_ops empty_store) !! url' = Some p' ∧
     is_empty_product p' = false).
Proof.
  apply (repair_empty_products_requeues 9 (run corrupt_ops empty_store) "p"
           (product_values blank_result 6 6)).
  - by exists corrupt_ops.
  - vm_compute. reflexivity.
  - vm_compute. reflexivity.
Defined.

(** The sample: the item of the blank result was done, and is pending again. *)
Example repair_sample :
  status_of "p" (run corrupt_ops empty_store) = Some Done ∧
  status_of "p" (repair_empty_products 9 (run corrupt_ops empty_store))
    = Some Pending.
Proof. split; vm_compute; reflexivity. Qed.

(** ** C10: canonicalize_url *)

(** C10 as stated fails, whatever the netloc validation: a query made of
    slashes is stripped to nothing and leaves a trailing question mark,
    which the second pass drops. *)
Lemma canonicalize_url_not_idempotent :
  ¬ (∃ C : NetlocChecks,
       ∀ u c : string, canonicalize_url u = Some c → canonicalize_url c = Some c).
Proof.
  intros [C H].
  specialize (H "http://a/b?/"%string "http://a/b?"%string eq_refl).
  vm_compute in H. discriminate H.
Qed.

Example canonicalize_url_twice (C : NetlocChecks) :
  canonicalize_url "http://a/b?/" = Some "http://a/b?"%string ∧
  canonicalize_url "http://a/b?" = Some "http://a/b"%string.
Proof. split; reflexivity. Qed.

(** *** Lists of characters *)

Lemma has_char_app c a b : has_char c (a ++ b) = has_char c a || has_char c b.
Proof. unfold has_char. apply existsb_app. Qed.

Lemma has_char_false c l :
  has_char c l = false ↔ Forall (λ x, x ≠ c) l.
Proof.
  unfold has_char. induction l as [|x l IH]; simpl.
  - split; [constructor | done].
  - rewrite orb_false_iff, IH, Forall_cons.
    destruct (Ascii.eqb_spec c x); split; intros [? ?]; split; congruence.
Qed.

Lemma split1_Some d l a b :
  split1 d l = Some (a, b) → l = (a ++ d :: b)%list ∧ has_char d a = false.
Proof.
  revert a. induction l as [|x l IH]; intros a; simpl; [done|].
  destruct (Ascii.eqb_spec x d) as [->|Hne].
  - intros [= <- <-]. done.
  - destruct (split1 d l) as [[a' b']|]; [|done].
    intros [= <- <-]. destruct (IH a' eq_refl) as [-> Hno].
    split; [done|]. simpl. rewrite Hno.
    destruct (Ascii.eqb_spec d x); [congruence | done].
Qed.

Lemma split1_None d l : split1 d l = None → has_char d l = false.
Proof.
  induction l as [|x l IH]; simpl; [done|].
  destruct (Ascii.eqb_spec x d) as [->|Hne]; [done|].
  destruct (split1 d l) as [[a b]|]; [done|]. intros _.
  rewrite IH by done. destruct (Ascii.eqb_spec d x); [congruence | done].
Qed.

Lemma split1_hit d a b :
  has_char d a = false → split1 d (a ++ d :: b) = Some (a, b).
Proof.
  induction a as [|x a IH]; simpl.
  - by rewrite Ascii.eqb_refl.
  - rewrite orb_false_iff. intros [Hx Ha].
    rewrite Ascii.eqb_sym, Hx, IH by done. done.
Qed.

Lemma split1_miss d l : has_char d l = false → split1 d l = None.
Proof.
  induction l as [|x l IH]; simpl; [done|].
  rewrite orb_false_iff. intros [Hx Hl].
  rewrite Ascii.eqb_sym, Hx, IH by done. done.
Qed.

Lemma take_drop_until p l : (take_until p l ++ drop_until p l)%list = l.
Proof.
  induction l as [|x l IH]; simpl; [done|].
  destruct (p x); simpl; [done | by rewrite IH].
Qed.

Lemma take_until_free p l :
  forallb (λ c, negb (p c)) (take_until p l) = true.
Proof.
  induction l as [|x l IH]; simpl; [done|].
  destruct (p x) eqn:Hx; simpl; [done | by rewrite Hx].
Qed.

Lemma drop_until_head p l :
  match drop_until p l with
  | [] => True
  | c :: _ => p c = true
  end.
Proof.
  induction l as [|x l IH]; simpl; [done|].
  destruct (p x) eqn:Hx; done.
Qed.

Lemma take_drop_until_app p a b :
  forallb (λ c, negb (p c)) a = true →
  match b with
  | [] => True
  | c :: _ => p c = true
  end →
  take_until p (a ++ b) = a ∧ drop_until p (a ++ b) = b.
Proof.
  intros Ha Hb. induction a as [|x a IH]; simpl in *.
  - destruct b as [|c b]; [done|]. simpl. by rewrite Hb.
  - apply andb_true_iff in Ha as [Hx Ha].
    destruct (p x); [done|]. destruct (IH Ha) as [-> ->]. done.
Qed.

Lemma lstrip_app p x y :
  lstrip p (x ++ y) =
    if nonempty (lstrip p x) then (lstrip p x ++ y)%list else lstrip p y.
Proof.
  induction x as [|c x IH]; simpl; [done|]. by destruct (p c).
Qed.

Lemma lstrip_head p l :
  match lstrip p l with
  | [] => True
  | c :: _ => p c = false
  end.
Proof.
  induction l as [|x l IH]; simpl; [done|].
  destruct (p x) eqn:Hx; [done|]. by rewrite Hx.
Qed.

Lemma lstrip_id p l :
  match l with
  | [] => True
  | c :: _ => p c = false
  end →
  lstrip p l = l.
Proof. destruct l as [|c l]; simpl; [done|]. by intros ->. Qed.

Lemma lstrip_nil p l : lstrip p l = [] ↔ forallb p l = true.
Proof.
  induction l as [|x l IH]; simpl; [done|].
  destruct (p x); simpl; [done|]. split; done.
Qed.

Lemma lstrip_suffix p l : ∃ a, l = (a ++ lstrip p l)%list ∧ forallb p a = true.
Proof.
  induction l as [|x l IH]; simpl; [by exists []|].
  destruct (p x) eqn:Hx.
  - destruct IH as (a & Hl & Ha). exists (x :: a). simpl.
    rewrite Hx, Ha. split; [by f_equal | done].
  - by exists [].
Qed.

Lemma forallb_rev {A} (f : A → bool) l : forallb f (rev l) = forallb f l.
Proof.
  induction l as [|x l IH]; simpl; [done|].
  rewrite forallb_app, IH. simpl. rewrite andb_true_r. apply andb_comm.
Qed.

Lemma rstrip_app p a b :
  rstrip p (a ++ b) =
    if nonempty (rstrip p b) then (a ++ rstrip p b)%list else rstrip p a.
Proof.
  unfold rstrip. rewrite rev_app_distr, lstrip_app.
  destruct (lstrip p (rev b)) as [|c l] eqn:Hb; [done|].
  assert (nonempty (rev (c :: l)) = true) as ->
    by (simpl; by destruct (rev l)).
  cbn [nonempty]. by rewrite rev_app_distr, rev_involutive.
Qed.

Lemma rstrip_nil p l : rstrip p l = [] ↔ forallb p l = true.
Proof.
  unfold rstrip. rewrite <- (forallb_rev p l), <- lstrip_nil.
  split; [|by intros ->].
  intros Hrev. apply (f_equal (@rev ascii)) in Hrev.
  by rewrite rev_involutive in Hrev.
Qed.

Lemma rstrip_prefix p l : ∃ t, l = (rstrip p l ++ t)%list ∧ forallb p t = true.
Proof.
  unfold rstrip. destruct (lstrip_suffix p (rev l)) as (a & Hl & Ha).
  exists (rev a). rewrite forallb_rev. split; [|done].
  apply (f_equal (@rev ascii)) in Hl.
  by rewrite rev_involutive, rev_app_distr in Hl.
Qed.

Lemma ends_with_slash_rstrip l : ends_with_slash (rstrip is_slash l) = false.
Proof.
  unfold ends_with_slash, rstrip. rewrite rev_involutive.
  pose proof (lstrip_head is_slash (rev l)) as Hhd.
  by destruct (lstrip is_slash (rev l)).
Qed.

Lemma rstrip_id l : ends_with_slash l = false → rstrip is_slash l = l.
Proof.
  unfold ends_with_slash, rstrip. intros Hend.
  rewrite lstrip_id; [apply rev_involutive|]. by destruct (rev l).
Qed.

Lemma ends_with_slash_app a x b :
  ends_with_slash (a ++ x :: b) = ends_with_slash (x :: b).
Proof.
  unfold ends_with_slash. rewrite rev_app_distr. simpl.
  destruct (rev b) as [|c l]; simpl; [|done].
  done.
Qed.

(** *** Characters *)

Ltac by_cases_on_char c :=
  destruct c as [[] [] [] [] [] [] [] []]; vm_compute; try done; auto.

Lemma scheme_char_plain c :
  is_scheme_char c = true →
  c ≠ colon ∧ is_netloc_delim c = false ∧ is_c0_or_space c = false ∧
  safe_char c = true.
Proof. by_cases_on_char c. Qed.

Lemma scheme_char_lower c :
  is_scheme_char c = true → is_scheme_char (lower_char c) = true.
Proof. by_cases_on_char c. Qed.

Lemma ascii_alpha_lower c :
  is_ascii_alpha c = true → is_ascii_alpha (lower_char c) = true.
Proof. by_cases_on_char c. Qed.

Lemma lower_char_idemp c : lower_char (lower_char c) = lower_char c.
Proof. by_cases_on_char c. Qed.

Lemma unsafe_is_c0 c : safe_char c = false → is_c0_or_space c = true.
Proof. by_cases_on_char c. Qed.

Lemma safe_char_spec c :
  safe_char c = true ↔ Forall (λ b, c ≠ b) unsafe_bytes.
Proof.
  unfold safe_char. rewrite negb_true_iff, has_char_false.
  split; intros Hall; eapply Forall_impl; try exact Hall; simpl; congruence.
Qed.

(** *** The clean-up at the head of urlsplit *)

Lemma remove_char_id b l : has_char b l = false → remove_char b l = l.
Proof.
  induction l as [|x l IH]; simpl; [done|].
  rewrite orb_false_iff. intros [Hx Hl].
  rewrite Ascii.eqb_sym, Hx, IH by done. done.
Qed.

Lemma safe_has_no_unsafe l b :
  forallb safe_char l = true → b ∈ unsafe_bytes → has_char b l = false.
Proof.
  intros Hl Hb. apply has_char_false. apply Forall_forall. intros x Hx ->.
  rewrite forallb_forall in Hl.
  specialize (Hl b). rewrite <- list_elem_of_In in Hl. specialize (Hl Hx).
  apply safe_char_spec in Hl. rewrite Forall_forall in Hl. by apply (Hl b).
Qed.

Lemma strip_unsafe_id l :
  forallb safe_char l = true →
  match l with
  | [] => True
  | c :: _ => is_c0_or_space c = false
  end →
  strip_unsafe l = l.
Proof.
  intros Hsafe Hhd. unfold strip_unsafe. rewrite lstrip_id by done.
  assert (∀ b, b ∈ unsafe_bytes → remove_char b l = l) as Hrm.
  { intros b Hb. apply remove_char_id. by apply safe_has_no_unsafe. }
  unfold unsafe_bytes in *. simpl.
  rewrite !Hrm; [done|..];
    repeat first [apply list_elem_of_here | apply list_elem_of_further].
Qed.

Lemma remove_char_spec b l x :
  x ∈ remove_char b l ↔ x ∈ l ∧ x ≠ b.
Proof.
  induction l as [|c l IH]; simpl.
  - rewrite elem_of_nil. tauto.
  - destruct (Ascii.eqb_spec c b) as [->|Hne].
    + rewrite IH, elem_of_cons. intuition congruence.
    + rewrite !elem_of_cons, IH. intuition congruence.
Qed.

Lemma remove_char_head b l :
  is_c0_or_space b = true →
  match l with
  | [] => True
  | c :: _ => is_c0_or_space c = false
  end →
  match remove_char b l with
  | [] => True
  | c :: _ => is_c0_or_space c = false
  end.
Proof.
  intros Hb. destruct l as [|c l]; simpl; [done|]. intros Hc.
  destruct (Ascii.eqb_spec c b) as [->|Hne]; [congruence | done].
Qed.

Lemma strip_unsafe_safe u : forallb safe_char (strip_unsafe u) = true.
Proof.
  apply forallb_forall. intros x Hx. apply list_elem_of_In in Hx.
  unfold strip_unsafe, unsafe_bytes in Hx. simpl in Hx.
  rewrite !remove_char_spec in Hx. destruct Hx as [[[_ H9] H13] H10].
  apply safe_char_spec. unfold unsafe_bytes. by repeat constructor.
Qed.

Lemma strip_unsafe_head u :
  match strip_unsafe u with
  | [] => True
  | c :: _ => is_c0_or_space c = false
  end.
Proof.
  unfold strip_unsafe, unsafe_bytes. simpl.
  do 3 (apply remove_char_head; [done|]). apply lstrip_head.
Qed.

(** *** The scheme *)

Lemma scheme_like_no_colon s : scheme_like s = true → has_char colon s = false.
Proof.
  destruct s as [|c s]; [done|]. unfold scheme_like.
  rewrite andb_true_iff. intros [_ Hs]. apply has_char_false.
  rewrite forallb_forall in Hs. apply Forall_forall. intros x Hx ->.
  apply list_elem_of_In, Hs in Hx. by apply scheme_char_plain in Hx as [? _].
Qed.

Lemma split_scheme_found s rest :
  scheme_like s = true →
  split_scheme (s ++ colon :: rest) = (map lower_char s, rest).
Proof.
  intros Hs. unfold split_scheme.
  rewrite split1_hit by by apply scheme_like_no_colon.
  destruct s as [|c s]; [done|]. unfold scheme_like in Hs. by rewrite Hs.
Qed.

Lemma split_scheme_inv u s u1 :
  split_scheme u = (s, u1) →
  (s = [] ∧ u1 = u) ∨
  (∃ s0, u = (s0 ++ colon :: u1)%list ∧ s = map lower_char s0 ∧
         scheme_like s0 = true).
Proof.
  unfold split_scheme.
  destruct (split1 colon u) as [[[|c pre] post]|] eqn:Hsplit;
    try (intros [= <- <-]; by left).
  destruct (is_ascii_alpha c && forallb is_scheme_char (c :: pre)) eqn:Htest;
    [|intros [= <- <-]; by left].
  intros [= <- <-]. right. exists (c :: pre).
  apply split1_Some in Hsplit as [-> _]. done.
Qed.

Lemma split_scheme_prefix a b :
  split_scheme (a ++ b) = ([], (a ++ b)%list) → split_scheme a = ([], a).
Proof.
  unfold split_scheme.
  destruct (split1 colon a) as [[[|c pre] post]|] eqn:Hsplit; try done.
  apply split1_Some in Hsplit as [-> Hno].
  replace (((c :: pre) ++ colon :: post) ++ b)%list
    with ((c :: pre) ++ colon :: (post ++ b))%list
    by by rewrite <- app_assoc.
  rewrite split1_hit by done.
  by destruct (is_ascii_alpha c && forallb is_scheme_char (c :: pre)).
Qed.

Lemma split_scheme_no_alpha l :
  match l with
  | c :: _ => is_ascii_alpha c = false
  | [] => True
  end →
  split_scheme l = ([], l).
Proof.
  intros Hhd. unfold split_scheme.
  destruct (split1 colon l) as [[[|c pre] post]|] eqn:Hsplit; try done.
  apply split1_Some in Hsplit as [-> _]. simpl in Hhd. by rewrite Hhd.
Qed.

Lemma scheme_like_lower s :
  scheme_like s = true →
  scheme_like (map lower_char s) = true ∧
  map lower_char (map lower_char s) = map lower_char s.
Proof.
  intros Hs. split.
  - destruct s as [|c s]; [done|]. unfold scheme_like in *. simpl map.
    apply andb_true_iff in Hs as [Hc Hs]. apply andb_true_iff. split.
    + by apply ascii_alpha_lower.
    + rewrite forallb_forall in Hs. apply forallb_forall. intros x Hx.
      change (lower_char c :: map lower_char s) with (map lower_char (c :: s)) in Hx.
      apply in_map_iff in Hx as (y & <- & Hy). by apply scheme_char_lower, Hs.
  - rewrite map_map. apply map_ext. intros c. apply lower_char_idemp.
Qed.

Lemma scheme_like_plain s :
  scheme_like s = true →
  forallb safe_char s = true ∧
  match s with
  | c :: _ => is_c0_or_space c = false
  | [] => True
  end.
Proof.
  destruct s as [|c s]; [done|]. unfold scheme_like.
  rewrite andb_true_iff. intros [_ Hs]. rewrite forallb_forall in Hs. split.
  - apply forallb_forall. intros x Hx. by apply scheme_char_plain, Hs.
  - apply scheme_char_plain, Hs. by left.
Qed.

(** *** urlsplit and urlunsplit, by their parts *)

Lemma urlsplit_eq `{NetlocChecks} url :
  urlsplit url =
    let '(sch, u1) := split_scheme (strip_unsafe url) in
    let '(nl, u2) :=
      if starts_with_2slash u1 then splitnetloc u1 else ([], u1) in
    let '(u3, frag) :=
      match split1 hash u2 with
      | Some (a, b) => (a, b)
      | None => (u2, [])
      end in
    let '(pth, qry) :=
      match split1 qmark u3 with
      | Some (a, b) => (a, b)
      | None => (u3, [])
      end in
    if netloc_ok nl then Some (UrlParts sch nl pth qry frag) else None.
Proof. reflexivity. Qed.

Lemma urlunsplit_text sch nl pth qry :
  urlunsplit (UrlParts sch nl pth qry []) =
    url_text sch (writes_authority sch nl pth) nl
      (if writes_authority sch nl pth && (nonempty pth && no_leading_slash pth)
       then slash :: pth else pth)
      qry.
Proof.
  unfold urlunsplit, url_text, writes_authority, query_text. simpl.
  destruct (nonempty nl ||
            nonempty sch && bool_decide (sch ∈ uses_netloc) &&
            negb (starts_with_2slash pth)); simpl;
    destruct (nonempty sch), (nonempty qry); simpl;
    rewrite <- ?app_assoc; simpl; rewrite <- ?app_assoc, ?app_nil_r; done.
Qed.

Lemma starts_with_2slash_inv l :
  starts_with_2slash l = true → l = slash :: slash :: drop 2 l.
Proof.
  destruct l as [|a [|b l]]; try done. simpl.
  rewrite andb_true_iff. intros [Ha Hb].
  apply Ascii.eqb_eq in Ha, Hb. by subst.
Qed.

Lemma delim_not_query_or_hash c :
  is_netloc_delim c = true → c ≠ qmark → c ≠ hash → c = slash.
Proof.
  unfold is_netloc_delim. rewrite !orb_true_iff.
  intros [[Hc|Hc]|Hc] ? ?; apply Ascii.eqb_eq in Hc; done.
Qed.

Lemma has_char_head c x l : has_char c (x :: l) = false → x ≠ c.
Proof.
  simpl. rewrite orb_false_iff. intros [Hx _] ->.
  by rewrite Ascii.eqb_refl in Hx.
Qed.

(** What [urlsplit] returns, read backwards: the text it was given is, up
    to the clean-up and the scheme, made of the parts it returns. *)
Lemma urlsplit_inv `{NetlocChecks} u p :
  urlsplit u = Some p →
  ∃ u1 qt ft,
    split_scheme (strip_unsafe u) = (scheme p, u1) ∧
    u1 = ((if starts_with_2slash u1 then slash :: slash :: netloc p else []) ++
          path p ++ qt ++ ft)%list ∧
    (starts_with_2slash u1 = false → netloc p = []) ∧
    forallb (λ c, negb (is_netloc_delim c)) (netloc p) = true ∧
    (starts_with_2slash u1 = true →
     path p = [] ∨ no_leading_slash (path p) = false) ∧
    has_char qmark (path p) = false ∧
    has_char hash (path p) = false ∧
    has_char hash (query p) = false ∧
    (qt = [] ∧ query p = [] ∨ qt = qmark :: query p) ∧
    (ft = [] ∧ fragment p = [] ∨ ft = hash :: fragment p) ∧
    netloc_ok (netloc p) = true.
Proof.
  rewrite urlsplit_eq.
  destruct (split_scheme (strip_unsafe u)) as [sch u1].
  destruct (if starts_with_2slash u1 then splitnetloc u1 else ([], u1))
    as [nl u2] eqn:Hnl.
  assert (u1 = ((if starts_with_2slash u1 then slash :: slash :: nl else []) ++ u2)%list ∧
          (starts_with_2slash u1 = false → nl = []) ∧
          forallb (λ c, negb (is_netloc_delim c)) nl = true ∧
          (starts_with_2slash u1 = true →
           match u2 with
           | [] => True
           | c :: _ => is_netloc_delim c = true
           end)) as (Hu1 & Hnone & Hfree & Hhead).
  { destruct (starts_with_2slash u1) eqn:Hauth.
    - unfold splitnetloc in Hnl. injection Hnl as <- <-.
      split; [|split; [done|split]].
      + simpl. rewrite take_drop_until. by apply starts_with_2slash_inv.
      + apply take_until_free.
      + intros _. apply drop_until_head.
    - injection Hnl as <- <-. done. }
  destruct (match split1 hash u2 with
            | Some (a, b) => (a, b)
            | None => (u2, [])
            end) as [u3 frag] eqn:Hfrag.
  assert (∃ ft, u2 = (u3 ++ ft)%list ∧ has_char hash u3 = false ∧
                (ft = [] ∧ frag = [] ∨ ft = hash :: frag)) as (ft & Hu2 & Hh3 & Hft).
  { destruct (split1 hash u2) as [[a b]|] eqn:Hs.
    - injection Hfrag as <- <-. apply split1_Some in Hs as [-> Hno].
      exists (hash :: b). auto.
    - injection Hfrag as <- <-. apply split1_None in Hs.
      exists []. rewrite app_nil_r. auto. }
  destruct (match split1 qmark u3 with
            | Some (a, b) => (a, b)
            | None => (u3, [])
            end) as [pth qry] eqn:Hqry.
  assert (∃ qt, u3 = (pth ++ qt)%list ∧ has_char qmark pth = false ∧
                (qt = [] ∧ qry = [] ∨ qt = qmark :: qry)) as (qt & Hu3 & Hq & Hqt).
  { destruct (split1 qmark u3) as [[a b]|] eqn:Hs.
    - injection Hqry as <- <-. apply split1_Some in Hs as [-> Hno].
      exists (qmark :: b). auto.
    - injection Hqry as <- <-. apply split1_None in Hs.
      exists []. rewrite app_nil_r. auto. }
  destruct (netloc_ok nl) eqn:Hok; [|done].
  intros [= <-]. simpl.
  assert (has_char hash pth = false ∧ has_char hash qry = false) as [Hhp Hhq].
  { rewrite Hu3, has_char_app in Hh3. apply orb_false_iff in Hh3 as [Hp Hqh].
    split; [done|]. destruct Hqt as [[_ ->] | ->]; [done|].
    by simpl in Hqh. }
  exists u1, qt, ft. repeat split; try done.
  - rewrite Hu1 at 1. rewrite Hu2, Hu3. by rewrite <- app_assoc.
  - intros Hauth. specialize (Hhead Hauth).
    destruct pth as [|c pth]; [by left|]. right.
    rewrite Hu2, Hu3 in Hhead. simpl in Hhead.
    rewrite (delim_not_query_or_hash c Hhead);
      [done | by eapply has_char_head | by eapply has_char_head].
Qed.

Lemma starts_with_2slash_query pth qry :
  starts_with_2slash pth = false →
  starts_with_2slash (pth ++ query_text qry) = false.
Proof.
  unfold query_text. destruct pth as [|a [|b pth]]; simpl; [| |done].
  - intros _. by destruct qry as [|x [|y qry]].
  - intros _. destruct qry; simpl; [done|]. apply andb_false_r.
Qed.

Lemma has_char_query_text c qry :
  c ≠ qmark → has_char c qry = false → has_char c (query_text qry) = false.
Proof.
  intros Hc Hq. unfold query_text. destruct (nonempty qry); [|done].
  simpl. rewrite Hq. by destruct (Ascii.eqb_spec c qmark).
Qed.

Lemma split1_query pth qry :
  has_char qmark pth = false →
  match split1 qmark (pth ++ query_text qry) with
  | Some (a, b) => (a, b)
  | None => ((pth ++ query_text qry)%list, [])
  end = (pth, qry).
Proof.
  intros Hp. unfold query_text. destruct qry as [|x qry]; simpl.
  - rewrite app_nil_r. by rewrite split1_miss.
  - by rewrite split1_hit.
Qed.

(** What [urlsplit] returns on a text written part by part. *)
Lemma urlsplit_url_text `{NetlocChecks} sch authority nl pth qry :
  (sch = [] ∨ scheme_like sch = true ∧ map lower_char sch = sch) →
  forallb (λ c, negb (is_netloc_delim c)) nl = true →
  (authority = false → nl = [] ∧ starts_with_2slash pth = false) →
  (authority = true → pth = [] ∨ no_leading_slash pth = false) →
  has_char qmark pth = false →
  has_char hash pth = false →
  has_char hash qry = false →
  (sch = [] →
   split_scheme (url_text [] authority nl pth qry)
     = ([], url_text [] authority nl pth qry)) →
  strip_unsafe (url_text sch authority nl pth qry)
    = url_text sch authority nl pth qry →
  netloc_ok nl = true →
  urlsplit (url_text sch authority nl pth qry) = Some (UrlParts sch nl pth qry []).
Proof.
  intros Hsch Hnl Hnoauth Hauth Hq Hh Hhq Hnoscheme Hstrip Hok.
  rewrite urlsplit_eq, Hstrip.
  assert (split_scheme (url_text sch authority nl pth qry)
          = (sch, url_text [] authority nl pth qry)) as ->.
  { destruct Hsch as [->|[Hlike Hlow]]; [by apply Hnoscheme|].
    assert (nonempty sch = true) as Hne by by destruct sch.
    unfold url_text. rewrite Hne. simpl nonempty. cbn iota.
    rewrite <- app_assoc. simpl app at 2.
    rewrite split_scheme_found by done. by rewrite Hlow. }
  unfold url_text. simpl nonempty. cbn iota. rewrite app_nil_l.
  assert ((if starts_with_2slash
                ((if authority then [slash; slash] ++ nl else []) ++
                 pth ++ query_text qry)
           then splitnetloc
                  ((if authority then [slash; slash] ++ nl else []) ++
                   pth ++ query_text qry)
           else ([], ((if authority then [slash; slash] ++ nl else []) ++
                      pth ++ query_text qry)%list))
          = (nl, (pth ++ query_text qry)%list)) as ->.
  { destruct authority.
    - simpl. unfold splitnetloc. simpl drop. rewrite ?drop_0.
      destruct (take_drop_until_app is_netloc_delim nl (pth ++ query_text qry))
        as [-> ->]; [done| |done].
      destruct (Hauth eq_refl) as [->|Hp].
      + unfold query_text. by destruct (nonempty qry).
      + destruct pth as [|c pth]; [done|]. simpl in *.
        apply negb_false_iff, Ascii.eqb_eq in Hp. by subst.
    - destruct (Hnoauth eq_refl) as [-> Hp]. simpl.
      by rewrite starts_with_2slash_query. }
  rewrite (split1_miss hash)
    by (rewrite has_char_app, Hh; by apply has_char_query_text).
  rewrite split1_query by done. by rewrite Hok.
Qed.

Lemma safe_query_text qry :
  forallb safe_char qry = true → forallb safe_char (query_text qry) = true.
Proof. unfold query_text. destruct (nonempty qry); [|done]. simpl. by intros ->. Qed.

(** A written text survives the clean-up of [urlsplit] when its parts hold
    no character to remove and it does not start with a control character
    or a space. *)
Lemma strip_unsafe_url_text sch authority nl pth qry :
  (sch = [] ∨ scheme_like sch = true) →
  forallb safe_char nl = true →
  forallb safe_char pth = true →
  forallb safe_char qry = true →
  (sch = [] → authority = false →
   match pth with
   | [] => True
   | c :: _ => is_c0_or_space c = false
   end) →
  strip_unsafe (url_text sch authority nl pth qry)
    = url_text sch authority nl pth qry.
Proof.
  intros Hsch Hnl Hpth Hqry Hhd. apply strip_unsafe_id.
  - unfold url_text. rewrite !forallb_app, Hpth, safe_query_text by done.
    assert (forallb safe_char (if nonempty sch then sch ++ [colon] else []) = true)
      as ->.
    { destruct Hsch as [->|Hlike]; [done|].
      destruct (nonempty sch); [|done]. rewrite forallb_app.
      by destruct (scheme_like_plain sch Hlike) as [-> _]. }
    destruct authority; [|done]. simpl. by rewrite Hnl.
  - unfold url_text. destruct Hsch as [->|Hlike].
    + simpl. destruct authority; [done|]. simpl.
      destruct pth as [|c pth]; [|by apply Hhd].
      simpl. unfold query_text. by destruct (nonempty qry).
    + destruct (scheme_like_plain sch Hlike) as [_ Hc].
      by destruct sch as [|c sch].
Qed.

(** The second pass over a text that [urlunsplit] writes back unchanged
    and that has no trailing slash to strip. *)
Lemma canonicalize_text `{NetlocChecks} sch authority nl pth qry :
  urlsplit (url_text sch authority nl pth qry)
    = Some (UrlParts sch nl pth qry []) →
  writes_authority sch nl pth = authority →
  (authority = true → pth = [] ∨ no_leading_slash pth = false) →
  (ends_with_slash (url_text sch authority nl pth qry) = false ∨ pth = [slash]) →
  canonicalize (url_text sch authority nl pth qry)
    = Some (url_text sch authority nl pth qry).
Proof.
  intros Hsplit Hw Hauth Hend. unfold canonicalize. rewrite Hsplit.
  cbn [scheme netloc path query].
  rewrite urlunsplit_text, Hw.
  assert ((if authority && (nonempty pth && no_leading_slash pth)
           then slash :: pth else pth) = pth) as ->.
  { destruct authority; [|done].
    destruct (Hauth eq_refl) as [-> | ->]; [done|]. simpl.
    by rewrite andb_false_r. }
  f_equal. destruct Hend as [-> | ->]; [done|].
  rewrite bool_decide_eq_true_2 by done. by rewrite andb_false_r.
Qed.

(** *** Prefixes of a path *)

Lemma starts_with_2slash_prefix a b :
  starts_with_2slash (a ++ b) = false → starts_with_2slash a = false.
Proof. by destruct a as [|x [|y a]]. Qed.

Lemma leading_slash_prefix a b :
  (a ++ b)%list = [] ∨ no_leading_slash (a ++ b) = false →
  a = [] ∨ no_leading_slash a = false.
Proof. destruct a as [|x a]; [by left|]. intros [?|?]; [done | by right]. Qed.

Lemma has_char_prefix c a b : has_char c (a ++ b) = false → has_char c a = false.
Proof. rewrite has_char_app, orb_false_iff. by intros [? _]. Qed.

Lemma forallb_prefix {A} (f : A → bool) a b :
  forallb f (a ++ b) = true → forallb f a = true.
Proof. rewrite forallb_app, andb_true_iff. by intros [? _]. Qed.

Lemma forallb_suffix {A} (f : A → bool) a b :
  forallb f (a ++ b) = true → forallb f b = true.
Proof. rewrite forallb_app, andb_true_iff. by intros [_ ?]. Qed.

(** A run of slashes that does not start with two slashes is at most one
    slash. *)
Lemma slashes_short l :
  forallb is_slash l = true → starts_with_2slash l = false →
  l = [] ∨ l = [slash].
Proof.
  destruct l as [|a [|b l]]; simpl; [by left | |].
  - rewrite andb_true_r. intros Ha%Ascii.eqb_eq _. right. by subst.
  - unfold is_slash. intros Hall Hno.
    apply andb_true_iff in Hall as [Ha Hall].
    apply andb_true_iff in Hall as [Hb _]. by rewrite Ha, Hb in Hno.
Qed.

Lemma no_delim_no_slash l :
  forallb (λ c, negb (is_netloc_delim c)) l = true → l ≠ [] →
  nonempty (rstrip is_slash l) = true ∧ rstrip is_slash l = l.
Proof.
  intros Hfree Hne.
  assert (ends_with_slash l = false) as Hend.
  { unfold ends_with_slash. rewrite <- forallb_rev in Hfree.
    destruct (rev l) as [|c r]; [done|]. simpl in Hfree.
    apply andb_true_iff in Hfree as [Hc _]. unfold is_netloc_delim in Hc.
    unfold is_slash. by destruct (Ascii.eqb c slash). }
  rewrite rstrip_id by done. split; [by destruct l | done].
Qed.

(** *** The path urlunsplit writes *)

Lemma writes_authority_true sch nl pth :
  (nl ≠ [] → pth = [] ∨ no_leading_slash pth = false) →
  writes_authority sch nl pth = true →
  ∃ pth1,
    pth1 = (if nonempty pth && no_leading_slash pth then slash :: pth else pth) ∧
    (pth1 = [] ∨ no_leading_slash pth1 = false) ∧
    (nl ≠ [] → pth1 = pth) ∧
    (nl = [] →
     starts_with_2slash pth1 = false ∧
     nonempty sch && bool_decide (sch ∈ uses_netloc) = true).
Proof.
  intros Hnl Hw. eexists. split; [done|].
  assert ((if nonempty pth && no_leading_slash pth then slash :: pth else pth) = []
          ∨ no_leading_slash
              (if nonempty pth && no_leading_slash pth then slash :: pth else pth)
            = false) as Hlead.
  { destruct pth as [|c pth]; [by left|]. right. simpl.
    destruct (negb (Ascii.eqb c slash)) eqn:Hc; [done|]. simpl. done. }
  split; [done|]. split.
  - intros Hne. destruct (Hnl Hne) as [-> | Hp]; [done|].
    by rewrite Hp, andb_false_r.
  - intros ->. unfold writes_authority in Hw. simpl in Hw.
    apply andb_true_iff in Hw as [Hs Hp]. split; [|done].
    apply negb_true_iff in Hp. destruct pth as [|c pth]; [done|]. simpl.
    destruct (negb (Ascii.eqb c slash)) eqn:Hc; [|done]. simpl.
    apply negb_true_iff in Hc. by rewrite Hc.
Qed.

Lemma writes_authority_false sch nl pth :
  (nl ≠ [] ∨ starts_with_2slash pth = false) →
  writes_authority sch nl pth = false →
  nl = [] ∧ starts_with_2slash pth = false ∧
  nonempty sch && bool_decide (sch ∈ uses_netloc) = false.
Proof.
  intros Hp Hw. unfold writes_authority in Hw.
  apply orb_false_iff in Hw as [Hnl Hw].
  assert (nl = []) as -> by by destruct nl.
  destruct Hp as [?|Hp]; [done|]. rewrite Hp in Hw. simpl in Hw.
  by rewrite andb_true_r in Hw.
Qed.

(** *** The second pass *)

Lemma netloc_ok_nil `{NetlocChecks} : netloc_ok [] = true.
Proof. done. Qed.

(** A scheme of [uses_netloc] alone: [urlunsplit] writes [//] after it and
    the strip takes it away again. *)
Lemma canonicalize_bare_scheme `{NetlocChecks} sch :
  scheme_like sch = true →
  map lower_char sch = sch →
  bool_decide (sch ∈ uses_netloc) = true →
  canonicalize (sch ++ [colon]) = Some (sch ++ [colon])%list.
Proof.
  intros Hlike Hlow Huses.
  assert (nonempty sch = true) as Hne by by destruct sch.
  assert ((sch ++ [colon])%list = url_text sch false [] [] []) as Htext.
  { unfold url_text. rewrite Hne. simpl. by rewrite app_nil_r. }
  assert (urlsplit (sch ++ [colon]) = Some (UrlParts sch [] [] [] [])) as Hsplit.
  { rewrite Htext. apply urlsplit_url_text; try done.
    - by right.
    - apply strip_unsafe_url_text; try done. by right. }
  unfold canonicalize. rewrite Hsplit. cbn [scheme netloc path query].
  rewrite urlunsplit_text. unfold writes_authority. rewrite Hne, Huses. simpl.
  unfold url_text. rewrite Hne. simpl.
  change (query_text []) with (@nil ascii).
  rewrite ends_with_slash_app. simpl. f_equal.
  change (slash :: slash :: []) with ([slash; slash] ++ [])%list.
  rewrite rstrip_app. simpl.
  apply rstrip_id. change [colon] with ([] ++ [colon])%list.
  by rewrite app_assoc, ends_with_slash_app.
Qed.

(** The second pass over the text of the first: with the scheme, netloc,
    path and query of the first pass, any text written from a prefix of the
    path and a prefix of the query is returned unchanged when it has no
    trailing slash left to strip. *)
Lemma second_pass `{NetlocChecks} u p pth1 pth' qry' tp tq :
  urlsplit u = Some p →
  (netloc p ≠ [] ∨ starts_with_2slash (path p) = false) →
  pth1 = (if writes_authority (scheme p) (netloc p) (path p) &&
             (nonempty (path p) && no_leading_slash (path p))
          then slash :: path p else path p) →
  pth1 = (pth' ++ tp)%list →
  query p = (qry' ++ tq)%list →
  (qry' = [] ∨ tp = []) →
  (ends_with_slash
     (url_text (scheme p) (writes_authority (scheme p) (netloc p) (path p))
        (netloc p) pth' qry') = false ∨ pth' = [slash]) →
  canonicalize
    (url_text (scheme p) (writes_authority (scheme p) (netloc p) (path p))
       (netloc p) pth' qry')
  = Some (url_text (scheme p) (writes_authority (scheme p) (netloc p) (path p))
            (netloc p) pth' qry').
Proof.
  intros Hsplit H2 Hpth1 Hpth' Hqry' Hcut Hend.
  destruct (urlsplit_inv u p Hsplit)
    as (u1 & qt & ft & Hss & Hu1 & Hnoauth & Hfree & Hauth & Hq & Hh & Hhq &
        Hqt & _ & Hok).
  destruct p as [sch nl pth qry frag]. cbn [scheme netloc path query] in *.
  set (w := writes_authority sch nl pth) in *.
  (* the scheme *)
  assert ((sch = [] ∧ u1 = strip_unsafe u) ∨
          (scheme_like sch = true ∧ map lower_char sch = sch ∧
           ∃ s0, strip_unsafe u = (s0 ++ colon :: u1)%list)) as Hsch.
  { destruct (split_scheme_inv _ _ _ Hss) as [[-> ->]|(s0 & Hu0 & -> & Hlike)].
    - by left.
    - right. destruct (scheme_like_lower s0 Hlike) as [? ?]. eauto. }
  (* no character to remove is left in the parts *)
  assert (forallb safe_char u1 = true) as Hsafe1.
  { pose proof (strip_unsafe_safe u) as Hsafe.
    destruct Hsch as [[_ ->]|(_ & _ & s0 & Hu0)]; [done|].
    rewrite Hu0 in Hsafe. apply forallb_suffix in Hsafe.
    by simpl in Hsafe. }
  assert (nl ≠ [] → starts_with_2slash u1 = true) as Hnlauth.
  { intros Hne. destruct (starts_with_2slash u1); [done|]. by destruct Hne, Hnoauth. }
  assert (forallb safe_char nl = true ∧ forallb safe_char pth = true ∧
          forallb safe_char qry = true) as (Hsnl & Hspth & Hsqry).
  { rewrite Hu1 in Hsafe1.
    assert (forallb safe_char nl = true) as Hn.
    { destruct (starts_with_2slash u1) eqn:Ha.
      - apply forallb_prefix in Hsafe1. simpl in Hsafe1. done.
      - by rewrite Hnoauth. }
    apply forallb_suffix in Hsafe1.
    split; [done|]. split; [by apply forallb_prefix in Hsafe1|].
    apply forallb_suffix, forallb_prefix in Hsafe1.
    destruct Hqt as [[_ ->] | ->]; [done|]. simpl in Hsafe1. done. }
  (* the path that is written, and its prefix *)
  assert ((w = true ∧ (pth1 = [] ∨ no_leading_slash pth1 = false) ∧
           (nl = [] → starts_with_2slash pth1 = false ∧
                      nonempty sch && bool_decide (sch ∈ uses_netloc) = true)) ∨
          (w = false ∧ pth1 = pth ∧ nl = [] ∧ starts_with_2slash pth = false ∧
           nonempty sch && bool_decide (sch ∈ uses_netloc) = false)) as Hw.
  { destruct w eqn:Hweq.
    - left. split; [done|].
      destruct (writes_authority_true sch nl pth) as (x & Hx & Hlead & _ & Hnil);
        [intros Hne; by apply Hauth, Hnlauth | done |].
      simpl in Hpth1. rewrite <- Hpth1 in Hx. by subst x.
    - right. split; [done|]. split; [done|].
      by apply writes_authority_false. }
  assert (has_char qmark pth1 = false ∧ has_char hash pth1 = false ∧
          forallb safe_char pth1 = true) as (Hq1 & Hh1 & Hs1).
  { rewrite Hpth1. destruct (w && (nonempty pth && no_leading_slash pth)); simpl;
      by rewrite ?Hq, ?Hh, ?Hspth. }
  rewrite Hpth' in Hq1, Hh1, Hs1.
  apply has_char_prefix in Hq1, Hh1. apply forallb_prefix in Hs1.
  rewrite Hqry' in Hhq, Hsqry.
  apply has_char_prefix in Hhq. apply forallb_prefix in Hsqry.
  assert (w = true → pth' = [] ∨ no_leading_slash pth' = false) as Hlead'.
  { intros Hwt. destruct Hw as [(_ & Hlead & _)|(Hwf & _)]; [|congruence].
    apply (leading_slash_prefix pth' tp). by rewrite <- Hpth'. }
  assert (w = false → nl = [] ∧ starts_with_2slash pth' = false) as Hnoauth'.
  { intros Hwf. destruct Hw as [(Hwt & _)|(_ & Hsame & Hnl & Hp & _)]; [congruence|].
    split; [done|]. apply (starts_with_2slash_prefix pth' tp).
    by rewrite <- Hpth', Hsame. }
  apply canonicalize_text; [|  | done | done].
  - apply urlsplit_url_text; try done.
    + destruct Hsch as [[-> _]|(? & ? & _)]; auto.
    + (* no scheme is found where the first pass found none *)
      intros ->. destruct Hsch as [[_ Hu0]|(Hlike & _)]; [|done].
      rewrite <- Hu0 in Hss.
      destruct w eqn:Hweq; [by apply split_scheme_no_alpha|].
      destruct (Hnoauth' eq_refl) as [-> Hp'].
      destruct Hw as [(? & _)|(_ & Hsame & _)]; [done|].
      unfold url_text. simpl.
      destruct (starts_with_2slash u1) eqn:Ha.
      * apply split_scheme_no_alpha.
        destruct (Hauth eq_refl) as [Hnil|Hp].
        -- rewrite Hsame, Hnil in Hpth'. symmetry in Hpth'.
           apply app_eq_nil in Hpth' as [-> _]. simpl.
           unfold query_text. by destruct (nonempty qry').
        -- rewrite Hsame in Hpth'. rewrite Hpth' in Hp.
           destruct pth' as [|c pth'].
           ++ simpl. unfold query_text. by destruct (nonempty qry').
           ++ simpl in *. apply negb_false_iff, Ascii.eqb_eq in Hp. by subst c.
      * assert (∃ rest, u1 = ((pth' ++ query_text qry') ++ rest)%list)
          as [rest Hrest].
        { rewrite Hu1. simpl. rewrite <- Hsame, Hpth'.
          destruct Hcut as [-> | ->].
          - exists (tp ++ qt ++ ft)%list. simpl.
            by rewrite app_nil_r, <- app_assoc.
          - rewrite app_nil_r. destruct qry' as [|x qry'].
            + exists (qt ++ ft)%list. simpl. by rewrite app_nil_r.
            + destruct Hqt as [[_ Hnil] | ->]; [by rewrite Hqry' in Hnil|].
              exists (tq ++ ft)%list. rewrite Hqry'. unfold query_text. simpl.
              by rewrite <- !app_assoc. }
        apply (split_scheme_prefix _ rest). by rewrite <- Hrest.
    + apply strip_unsafe_url_text; try done.
      * destruct Hsch as [[-> _]|(? & _)]; auto.
      * intros -> Hwf. destruct Hsch as [[_ Hu0]|(Hlike & _)]; [|done].
        destruct Hw as [(? & _)|(_ & Hsame & _)]; [congruence|].
        destruct pth' as [|c pth']; [done|].
        rewrite Hsame in Hpth'.
        destruct (starts_with_2slash u1) eqn:Ha.
        -- destruct (Hauth eq_refl) as [Hnil|Hp]; [by rewrite Hpth' in Hnil|].
           rewrite Hpth' in Hp. simpl in Hp.
           apply negb_false_iff, Ascii.eqb_eq in Hp. by subst c.
        -- pose proof (strip_unsafe_head u) as Hhd.
           rewrite <- Hu0, Hu1, Hpth' in Hhd. by simpl in Hhd.
  - (* urlunsplit writes the authority as before *)
    destruct Hw as [(Hwt & _ & Hnil)|(Hwf & _ & -> & _ & Hs)].
    + rewrite Hwt. unfold writes_authority.
      destruct nl as [|c nl]; [|done].
      destruct (Hnil eq_refl) as [Hp1 ->]. simpl.
      rewrite Hpth' in Hp1. by rewrite (starts_with_2slash_prefix _ _ Hp1).
    + rewrite Hwf. unfold writes_authority. by rewrite Hs.
Qed.

Lemma url_text_app sch authority nl pth qry :
  url_text sch authority nl pth qry =
    (((if nonempty sch then sch ++ [colon] else []) ++
      (if authority then [slash; slash] ++ nl else [])) ++
     pth ++ query_text qry)%list.
Proof. unfold url_text. by rewrite <- app_assoc. Qed.

(** Stripping the trailing slashes of a written text strips those of its
    query when the query is not made of slashes only, and those of its path
    when there is no query and the path is not made of slashes only. *)
Lemma rstrip_url_text_query sch authority nl pth qry :
  nonempty (rstrip is_slash qry) = true →
  rstrip is_slash (url_text sch authority nl pth qry)
    = url_text sch authority nl pth (rstrip is_slash qry).
Proof.
  intros Hq. rewrite !url_text_app. unfold query_text.
  assert (nonempty qry = true) as ->.
  { destruct qry; [|done]. by vm_compute in Hq. }
  rewrite Hq.
  replace ((((if nonempty sch then sch ++ [colon] else []) ++
             (if authority then [slash; slash] ++ nl else [])) ++
            pth ++ qmark :: qry)%list)
    with (((((if nonempty sch then sch ++ [colon] else []) ++
             (if authority then [slash; slash] ++ nl else [])) ++
            pth ++ [qmark]) ++ qry)%list)
    by (by rewrite <- !app_assoc).
  rewrite rstrip_app, Hq. by rewrite <- !app_assoc.
Qed.

Lemma rstrip_url_text_path sch authority nl pth :
  nonempty (rstrip is_slash pth) = true →
  rstrip is_slash (url_text sch authority nl pth [])
    = url_text sch authority nl (rstrip is_slash pth) [].
Proof.
  intros Hp. rewrite !url_text_app. unfold query_text. simpl.
  rewrite !app_nil_r. by rewrite rstrip_app, Hp.
Qed.

Lemma rstrip_url_text_netloc sch nl pth :
  forallb is_slash pth = true →
  forallb (λ c, negb (is_netloc_delim c)) nl = true → nl ≠ [] →
  rstrip is_slash (url_text sch true nl pth [])
    = url_text sch true nl [] [].
Proof.
  intros Hp Hfree Hne. rewrite !url_text_app. unfold query_text. simpl.
  rewrite !app_nil_r. rewrite rstrip_app.
  assert (rstrip is_slash pth = []) as -> by by apply rstrip_nil.
  simpl.
  replace (((if nonempty sch then sch ++ [colon] else []) ++ slash :: slash :: nl)%list)
    with ((((if nonempty sch then sch ++ [colon] else []) ++ [slash; slash]) ++ nl)%list)
    by (by rewrite <- app_assoc).
  destruct (no_delim_no_slash nl Hfree Hne) as [Hn1 Hn2].
  by rewrite rstrip_app, Hn1, Hn2.
Qed.

(** Idempotence on the characters of the URL: the first pass returns a
    text that the second pass returns unchanged. *)
Lemma canonicalize_idempotent `{NetlocChecks} (u : list ascii) (p : url_parts) :
  urlsplit u = Some p →
  (query p = [] ∨ forallb is_slash (query p) = false ∨ path p = [slash]) →
  (netloc p ≠ [] ∨ starts_with_2slash (path p) = false) →
  ∃ c, canonicalize u = Some c ∧ canonicalize c = Some c.
Proof.
  intros Hsplit H1 H2.
  destruct (urlsplit_inv u p Hsplit)
    as (u1 & qt & ft & Hss & Hu1 & Hnoauth & Hfree & Hauth & _).
  unfold canonicalize at 1. rewrite Hsplit. eexists. split; [reflexivity|].
  pose proof (λ pth1 pth' qry' tp tq,
                second_pass u p pth1 pth' qry' tp tq Hsplit H2) as Hsecond.
  destruct p as [sch nl pth qry frag]. cbn [scheme netloc path query] in *.
  rewrite urlunsplit_text.
  remember (writes_authority sch nl pth) as w eqn:Hw in *.
  remember (if w && (nonempty pth && no_leading_slash pth)
            then slash :: pth else pth) as pth1 eqn:Hpth1 in *.
  specialize (λ pth' qry' tp tq, Hsecond pth1 pth' qry' tp tq eq_refl) as Hsec.
  clear Hsecond. rename Hsec into Hsecond. symmetry in Hw.
  destruct (ends_with_slash (url_text sch w nl pth1 qry) &&
            negb (bool_decide (pth = [slash]))) eqn:Hstrip.
  2: { (* nothing is stripped *)
    apply (Hsecond pth1 qry [] []); [by rewrite app_nil_r.. | by right |].
    apply andb_false_iff in Hstrip as [?|Hp]; [by left|]. right.
    apply negb_false_iff, bool_decide_eq_true in Hp. subst pth1. rewrite Hp.
    simpl. by rewrite andb_false_r. }
  apply andb_true_iff in Hstrip as [Hend Hnp].
  apply negb_true_iff, bool_decide_eq_false in Hnp.
  pose proof (ends_with_slash_rstrip (url_text sch w nl pth1 qry)) as Hdone.
  destruct (nonempty (rstrip is_slash qry)) eqn:Hq.
  { (* the query keeps a character *)
    rewrite rstrip_url_text_query in * by done.
    destruct (rstrip_prefix is_slash qry) as (tq & Hq' & _).
    apply (Hsecond pth1 (rstrip is_slash qry) [] tq);
      [by rewrite app_nil_r | done | by right | by left]. }
  assert (qry = []) as ->.
  { assert (forallb is_slash qry = true) as Hall
      by (apply rstrip_nil; by destruct (rstrip is_slash qry)).
    destruct H1 as [?|[?|?]]; [done | congruence | done]. }
  destruct (nonempty (rstrip is_slash pth1)) eqn:Hp.
  { (* the path keeps a character *)
    rewrite rstrip_url_text_path in * by done.
    destruct (rstrip_prefix is_slash pth1) as (tp & Hp' & _).
    apply (Hsecond (rstrip is_slash pth1) [] tp []); [done | done | by left | by left]. }
  assert (forallb is_slash pth1 = true) as Hall
    by (apply rstrip_nil; by destruct (rstrip is_slash pth1)).
  destruct w.
  - destruct nl as [|c nl].
    + (* a scheme alone *)
      destruct (writes_authority_true sch [] pth) as (x & Hx & _ & _ & Hnil);
        [done | done |].
      destruct (Hnil eq_refl) as [Hst Huses].
      simpl in Hpth1. rewrite <- Hpth1 in Hx. subst x.
      destruct (slashes_short pth1 Hall Hst) as [Hp1 | Hp1].
      * assert (scheme_like sch = true ∧ map lower_char sch = sch) as [Hlike Hlow].
        { destruct (split_scheme_inv _ _ _ Hss) as [[-> _]|(s0 & _ & -> & Hl)];
            [done | by apply scheme_like_lower]. }
        apply andb_true_iff in Huses as [Hne Huses].
        assert (rstrip is_slash (url_text sch true [] pth1 [])
                = (sch ++ [colon])%list) as ->.
        { rewrite Hp1. unfold url_text, query_text. rewrite Hne. simpl.
          change (slash :: slash :: []) with ([slash; slash] ++ [])%list.
          rewrite rstrip_app. simpl. apply rstrip_id.
          change [colon] with ([] ++ [colon])%list.
          by rewrite app_assoc, ends_with_slash_app. }
        by apply canonicalize_bare_scheme.
      * exfalso. apply Hnp. rewrite Hp1 in Hpth1.
        destruct pth as [|c [|c' pth]]; simpl in Hpth1; [done | | ].
        -- destruct (negb (Ascii.eqb c slash)); by simplify_eq.
        -- destruct (negb (Ascii.eqb c slash)); by simplify_eq.
    + rewrite rstrip_url_text_netloc in * by done.
      apply (Hsecond [] [] pth1 []); [done | done | by left | by left].
  - destruct (writes_authority_false sch nl pth H2 Hw) as (-> & Hst & _).
    simpl in Hpth1. subst pth1.
    destruct (slashes_short pth Hall Hst) as [-> | ->]; [|done].
    exfalso. revert Hend. unfold url_text, query_text. simpl.
    rewrite !app_nil_r. destruct sch as [|c sch]; [done|].
    simpl nonempty. cbn iota.
    change (c :: sch) with ([c] ++ sch)%list.
    rewrite <- app_assoc. simpl. rewrite app_comm_cons.
    by rewrite ends_with_slash_app.
Qed.

(** *** What the result looks like *)

Lemma no_delim_no_hash l :
  forallb (λ c, negb (is_netloc_delim c)) l = true → has_char hash l = false.
Proof.
  intros Hl. apply has_char_false, Forall_forall. intros x Hx ->.
  rewrite forallb_forall in Hl. apply list_elem_of_In, Hl in Hx. done.
Qed.

Lemma scheme_like_no_delim s :
  scheme_like s = true → forallb (λ c, negb (is_netloc_delim c)) s = true.
Proof.
  destruct s as [|c s]; [done|]. unfold scheme_like.
  rewrite andb_true_iff. intros [_ Hs]. rewrite forallb_forall in Hs.
  apply forallb_forall. intros x Hx.
  by destruct (scheme_char_plain x (Hs x Hx)) as (_ & -> & _).
Qed.

(** The result holds no [#], and ends with a slash only when the path of
    the URL is exactly [/]. *)
Lemma canonicalize_shape `{NetlocChecks} u p c :
  urlsplit u = Some p →
  canonicalize u = Some c →
  has_char hash c = false ∧ (ends_with_slash c = true → path p = [slash]).
Proof.
  intros Hsplit. unfold canonicalize. rewrite Hsplit.
  destruct (urlsplit_inv u p Hsplit)
    as (u1 & qt & ft & Hss & _ & _ & Hfree & _ & _ & Hh & Hhq & _).
  destruct p as [sch nl pth qry frag]. cbn [scheme netloc path query] in *.
  rewrite urlunsplit_text.
  set (w := writes_authority sch nl pth).
  set (pth1 := if w && (nonempty pth && no_leading_slash pth)
               then slash :: pth else pth).
  assert (has_char hash (url_text sch w nl pth1 qry) = false) as Hclean.
  { unfold url_text. rewrite !has_char_app.
    assert (has_char hash (if nonempty sch then sch ++ [colon] else []) = false)
      as ->.
    { destruct (split_scheme_inv _ _ _ Hss) as [[-> _]|(s0 & _ & -> & Hl)]; [done|].
      destruct (nonempty (map lower_char s0)); [|done].
      rewrite has_char_app. apply scheme_like_lower in Hl as [Hl _].
      by rewrite (no_delim_no_hash _ (scheme_like_no_delim _ Hl)). }
    assert (has_char hash (if w then [slash; slash] ++ nl else []) = false) as ->.
    { destruct w; [|done]. simpl. by apply no_delim_no_hash. }
    assert (has_char hash pth1 = false) as ->.
    { unfold pth1. by destruct (w && (nonempty pth && no_leading_slash pth)). }
    by rewrite has_char_query_text. }
  destruct (ends_with_slash (url_text sch w nl pth1 qry) &&
            negb (bool_decide (pth = [slash]))) eqn:Hstrip; intros [= <-].
  - split.
    + destruct (rstrip_prefix is_slash (url_text sch w nl pth1 qry)) as (t & Ht & _).
      rewrite Ht in Hclean. by apply has_char_prefix in Hclean.
    + by rewrite ends_with_slash_rstrip.
  - split; [done|]. intros Hend. rewrite Hend in Hstrip. simpl in Hstrip.
    by apply negb_false_iff, bool_decide_eq_true in Hstrip.
Qed.

(** C10, amended. [canonicalize_url] drops the fragment and strips the
    trailing slashes unless the path is exactly [/]. Applied to its own
    result it returns that result again, for every URL that [urlsplit]
    accepts, except a URL whose query is one or more slashes and nothing
    else while its path is not [/], and, with the [urlunsplit] of this
    version, a URL with an empty netloc whose path starts with [//]. *)
Theorem canonicalize_url_idempotent `{NetlocChecks} (u : string) (p : url_parts) :
  urlsplit (list_ascii_of_string u) = Some p →
  (query p = [] ∨ forallb is_slash (query p) = false ∨ path p = [slash]) →
  (netloc p ≠ [] ∨ starts_with_2slash (path p) = false) →
  ∃ c : string,
    canonicalize_url u = Some c ∧
    canonicalize_url c = Some c ∧
    has_char hash (list_ascii_of_string c) = false ∧
    (ends_with_slash (list_ascii_of_string c) = true → path p = [slash]).
Proof.
  intros Hsplit H1 H2.
  destruct (canonicalize_idempotent _ p Hsplit H1 H2) as (c & Hc & Hcc).
  destruct (canonicalize_shape _ p c Hsplit Hc) as [Hhash Hend].
  exists (string_of_list_ascii c). unfold canonicalize_url.
  rewrite list_ascii_of_string_of_list_ascii, Hc, Hcc. done.
Qed.

Lemma canonicalize_url_idempotent_witness :
  ∃ c : string,
    @canonicalize_url lenient_checks "http://a/b/#x" = Some c ∧
    @canonicalize_url lenient_checks c = Some c ∧
    has_char hash (list_ascii_of_string c) = false ∧
    (ends_with_slash (list_ascii_of_string c) = true →
     list_ascii_of_string "/b/" = [slash]).
Proof.
  apply (@canonicalize_url_idempotent lenient_checks "http://a/b/#x"
           (UrlParts (list_ascii_of_string "http") (list_ascii_of_string "a")
              (list_ascii_of_string "/b/") [] (list_ascii_of_string "x"))).
  - vm_compute. reflexivity.
  - by left.
  - left. by vm_compute.
Defined.

(** Why the empty netloc is set apart: [urlunsplit] writes a path that
    starts with two slashes back without the authority marker, and the
    second pass reads a netloc in it, here one that [urlsplit] rejects. *)
Example canonicalize_url_empty_netloc (C : NetlocChecks) :
  canonicalize_url "////[" = Some "//["%string ∧
  canonicalize_url "//[" = None.
Proof. split; reflexivity. Qed.

(** A URL with a real query and a trailing slash in it: one pass is enough. *)
Example canonicalize_url_query (C : NetlocChecks) :
  canonicalize_url "https://www.partsgeek.com/catalog/?page=2/#top"
    = Some "https://www.partsgeek.com/catalog/?page=2"%string ∧
  canonicalize_url "https://www.partsgeek.com/catalog/?page=2"
    = Some "https://www.partsgeek.com/catalog/?page=2"%string.
Proof. split; reflexivity. Qed.

(* ===================================================================== *)
(** * Part III. Further properties of the store, the repair and the URLs *)
(* ===================================================================== *)

(** ** Counting rows *)

Lemma size_filter_insert {V} (P : string * V → Prop) `{!∀ x, Decision (P x)}
    (m : gmap string V) i x :
  m !! i = None →
  size (filter P (<[i := x]> m)) =
    ((if decide (P (i, x)) then 1 else 0) + size (filter P m))%nat.
Proof.
  intros Hi. case_decide as HP.
  - rewrite map_filter_insert_True by done.
    rewrite map_size_insert_None; [done|].
    apply map_lookup_filter_None. by left.
  - rewrite map_filter_insert_False by done. by rewrite delete_id.
Qed.

Lemma size_filter_zero {V} (P : string * V → Prop) `{!∀ x, Decision (P x)}
    (m : gmap string V) :
  size (filter P m) = 0%nat ↔ ∀ i x, m !! i = Some x → ¬ P (i, x).
Proof.
  rewrite map_size_empty_iff. split.
  - intros Hempty i x Hi HP.
    assert (filter P m !! i = Some x) as Hin by by apply map_lookup_filter_Some.
    by rewrite Hempty in Hin.
  - intros Hnone. apply map_eq. intros i. rewrite lookup_empty.
    apply map_lookup_filter_None. right. intros x Hi. by apply Hnone.
Qed.

Lemma size_filter_status (P : string * queue_row → Prop) `{!∀ x, Decision (P x)}
    (m : gmap string queue_row) :
  size (filter P m) =
    (size (filter (λ kv, P kv ∧ q_status kv.2 = Done) m) +
     size (filter (λ kv, P kv ∧ q_status kv.2 = Pending) m) +
     size (filter (λ kv, P kv ∧ q_status kv.2 = Error) m))%nat.
Proof.
  induction m as [|i x m Hi IH] using map_ind.
  - by rewrite !map_filter_empty, !map_size_empty.
  - rewrite !size_filter_insert by done. rewrite IH.
    destruct (q_status x) eqn:Hst;
      repeat case_decide; simpl in *; try lia;
      intuition congruence.
Qed.

(** X1. The four numbers of [category_counts] add up: every category item
    is done, pending or in error, so total = done + pending + error. *)
Theorem category_counts_total (s : store) :
  n_total (category_counts s) =
    (n_done (category_counts s) + n_pending (category_counts s) +
     n_error (category_counts s))%nat.
Proof.
  unfold category_counts; cbn [n_total n_done n_pending n_error].
  apply (size_filter_status (λ kv, q_kind kv.2 = Category)).
Qed.

Lemma discovered_in_spec c s url :
  discovered_in c s url = true ↔
  ∃ d, product_discovery s !! url = Some d ∧ pd_category_url d = Some c.
Proof.
  unfold discovered_in. destruct (product_discovery s !! url) as [d|].
  - rewrite bool_decide_eq_true. split.
    + intros Hc. by exists d.
    + by intros (d' & [= <-] & Hc).
  - split; [done | by intros (d & ? & _)].
Qed.

(** X2. The three status counts of [product_counts_for_category] never
    exceed its total: the product items counted are among the discoveries
    made under the category, each counted once. *)
Theorem product_counts_bounded (category_url : string) (s : store) :
  (n_done (product_counts_for_category category_url s) +
   n_pending (product_counts_for_category category_url s) +
   n_error (product_counts_for_category category_url s)
   ≤ n_total (product_counts_for_category category_url s))%nat.
Proof.
  unfold product_counts_for_category; cbn [n_total n_done n_pending n_error].
  set (P := λ kv : string * queue_row,
         q_kind kv.2 = Product ∧ discovered_in category_url s kv.1 = true).
  assert (∀ st, filter (λ kv : string * queue_row,
              q_kind kv.2 = Product ∧ q_status kv.2 = st ∧
              discovered_in category_url s kv.1 = true) (queue s) =
            filter (λ kv, P kv ∧ q_status kv.2 = st) (queue s)) as Heq.
  { intros st. apply map_filter_ext. intros i x _. unfold P. tauto. }
  rewrite !Heq, <- (size_filter_status P).
  rewrite <- !size_dom. apply subseteq_size.
  intros url. rewrite !elem_of_dom. intros [r Hr].
  apply map_lookup_filter_Some in Hr as (_ & _ & Hd).
  apply discovered_in_spec in Hd as (d & Hd & Hc).
  exists d. by apply map_lookup_filter_Some.
Qed.

(** ** The worker's exit test *)

Lemma count_pending_zero s :
  count_pending s = 0%nat ↔
  ∀ url r, queue s !! url = Some r → q_status r ≠ Pending.
Proof. unfold count_pending. by rewrite size_filter_zero. Qed.

(** X3. [count_pending] is 0 exactly when no item is pending, and then
    [reserve_next] finds nothing and leaves the database as it is: the
    worker, which stops on this pair of answers, stops with no work left
    behind. *)
Theorem count_pending_zero_exit (now : Z) (s : store) :
  (count_pending s = 0%nat ↔
   ∀ url r, queue s !! url = Some r → q_status r ≠ Pending) ∧
  (count_pending s = 0%nat → reserve_next now s = (None, s)).
Proof.
  split; [apply count_pending_zero|].
  intros Hzero. unfold reserve_next.
  destruct (select_next s) as [[url row]|] eqn:Hsel; [|done].
  apply select_next_Some in Hsel as [Hin _].
  apply elem_of_candidates in Hin as (Hq & Hst & _).
  by destruct (proj1 (count_pending_zero s) Hzero url row Hq).
Qed.

(** X4. When [reserve_next] finds nothing although [count_pending] is not
    0, some pending item exists and every pending item is locked: the
    worker's wait-and-retry branch is entered only while other workers (or
    stale locks) hold all that is left. *)
Theorem reserve_next_none_all_locked (now : Z) (s : store) :
  (reserve_next now s).1 = None →
  count_pending s ≠ 0%nat →
  (∃ url r, queue s !! url = Some r ∧ q_status r = Pending) ∧
  (∀ url r, queue s !! url = Some r → q_status r = Pending →
     is_Some (locks s !! url)).
Proof.
  intros Hnone Hcount.
  assert (∀ url r, queue s !! url = Some r → q_status r = Pending →
            is_Some (locks s !! url)) as Hall.
  { intros url r Hq Hst.
    destruct (locks s !! url) as [l|] eqn:Hl; [by eexists|].
    unfold reserve_next in Hnone.
    destruct (select_next s) as [[u row]|] eqn:Hsel; [done|].
    apply select_next_None in Hsel.
    assert ((url, r) ∈ candidates s) as Hin by by apply elem_of_candidates.
    rewrite Hsel in Hin. by apply elem_of_nil in Hin. }
  split; [|done].
  destruct (decide (∃ url r, queue s !! url = Some r ∧ q_status r = Pending))
    as [|Hno]; [done|].
  destruct Hcount. apply count_pending_zero. intros url r Hq Hst.
  apply Hno. by exists url, r.
Qed.

Lemma reserve_next_none_all_locked_witness :
  let s := (reserve_next 2 (upsert_queue "p" Product 1 empty_store)).2 in
  (reserve_next 3 s).1 = None ∧ count_pending s ≠ 0%nat ∧
  is_Some (locks s !! "p").
Proof.
  intros s.
  assert ((reserve_next 3 s).1 = None) as H1 by (vm_compute; reflexivity).
  assert (count_pending s ≠ 0%nat) as H2 by (vm_compute; discriminate).
  split; [done|]. split; [done|].
  apply (proj2 (reserve_next_none_all_locked 3 s H1 H2) "p"
           (new_queue_row Product 1)); vm_compute; reflexivity.
Defined.

Lemma size_filter_alter {V} (P : string * V → Prop) `{!∀ x, Decision (P x)}
    (f : V → V) (m : gmap string V) i x :
  m !! i = Some x →
  (size (filter P (alter f i m)) + (if decide (P (i, x)) then 1 else 0) =
   size (filter P m) + (if decide (P (i, f x)) then 1 else 0))%nat.
Proof.
  intros Hi.
  assert (m = <[i := x]> (delete i m)) as Hm.
  { apply map_eq. intros j. destruct (decide (j = i)) as [->|Hne].
    - by rewrite lookup_insert_eq.
    - by rewrite lookup_insert_ne, lookup_delete_ne. }
  assert (alter f i m = <[i := f x]> (delete i m)) as Ha.
  { apply map_eq. intros j. destruct (decide (j = i)) as [->|Hne].
    - by rewrite lookup_alter_eq, lookup_insert_eq, Hi.
    - by rewrite lookup_alter_ne, lookup_insert_ne, lookup_delete_ne. }
  rewrite Ha. rewrite Hm at 2.
  rewrite !size_filter_insert by apply lookup_delete_eq. lia.
Qed.

Lemma alter_absent {V} (f : V → V) (m : gmap string V) i :
  m !! i = None → alter f i m = m.
Proof.
  intros Hi. apply map_eq. intros j. destruct (decide (j = i)) as [->|Hne].
  - by rewrite lookup_alter_eq, Hi.
  - by rewrite lookup_alter_ne.
Qed.

(** X5. [upsert_queue] raises [count_pending] by one when the URL is new
    and leaves it alone when the URL is already queued, whatever the
    status of the queued item. *)
Theorem upsert_queue_count_pending (url : string) (k : kind) (now : Z) (s : store) :
  count_pending (upsert_queue url k now s) =
    (count_pending s + (if decide (is_Some (queue s !! url)) then 0 else 1))%nat.
Proof.
  unfold count_pending, upsert_queue, insert_or_ignore.
  destruct s as [q l c pd p]; cbn [queue with_queue].
  destruct (q !! url) as [r|] eqn:Hq.
  - rewrite decide_True by by eexists. lia.
  - rewrite decide_False by by intros [? [=]].
    rewrite size_filter_insert by done.
    rewrite decide_True by done. lia.
Qed.

(** X6. Recording an outcome takes exactly the recorded item out of the
    pending count: [mark_done] and [mark_error] lower [count_pending] by
    one when the item was pending and do not change it otherwise (the item
    was done, in error, or not queued). *)
Theorem outcome_count_pending (url err : string) (now : Z) (s : store) :
  let was_pending := if decide (status_of url s = Some Pending) then 1%nat else 0%nat in
  (count_pending (mark_done url now s) + was_pending)%nat = count_pending s ∧
  (count_pending (mark_error url err now s) + was_pending)%nat = count_pending s.
Proof.
  unfold count_pending, mark_done, mark_error, update_url, status_of.
  destruct s as [q l c pd p]; cbn [queue with_queue with_locks].
  destruct (q !! url) as [r|] eqn:Hq; cbn [fmap option_fmap option_map].
  - pose proof (size_filter_alter (λ kv, q_status kv.2 = Pending)
                  (set_done now) q url r Hq) as Hd.
    pose proof (size_filter_alter (λ kv, q_status kv.2 = Pending)
                  (set_error (str_prefix 1000 err) now) q url r Hq) as He.
    cbn [fst snd set_done set_error q_status] in Hd, He.
    rewrite (decide_False (P := Done = Pending)) in Hd by done.
    rewrite (decide_False (P := Error = Pending)) in He by done.
    destruct (decide (q_status r = Pending)) as [Hst|Hst].
    + rewrite decide_True by by rewrite Hst. lia.
    + rewrite decide_False by (intros [= ?]; done). lia.
  - rewrite !alter_absent by done. rewrite decide_False by done. lia.
Qed.

(** X7. Reserving an item does not change [count_pending]: a reserved item
    still counts as pending until its outcome is recorded, so a worker that
    finds nothing to reserve keeps waiting while others are still at work. *)
Theorem reserve_next_count_pending (now : Z) (s : store) (url : string) (k : kind) :
  (reserve_next now s).1 = Some (url, k) →
  count_pending (reserve_next now s).2 = count_pending s ∧
  (0 < count_pending (reserve_next now s).2)%nat.
Proof.
  intros Hres.
  assert (count_pending (reserve_next now s).2 = count_pending s) as Heq.
  { unfold count_pending. by rewrite reserve_next_queue. }
  split; [done|]. rewrite Heq.
  unfold reserve_next in Hres.
  destruct (select_next s) as [[u row]|] eqn:Hsel; [|done].
  apply select_next_Some in Hsel as [Hin _].
  apply elem_of_candidates in Hin as (Hq & Hst & _).
  destruct (count_pending s) eqn:Hsz; [|lia].
  by destruct (proj1 (count_pending_zero s) Hsz u row Hq).
Qed.

Lemma reserve_next_count_pending_witness :
  (reserve_next 9 sample_queue).1 = Some ("r", Catalog) ∧
  count_pending (reserve_next 9 sample_queue).2 = count_pending sample_queue.
Proof.
  assert ((reserve_next 9 sample_queue).1 = Some ("r", Catalog)) as H
    by (vm_compute; reflexivity).
  split; [done|].
  exact (proj1 (reserve_next_count_pending 9 sample_queue "r" Catalog H)).
Defined.

(** ** Seeding and discovery *)

(** X8. On a new database [seed_catalog] makes the root the one item to
    reserve: the next [reserve_next] returns it with kind catalog and locks
    it, and a [reserve_next] after that finds nothing. *)
Theorem seed_catalog_first (url : string) (now t1 t2 : Z) :
  let s0 := seed_catalog url now empty_store in
  let s1 := (reserve_next t1 s0).2 in
  (reserve_next t1 s0).1 = Some (url, Catalog) ∧
  locks s1 !! url = Some (LockRow (Some t1)) ∧
  reserve_next t2 s1 = (None, s1).
Proof.
  intros s0 s1.
  assert (queue s0 = {[url := new_queue_row Catalog now]}) as Hq0 by done.
  assert (locks s0 = ∅) as Hl0 by done.
  assert (select_next s0 = Some (url, new_queue_row Catalog now)) as Hsel.
  { destruct (select_next s0) as [[u row]|] eqn:Hsel.
    - apply select_next_Some in Hsel as [Hin _].
      apply elem_of_candidates in Hin as (Hq & _).
      rewrite Hq0 in Hq. apply lookup_singleton_Some in Hq as [<- <-]. done.
    - apply select_next_None in Hsel.
      assert ((url, new_queue_row Catalog now) ∈ candidates s0) as Hin.
      { apply elem_of_candidates. rewrite Hq0, Hl0.
        by rewrite lookup_singleton_eq, lookup_empty. }
      rewrite Hsel in Hin. by apply elem_of_nil in Hin. }
  assert (locks s1 !! url = Some (LockRow (Some t1))) as Hl1.
  { unfold s1, reserve_next. rewrite Hsel. cbn [snd].
    clearbody s0. destruct s0 as [q l c pd p]. cbn [locks with_locks] in *.
    unfold insert_or_ignore. rewrite Hl0, lookup_empty.
    by rewrite lookup_insert_eq. }
  split; [|split; [done|]].
  - unfold reserve_next. by rewrite Hsel.
  - unfold reserve_next.
    destruct (select_next s1) as [[u row]|] eqn:Hsel1; [|done].
    apply select_next_Some in Hsel1 as [Hin _].
    apply elem_of_candidates in Hin as (Hq & _ & Hl).
    unfold s1 in Hq. rewrite reserve_next_queue, Hq0 in Hq.
    apply lookup_singleton_Some in Hq as [<- <-]. congruence.
Qed.

(** X9. Seeding again changes nothing: when the queue already has an item
    for the root URL, whatever its status, [seed_catalog] leaves the whole
    database as it is, so a restarted crawl does not start over. *)
Theorem seed_catalog_restart (url : string) (now : Z) (s : store) :
  is_Some (queue s !! url) → seed_catalog url now s = s.
Proof.
  intros [r Hr]. destruct s as [q l c pd p]. cbn [queue] in Hr.
  unfold seed_catalog, with_queue, insert_or_ignore.
  cbn [queue locks categories product_discovery products]. by rewrite Hr.
Qed.

Lemma seed_catalog_restart_witness :
  let s := mark_done "r" 7 (seed_catalog "r" 1 empty_store) in
  is_Some (queue s !! "r") ∧ seed_catalog "r" 9 s = s.
Proof.
  intros s.
  assert (is_Some (queue s !! "r")) as H by (vm_compute; by eexists).
  split; [done|]. exact (seed_catalog_restart "r" 9 s H).
Defined.

(** X10. The first discovery of a category wins: [insert_category] stores
    the name and time on a new URL, changes nothing on a URL already
    stored, and never touches another table or another category. *)
Theorem insert_category_first (url name : string) (now : Z) (s : store) :
  let s' := insert_category url name now s in
  categories s' !! url =
    Some (default (CategoryRow (Some name) (Some now)) (categories s !! url)) ∧
  (∀ u, u ≠ url → categories s' !! u = categories s !! u) ∧
  (∀ name2 now2, insert_category url name2 now2 s' = s') ∧
  queue s' = queue s ∧ locks s' = locks s ∧
  product_discovery s' = product_discovery s ∧ products s' = products s.
Proof.
  destruct s as [q l c pd p]. unfold insert_category, with_categories.
  cbn [queue locks categories product_discovery products].
  repeat split.
  - unfold insert_or_ignore. destruct (c !! url) as [r|] eqn:Hc; cbn.
    + done.
    + by rewrite lookup_insert_eq.
  - intros u Hu. unfold insert_or_ignore. destruct (c !! url); [done|].
    by rewrite lookup_insert_ne.
  - intros name2 now2. by rewrite insert_or_ignore_idemp.
Qed.

(** X11. The first discovery of a product wins: [insert_product_discovery]
    stores title, category and time on a new URL, changes nothing on a URL
    already stored (a product listed under a second category keeps the
    first), and never touches another table or another discovery. *)
Theorem insert_product_discovery_first (url title category_url : string) (now : Z)
    (s : store) :
  let s' := insert_product_discovery url title category_url now s in
  product_discovery s' !! url =
    Some (default (DiscoveryRow (Some title) (Some category_url) (Some now))
            (product_discovery s !! url)) ∧
  (∀ u, u ≠ url → product_discovery s' !! u = product_discovery s !! u) ∧
  (∀ title2 category2 now2,
     insert_product_discovery url title2 category2 now2 s' = s') ∧
  queue s' = queue s ∧ locks s' = locks s ∧
  categories s' = categories s ∧ products s' = products s.
Proof.
  destruct s as [q l c pd p].
  unfold insert_product_discovery, with_product_discovery.
  cbn [queue locks categories product_discovery products].
  repeat split.
  - unfold insert_or_ignore. destruct (pd !! url) as [r|] eqn:Hc; cbn.
    + done.
    + by rewrite lookup_insert_eq.
  - intros u Hu. unfold insert_or_ignore. destruct (pd !! url); [done|].
    by rewrite lookup_insert_ne.
  - intros t2 c2 now2. by rewrite insert_or_ignore_idemp.
Qed.

(** ** Results *)

(** X12. [product_exists] follows the results table and nothing else. For
    data that the database can hold (a [stock] within 64 bits),
    [upsert_product] returns and [product_exists] is then true for the URL
    of the data and unchanged for every other URL. It is false right after
    [delete_products] has named the URL and unchanged by it for every
    other URL, and no queue operation or discovery, and no
    [upsert_product] for another URL, changes its answer. *)
Theorem product_exists_round_trip (d : product_data) (now1 now2 : Z)
    (urls : list string) (url : string) (s : store) :
  (∀ z, d_stock d = Some z → - 2 ^ 63 ≤ z < 2 ^ 63) →
  (∃ s', upsert_product d now1 now2 s = Some s' ∧
     product_exists url s' = bool_decide (url = d_url d) || product_exists url s) ∧
  product_exists url (delete_products urls s) =
    bool_decide (url ∉ urls) && product_exists url s ∧
  (∀ o, match o with
        | DeleteProducts _ => True
        | UpsertProduct d' _ _ =>
            url ≠ d_url d' → product_exists url (exec o s) = product_exists url s
        | _ => product_exists url (exec o s) = product_exists url s
        end).
Proof.
  intros Hfit. unfold product_exists. split; [|split].
  - destruct (upsert_product_binds d now1 now2 s (proj2 (binds_spec d) Hfit))
      as [s' Hs'].
    destruct (upsert_product_Some d now1 now2 s s' Hs')
      as (_ & _ & _ & _ & Hrow & Hother).
    exists s'. split; [done|].
    destruct (decide (url = d_url d)) as [->|Hne].
    + rewrite Hrow, bool_decide_eq_true_2 by done.
      by rewrite bool_decide_eq_true_2 by by eexists.
    + rewrite (bool_decide_eq_false_2 (url = d_url d)) by done.
      by rewrite Hother.
  - unfold delete_products, with_products. cbn [products].
    rewrite delete_urls_lookup. destruct (decide (url ∈ urls)) as [Hin|Hin].
    + rewrite (bool_decide_eq_false_2 (url ∉ urls)) by tauto.
      apply bool_decide_eq_false_2. by intros [? [=]].
    + by rewrite (bool_decide_eq_true_2 (url ∉ urls)) by done.
  - intros o. destruct o as [| | | | | | |d' t1 t2| | |]; try done; cbn [exec].
    + by rewrite reserve_next_products.
    + intros Hne.
      destruct (upsert_product d' t1 t2 s) as [s'|] eqn:Hs'; [|done].
      destruct (upsert_product_Some _ _ _ _ _ Hs') as (_ & _ & _ & _ & _ & Hother).
      cbn [default]. by rewrite Hother.
    + by rewrite ensure_for_products_products.
Qed.

Lemma product_exists_round_trip_witness :
  ∃ s', upsert_product first_scrape 11 12 empty_store = Some s' ∧
    product_exists "p" s' = true.
Proof.
  destruct (product_exists_round_trip first_scrape 11 12 [] "p" empty_store)
    as ((s' & Hs' & Hex) & _); [intros z [= <-]; lia|].
  exists s'. split; [exact Hs'|]. rewrite Hex. reflexivity.
Defined.

Lemma json_dumps_attrs_has_attrs a :
  no_attrs (Some (json_dumps_attrs a)) = true ↔ a = [].
Proof.
  split; [|by intros ->].
  destruct a as [|[k v] rest]; [done|]. intros Hno. exfalso.
  destruct rest as [|[k' v'] rest]; vm_compute in Hno; discriminate.
Qed.

(** X13. The attribute test of the repair matches what [upsert_product]
    writes. For data that the database can hold, the stored [attrs_json]
    is never NULL or the empty text, and it is the text of an empty object
    exactly when the scraped data has no attribute (the key is absent or
    the dict is empty). *)
Theorem upsert_product_attrs_json (d : product_data) (now1 now2 : Z) (s : store) :
  (∀ z, d_stock d = Some z → - 2 ^ 63 ≤ z < 2 ^ 63) →
  ∃ s' p j,
    upsert_product d now1 now2 s = Some s' ∧
    products s' !! d_url d = Some p ∧
    p_attrs_json p = Some j ∧ j ≠ "" ∧
    (no_attrs (p_attrs_json p) = true ↔ default [] (d_attrs d) = []).
Proof.
  intros Hfit.
  destruct (upsert_product_binds d now1 now2 s (proj2 (binds_spec d) Hfit))
    as [s' Hs'].
  destruct (upsert_product_Some d now1 now2 s s' Hs') as (_ & _ & _ & _ & Hrow & _).
  eexists s', _, (json_dumps_attrs (default [] (d_attrs d))).
  split; [done|]. split; [exact Hrow|].
  assert (json_dumps_attrs (default [] (d_attrs d)) ≠ "") as Hne.
  { unfold json_dumps_attrs. intros [=]. }
  destruct (products s !! d_url d);
    cbn [product_on_conflict product_values p_attrs_json];
    (split; [done|]); (split; [done|]); apply json_dumps_attrs_has_attrs.
Qed.

Lemma upsert_product_attrs_json_witness :
  ∃ s' p,
    upsert_product second_scrape 21 22 empty_store = Some s' ∧
    products s' !! "p" = Some p ∧ no_attrs (p_attrs_json p) = true.
Proof.
  destruct (upsert_product_attrs_json second_scrape 21 22 empty_store)
    as (s' & p & j & Hs' & Hp & _ & _ & Hno); [intros z [=]|].
  exists s', p. split; [exact Hs'|]. split; [exact Hp|]. by apply Hno.
Defined.

Lemma sql_rtrim_nil t :
  sql_rtrim t = "" ↔
  forallb (λ c, Ascii.eqb c space_char) (list_ascii_of_string t) = true.
Proof.
  induction t as [|c t IH]; [done|]. cbn [sql_rtrim list_ascii_of_string forallb].
  destruct (sql_rtrim t) as [|c' r] eqn:Hr.
  - destruct (Ascii.eqb c space_char); cbn [andb]; [|done].
    split; [intros _; by apply IH|done].
  - split; [done|]. intros [_ Hall]%andb_true_iff. by apply IH in Hall.
Qed.

Lemma sql_trim_nil t :
  sql_trim t = "" ↔
  forallb (λ c, Ascii.eqb c space_char) (list_ascii_of_string t) = true.
Proof.
  unfold sql_trim. induction t as [|c t IH]; [done|].
  cbn [sql_ltrim list_ascii_of_string forallb].
  destruct (Ascii.eqb c space_char) eqn:Hc; cbn [andb]; [done|].
  rewrite sql_rtrim_nil. cbn [list_ascii_of_string forallb]. by rewrite Hc.
Qed.

(** X14. [find_empty_products] lists each URL once, and lists exactly the
    stored results that meet its test; a text column counts as blank there
    when it is NULL or made of spaces only (SQL trim removes spaces, not
    tabs or line ends). *)
Theorem find_empty_products_spec (s : store) :
  NoDup (find_empty_products s) ∧
  (∀ url, url ∈ find_empty_products s ↔
     ∃ p, products s !! url = Some p ∧ is_empty_product p = true) ∧
  (∀ t, blank (Some t) = true ↔
     forallb (λ c, Ascii.eqb c space_char) (list_ascii_of_string t) = true).
Proof.
  repeat split.
  - unfold find_empty_products. apply NoDup_fst_map_to_list.
  - by intros ?%elem_of_find_empty_products.
  - by intros ?%elem_of_find_empty_products.
  - cbn [blank]. rewrite String.eqb_eq. apply sql_trim_nil.
  - cbn [blank]. rewrite String.eqb_eq. apply sql_trim_nil.
Qed.

(** ** What holds in every reachable state *)

Lemma row_sound_new k now : row_sound (new_queue_row k now).
Proof. unfold row_sound; cbn. repeat split; try done; try by eexists. Qed.

Lemma row_sound_set_done now r : row_sound r → row_sound (set_done now r).
Proof.
  intros (Htries & _ & _ & _ & Hlen). unfold row_sound; cbn.
  repeat split; try done; try by eexists.
Qed.

Lemma row_sound_set_error msg now r :
  (String.length msg ≤ 1000)%nat → row_sound r → row_sound (set_error msg now r).
Proof.
  intros Hmsg (Htries & _). unfold row_sound; cbn.
  repeat split; try done; try lia; try by eexists.
  by intros m [= <-].
Qed.

Lemma row_sound_set_pending ts r : row_sound (set_pending ts r).
Proof. unfold row_sound; cbn. repeat split; try done; try by eexists. Qed.

Lemma ensure_queue_pending_sound ts s u :
  (∀ url r, queue s !! url = Some r → row_sound r) →
  ∀ url r, queue (ensure_queue_pending ts s u) !! url = Some r → row_sound r.
Proof.
  intros Hs url r. rewrite ensure_queue_pending_queue.
  case_decide as Hu; [|apply Hs]. subst url.
  destruct (queue s !! u) as [r0|] eqn:Hr0.
  - case_decide as Hst; intros [= <-].
    + apply row_sound_set_pending.
    + by apply Hs with u.
  - intros [= <-]. apply row_sound_new.
Qed.

Lemma exec_rows_sound o s :
  (∀ url r, queue s !! url = Some r → row_sound r) →
  ∀ url r, queue (exec o s) !! url = Some r → row_sound r.
Proof.
  intros Hs. destruct o; cbn [exec]; upsert_cases; try done.
  - intros u r. unfold seed_catalog, with_queue. cbn [queue].
    rewrite insert_or_ignore_lookup. destruct (queue s !! u) eqn:Hrow.
    + intros [= <-]. by apply Hs with u.
    + case_decide; [|done]. intros [= <-]. apply row_sound_new.
  - intros u r. unfold upsert_queue, with_queue. cbn [queue].
    rewrite insert_or_ignore_lookup. destruct (queue s !! u) eqn:Hrow.
    + intros [= <-]. by apply Hs with u.
    + case_decide; [|done]. intros [= <-]. apply row_sound_new.
  - intros u r. unfold mark_done, update_url, with_locks, with_queue.
    cbn [queue]. destruct (decide (url = u)) as [->|Hne].
    + rewrite lookup_alter_eq. destruct (queue s !! u) eqn:Hrow; [|done].
      intros [= <-]. apply row_sound_set_done. by apply Hs with u.
    + rewrite lookup_alter_ne by done. apply Hs.
  - intros u r. unfold mark_error, update_url, with_locks, with_queue.
    pose proof (str_prefix_length 1000 err) as Hlen.
    generalize dependent (str_prefix 1000 err). intros msg Hlen.
    cbn [queue]. destruct (decide (url = u)) as [->|Hne].
    + rewrite lookup_alter_eq. destruct (queue s !! u) eqn:Hrow; [|done].
      intros [= <-]. apply row_sound_set_error; [done|].
      by apply Hs with u.
    + rewrite lookup_alter_ne by done. apply Hs.
  - intros u r. rewrite reserve_next_queue. apply Hs.
  - unfold ensure_queue_pending_for_products. revert s Hs.
    induction urls as [|u urls IH]; intros s Hs; simpl; [done|].
    by apply IH, ensure_queue_pending_sound.
  - intros u r. unfold requeue_all_errors, with_locks, with_queue.
    cbn [queue snd]. rewrite update_where_lookup.
    destruct (queue s !! u) as [r0|] eqn:Hr0; [|done]. simpl.
    destruct (is_error r0); intros [= <-].
    + apply row_sound_set_pending.
    + by apply Hs with u.
Qed.

(** X15. In every state the program can bring a new database to, every
    item of the queue has a counter that is not negative and a timestamp
    that is set; a pending item has tries 0 and no last_error; an item in
    error has failed at least once and carries its diagnostic; and no
    stored diagnostic is longer than 1000 characters. *)
Theorem reachable_rows_sound (s : store) (url : string) (r : queue_row) :
  reachable s → queue s !! url = Some r → row_sound r.
Proof.
  intros [ops ->]. revert url r.
  induction ops as [|o ops IH] using rev_ind.
  - intros url r Hrow. done.
  - rewrite run_app. simpl. by apply exec_rows_sound.
Qed.

Lemma reachable_rows_sound_witness :
  let s := run [UpsertQueue "p" Product 1; ReserveNext 2; MarkError "p" "timeout" 3]
             empty_store in
  row_sound (QueueRow Product Error 1 (Some "timeout") (Some 3)).
Proof.
  intros s. apply (reachable_rows_sound s "p").
  - by eexists.
  - vm_compute. reflexivity.
Defined.

Lemma ensure_queue_pending_locks_sound ts s u :
  locks_sound s → locks_sound (ensure_queue_pending ts s u).
Proof.
  intros Hs url l. rewrite ensure_queue_pending_locks, ensure_queue_pending_queue.
  case_decide; [done|]. apply Hs.
Qed.

Lemma exec_locks_sound o s : locks_sound s → locks_sound (exec o s).
Proof.
  intros Hs. destruct o; cbn [exec]; upsert_cases; try exact Hs.
  - intros u l Hl. destruct (Hs u l Hl) as (r & Hr & Hst).
    exists r. split; [|done]. by apply insert_or_ignore_keeps.
  - intros u l Hl. destruct (Hs u l Hl) as (r & Hr & Hst).
    exists r. split; [|done]. by apply insert_or_ignore_keeps.
  - intros u l. unfold mark_done, update_url, with_locks, with_queue.
    cbn [queue locks]. intros [Hne Hl]%lookup_delete_Some.
    rewrite lookup_alter_ne by done. by apply Hs with l.
  - intros u l. unfold mark_error, update_url, with_locks, with_queue.
    cbn [queue locks]. intros [Hne Hl]%lookup_delete_Some.
    rewrite lookup_alter_ne by done. by apply Hs with l.
  - intros u l. rewrite reserve_next_queue. unfold reserve_next.
    destruct (select_next s) as [[v row]|] eqn:Hsel; cbn [snd]; [|apply Hs].
    unfold with_locks. cbn [locks]. rewrite insert_or_ignore_lookup.
    destruct (locks s !! u) as [l0|] eqn:Hl0.
    + intros _. by apply Hs with l0.
    + case_decide as Hv; [|done]. subst v. intros _.
      apply select_next_Some in Hsel as [Hin _].
      apply elem_of_candidates in Hin as (Hq & Hst & _). by exists row.
  - unfold ensure_queue_pending_for_products. revert s Hs.
    induction urls as [|u urls IH]; intros s Hs; simpl; [done|].
    by apply IH, ensure_queue_pending_locks_sound.
  - intros u l. unfold requeue_all_errors, with_locks, with_queue.
    cbn [queue locks snd]. rewrite delete_urls_lookup, update_where_lookup.
    case_decide as Hin; [done|]. intros Hl.
    destruct (Hs u l Hl) as (r & Hr & Hst). exists r. split; [|done].
    rewrite Hr. cbn. unfold is_error.
    by rewrite bool_decide_eq_false_2 by by rewrite Hst.
Qed.

(** X16. In every state the program can bring a new database to, a lock is
    held only on a URL whose item is in the queue and pending: recording an
    outcome removes the lock in the same call, and the repair removes the
    lock of what it re-queues. So once [count_pending] is 0 the lock table
    is empty. *)
Theorem reachable_locks_sound (s : store) :
  reachable s →
  (∀ url l, locks s !! url = Some l →
     ∃ r, queue s !! url = Some r ∧ q_status r = Pending) ∧
  (count_pending s = 0%nat → locks s = ∅).
Proof.
  intros [ops ->].
  assert (locks_sound (run ops empty_store)) as Hsound.
  { induction ops as [|o ops IH] using rev_ind.
    - intros url l Hl. done.
    - rewrite run_app. simpl. by apply exec_locks_sound. }
  split; [exact Hsound|].
  intros Hzero. apply map_eq. intros url. rewrite lookup_empty.
  destruct (locks (run ops empty_store) !! url) as [l|] eqn:Hl; [|done].
  destruct (Hsound url l Hl) as (r & Hr & Hst).
  by destruct (proj1 (count_pending_zero _) Hzero url r Hr).
Qed.

Lemma reachable_locks_sound_witness :
  let s := run [UpsertQueue "p" Product 1; ReserveNext 2] empty_store in
  ∃ r, queue s !! "p" = Some r ∧ q_status r = Pending.
Proof.
  intros s.
  apply (proj1 (reachable_locks_sound s (ex_intro _ _ eq_refl)) "p"
           (LockRow (Some 2))).
  vm_compute. reflexivity.
Defined.

(** ** The repair *)

(** X17. The re-queueing loop of the repair resets an item only when it is
    named and not pending: a named item that is done or in error becomes
    pending with tries 0, no last_error and the new timestamp, while an
    item that is already pending keeps its row, timestamp included, and
    with it its place in the queue order; naming a URL twice changes
    nothing more. *)
Theorem ensure_queue_pending_guard (urls : list string) (ts : Z) (s : store)
    (url : string) (r : queue_row) :
  queue s !! url = Some r →
  queue (ensure_queue_pending_for_products urls ts s) !! url =
    Some (if decide (url ∈ urls ∧ q_status r ≠ Pending)
          then set_pending ts r else r).
Proof.
  unfold ensure_queue_pending_for_products. revert s r.
  induction urls as [|u urls IH]; intros s r Hrow; cbn [foldl].
  - rewrite decide_False; [done|]. intros [Hin _]. by apply elem_of_nil in Hin.
  - pose proof (ensure_queue_pending_queue ts s u url) as Hstep.
    destruct (decide (url = u)) as [->|Hne].
    + rewrite Hrow in Hstep.
      destruct (decide (q_status r ≠ Pending)) as [Hnp|Hp].
      * rewrite (IH _ _ Hstep). cbn [set_pending q_status].
        rewrite decide_False by (intros [_ ?]; done).
        rewrite decide_True; [done|]. split; [|done]. apply elem_of_cons. by left.
      * rewrite (IH _ _ Hstep).
        rewrite decide_False by (intros [_ ?]; done).
        by rewrite decide_False by (intros [_ ?]; done).
    + rewrite Hrow in Hstep. rewrite (IH _ _ Hstep).
      destruct (decide (url ∈ urls ∧ q_status r ≠ Pending)) as [[Hin Hst]|Hno].
      * rewrite decide_True; [done|]. split; [|done]. apply elem_of_cons. by right.
      * rewrite decide_False; [done|]. intros [[?|Hin]%elem_of_cons Hst]; [done|].
        by apply Hno.
Qed.

Lemma ensure_queue_pending_guard_witness :
  let s := mark_done "p" 4 (upsert_queue "q" Product 2
             (upsert_queue "p" Product 1 empty_store)) in
  queue (ensure_queue_pending_for_products ["p"; "q"; "p"] 9 s) !! "q" =
    Some (QueueRow Product Pending 0 None (Some 2)).
Proof.
  intros s.
  assert (queue s !! "q" = Some (QueueRow Product Pending 0 None (Some 2))) as H
    by (vm_compute; reflexivity).
  rewrite (ensure_queue_pending_guard ["p"; "q"; "p"] 9 s "q" _ H).
  vm_compute. reflexivity.
Defined.

Lemma size_filter_requeue ts (m : gmap string queue_row) :
  size (filter (λ kv, q_status kv.2 = Pending)
          (update_where is_error (set_pending ts) m)) =
    (size (filter (λ kv : string * queue_row, q_status kv.2 = Pending) m) +
     size (filter (λ kv : string * queue_row, q_status kv.2 = Error) m))%nat.
Proof.
  unfold update_where. induction m as [|i x m Hi IH] using map_ind.
  - by rewrite fmap_empty, !map_filter_empty, !map_size_empty.
  - rewrite fmap_insert.
    rewrite !size_filter_insert by (by rewrite ?lookup_fmap, ?Hi).
    rewrite IH. unfold is_error. cbn [fst snd].
    destruct (q_status x) eqn:Hst.
    + rewrite bool_decide_eq_false_2 by congruence.
      repeat case_decide; try congruence; lia.
    + rewrite bool_decide_eq_false_2 by congruence.
      repeat case_decide; try congruence; lia.
    + rewrite bool_decide_eq_true_2 by congruence. cbn [set_pending q_status].
      repeat case_decide; try congruence; lia.
Qed.

Lemma requeue_all_errors_none ts s url r :
  queue (requeue_all_errors ts s).2 !! url = Some r → q_status r ≠ Error.
Proof.
  unfold requeue_all_errors, with_locks, with_queue.
  cbn [queue snd]. rewrite update_where_lookup.
  destruct (queue s !! url) as [r0|]; [|done]. cbn. unfold is_error.
  case_bool_decide as Hst; intros [= <-]; done.
Qed.

(** X18. After [requeue_all_errors] no item is in error, and the pending
    count has grown by exactly the number the call returns. *)
Theorem requeue_all_errors_count (ts : Z) (s : store) :
  let s' := (requeue_all_errors ts s).2 in
  (∀ url r, queue s' !! url = Some r → q_status r ≠ Error) ∧
  error_urls s' = [] ∧
  count_pending s' = (count_pending s + (requeue_all_errors ts s).1)%nat.
Proof.
  intros s'.
  assert (∀ url r, queue s' !! url = Some r → q_status r ≠ Error) as Hnone
    by apply requeue_all_errors_none.
  split; [done|]. split.
  - destruct (error_urls s') as [|u l] eqn:Hl; [done|].
    assert (u ∈ error_urls s') as Hin by (rewrite Hl; apply elem_of_cons; by left).
    apply elem_of_error_urls in Hin as (r & Hr & Hst). by destruct (Hnone u r Hr).
  - unfold s', count_pending, requeue_all_errors, with_locks, with_queue.
    cbn [queue fst snd]. rewrite size_filter_requeue. f_equal.
    unfold error_urls. by rewrite length_fmap, length_map_to_list.
Qed.

Lemma repair_main_products ts s url :
  products (repair_main ts s) !! url =
    if decide (url ∈ find_empty_products s) then None else products s !! url.
Proof.
  unfold repair_main, repair_errors, requeue_all_errors, with_locks, with_queue.
  cbn [products snd]. unfold repair_empty_products.
  rewrite ensure_for_products_products.
  unfold delete_products, with_products. cbn [products].
  apply delete_urls_lookup.
Qed.

Lemma repair_main_clean ts s :
  (∀ url r, queue s !! url = Some r → q_status r ≠ Error) →
  (∀ url p, products s !! url = Some p → is_empty_product p = false) →
  repair_main ts s = s.
Proof.
  intros Hq Hp.
  assert (find_empty_products s = []) as Hempty.
  { destruct (find_empty_products s) as [|u l] eqn:Hl; [done|].
    assert (u ∈ find_empty_products s) as Hin
      by (rewrite Hl; apply elem_of_cons; by left).
    apply elem_of_find_empty_products in Hin as (p & Hrow & He).
    by rewrite (Hp u p Hrow) in He. }
  assert (error_urls s = []) as Herr.
  { destruct (error_urls s) as [|u l] eqn:Hl; [done|].
    assert (u ∈ error_urls s) as Hin by (rewrite Hl; apply elem_of_cons; by left).
    apply elem_of_error_urls in Hin as (r & Hr & Hst). by destruct (Hq u r Hr). }
  assert (update_where is_error (set_pending ts) (queue s) = queue s) as Hsame.
  { apply map_eq. intros url. rewrite update_where_lookup.
    destruct (queue s !! url) as [r|] eqn:Hr; [|done]. cbn. unfold is_error.
    by rewrite bool_decide_eq_false_2 by by apply Hq with url. }
  unfold repair_main, repair_empty_products. rewrite Hempty.
  assert (ensure_queue_pending_for_products [] ts (delete_products [] s) = s) as ->
    by by destruct s.
  unfold repair_errors, requeue_all_errors. rewrite Herr. cbn [snd].
  unfold with_locks, with_queue. cbn [queue locks categories product_discovery products].
  rewrite Hsame. by destruct s.
Qed.

(** X19. After a run of the repair ([main] of repair.py, both passes) no
    item is in error and no stored result meets the empty-result test, and
    a second run, at any later time, changes nothing. *)
Theorem repair_main_settles (ts ts2 : Z) (s : store) :
  let s' := repair_main ts s in
  (∀ url r, queue s' !! url = Some r → q_status r ≠ Error) ∧
  (∀ url p, products s' !! url = Some p → is_empty_product p = false) ∧
  repair_main ts2 s' = s'.
Proof.
  intros s'.
  assert (∀ url r, queue s' !! url = Some r → q_status r ≠ Error) as Hq.
  { apply (requeue_all_errors_none ts (repair_empty_products ts s)). }
  assert (∀ url p, products s' !! url = Some p → is_empty_product p = false) as Hp.
  { intros url p. unfold s'. rewrite repair_main_products.
    case_decide as Hin; [done|]. intros Hrow.
    destruct (is_empty_product p) eqn:He; [|done].
    destruct Hin. apply elem_of_find_empty_products. by exists p. }
  split; [done|]. split; [done|]. by apply repair_main_clean.
Qed.

(** ** canonicalize_url and the fragment *)

Lemma split1_app d a g :
  split1 d (a ++ g) =
    match split1 d a with
    | Some (x, y) => Some (x, (y ++ g)%list)
    | None =>
        match split1 d g with
        | Some (x, y) => Some ((a ++ x)%list, y)
        | None => None
        end
    end.
Proof.
  induction a as [|c a IH]; cbn [app split1].
  - by destruct (split1 d g) as [[x y]|].
  - destruct (Ascii.eqb c d); [done|]. rewrite IH.
    destruct (split1 d a) as [[x y]|]; [done|].
    by destruct (split1 d g) as [[x y]|].
Qed.

Lemma remove_char_app b x y :
  remove_char b (x ++ y) = (remove_char b x ++ remove_char b y)%list.
Proof.
  induction x as [|c x IH]; cbn [app remove_char]; [done|].
  rewrite IH. by destruct (Ascii.eqb c b).
Qed.

Lemma has_char_remove_char c b l :
  has_char c l = false → has_char c (remove_char b l) = false.
Proof.
  rewrite !has_char_false, !Forall_forall.
  intros Hl x Hx. apply remove_char_spec in Hx as [Hx _]. by apply Hl.
Qed.

Lemma strip_unsafe_fragment u f :
  ∃ f', strip_unsafe (u ++ hash :: f) = (strip_unsafe u ++ hash :: f')%list.
Proof.
  exists (foldl (λ u b, remove_char b u) f unsafe_bytes).
  unfold strip_unsafe. rewrite lstrip_app.
  assert (lstrip is_c0_or_space (hash :: f) = hash :: f) as Hf by done.
  assert ((if nonempty (lstrip is_c0_or_space u)
           then (lstrip is_c0_or_space u ++ hash :: f)%list
           else lstrip is_c0_or_space (hash :: f)) =
          (lstrip is_c0_or_space u ++ hash :: f)%list) as ->.
  { rewrite Hf. by destruct (lstrip is_c0_or_space u). }
  unfold unsafe_bytes. cbn [foldl]. by rewrite !remove_char_app.
Qed.

Lemma strip_unsafe_no_hash u :
  has_char hash u = false → has_char hash (strip_unsafe u) = false.
Proof.
  intros Hu. unfold strip_unsafe, unsafe_bytes. cbn [foldl].
  do 3 apply has_char_remove_char.
  destruct (lstrip_suffix is_c0_or_space u) as (a & Heq & _).
  rewrite Heq, has_char_app in Hu. by apply orb_false_iff in Hu as [_ ?].
Qed.

Lemma hash_not_scheme_char l x :
  forallb is_scheme_char (l ++ hash :: x) = false.
Proof.
  induction l as [|c l IH]; cbn [app forallb]; [done|].
  rewrite IH. apply andb_false_r.
Qed.

Lemma split_scheme_fragment v g :
  split_scheme (v ++ hash :: g) =
    ((split_scheme v).1, ((split_scheme v).2 ++ hash :: g)%list).
Proof.
  unfold split_scheme. rewrite split1_app.
  destruct (split1 colon v) as [[pre post]|].
  - destruct pre as [|c pre]; [done|].
    by destruct (is_ascii_alpha c && forallb is_scheme_char (c :: pre)).
  - change (split1 colon (hash :: g)) with
      (match split1 colon g with
       | Some (a, b) => Some (hash :: a, b)
       | None => None
       end).
    destruct (split1 colon g) as [[a b]|]; [|done].
    destruct (v ++ hash :: a)%list as [|c pre] eqn:Hpre; [done|].
    rewrite <- Hpre, hash_not_scheme_char. by rewrite andb_false_r.
Qed.

Lemma split_scheme_no_hash v :
  has_char hash v = false → has_char hash (split_scheme v).2 = false.
Proof.
  intros Hv. destruct (split_scheme v) as [s u1] eqn:Hsplit.
  apply split_scheme_inv in Hsplit as [[_ ->]|(s0 & Heq & _)]; [done|].
  rewrite Heq, has_char_app in Hv. apply orb_false_iff in Hv as [_ Hv].
  cbn [snd]. exact Hv.
Qed.

Lemma starts_with_2slash_fragment u1 g :
  starts_with_2slash (u1 ++ hash :: g) = starts_with_2slash u1.
Proof.
  destruct u1 as [|a [|b u1]]; cbn [app starts_with_2slash]; [|apply andb_false_r|done].
  by destruct g.
Qed.

Lemma take_drop_until_fragment w g :
  take_until is_netloc_delim (w ++ hash :: g) = take_until is_netloc_delim w ∧
  drop_until is_netloc_delim (w ++ hash :: g) =
    (drop_until is_netloc_delim w ++ hash :: g)%list.
Proof.
  induction w as [|c w [IH1 IH2]]; cbn [app take_until drop_until]; [done|].
  destruct (is_netloc_delim c); [done|]. by rewrite IH1, IH2.
Qed.

Lemma has_char_drop c n l : has_char c l = false → has_char c (drop n l) = false.
Proof.
  intros Hl. rewrite <- (take_drop n l), has_char_app in Hl.
  by apply orb_false_iff in Hl as [_ ?].
Qed.

Lemma has_char_drop_until c p l :
  has_char c l = false → has_char c (drop_until p l) = false.
Proof.
  intros Hl. rewrite <- (take_drop_until p l), has_char_app in Hl.
  by apply orb_false_iff in Hl as [_ ?].
Qed.

Lemma urlsplit_fragment `{NetlocChecks} u f :
  has_char hash u = false →
  ∃ f', urlsplit (u ++ hash :: f) =
    (λ p, UrlParts (scheme p) (netloc p) (path p) (query p) f') <$> urlsplit u ∧
    ∀ p, urlsplit u = Some p → fragment p = [].
Proof.
  intros Hu. destruct (strip_unsafe_fragment u f) as [f' Hstrip].
  exists f'. rewrite !urlsplit_eq, Hstrip, split_scheme_fragment.
  pose proof (split_scheme_no_hash _ (strip_unsafe_no_hash u Hu)) as Hu1.
  destruct (split_scheme (strip_unsafe u)) as [sch u1]. cbn [fst snd] in *.
  rewrite starts_with_2slash_fragment.
  assert (∃ nl u2,
    (if starts_with_2slash u1 then splitnetloc u1 else ([], u1)) = (nl, u2) ∧
    (if starts_with_2slash u1 then splitnetloc (u1 ++ hash :: f')
     else ([], (u1 ++ hash :: f')%list)) = (nl, (u2 ++ hash :: f')%list) ∧
    has_char hash u2 = false) as (nl & u2 & -> & -> & Hu2).
  { destruct (starts_with_2slash u1) eqn:H2.
    - eexists _, _. split; [done|]. unfold splitnetloc.
      apply starts_with_2slash_inv in H2.
      assert (drop 2 (u1 ++ hash :: f') = (drop 2 u1 ++ hash :: f')%list) as ->
        by (by rewrite H2).
      destruct (take_drop_until_fragment (drop 2 u1) f') as [-> ->].
      split; [done|]. by apply has_char_drop_until, has_char_drop.
    - by eexists _, _. }
  rewrite (split1_hit hash u2 f' Hu2), (split1_miss hash u2 Hu2).
  destruct (split1 qmark u2) as [[a b]|];
    destruct (netloc_ok nl); cbn; (split; [done|]); try done;
    by intros p [= <-].
Qed.

Lemma canonicalize_fragment `{NetlocChecks} (u f : list ascii) :
  has_char hash u = false →
  canonicalize (u ++ hash :: f) = canonicalize u.
Proof.
  intros Hu. unfold canonicalize.
  destruct (urlsplit_fragment u f Hu) as (f' & -> & _).
  by destruct (urlsplit u) as [p|].
Qed.

Lemma list_ascii_of_string_app a b :
  list_ascii_of_string (a ++ b) =
    (list_ascii_of_string a ++ list_ascii_of_string b)%list.
Proof.
  induction a as [|c a IH]; [done|].
  change (c :: list_ascii_of_string (a ++ b) =
          c :: (list_ascii_of_string a ++ list_ascii_of_string b)%list).
  by rewrite IH.
Qed.

(** X20. [canonicalize_url] does not look at the fragment: a URL followed
    by [#] and any text gives the same answer as the URL alone (the same
    canonical text, or the same rejection), so two links that differ only
    in their fragment name one item of the queue. *)
Theorem canonicalize_url_ignores_fragment `{NetlocChecks} (u f : string) :
  has_char hash (list_ascii_of_string u) = false →
  canonicalize_url (u ++ String hash f) = canonicalize_url u.
Proof.
  intros Hu. unfold canonicalize_url. rewrite list_ascii_of_string_app.
  cbn [list_ascii_of_string]. by rewrite canonicalize_fragment.
Qed.

Lemma canonicalize_url_ignores_fragment_witness :
  @canonicalize_url lenient_checks ("http://a/b/?q=1" ++ String hash "top") =
  @canonicalize_url lenient_checks "http://a/b/?q=1".
Proof.
  apply (@canonicalize_url_ignores_fragment lenient_checks).
  vm_compute. reflexivity.
Defined.

(** ** parse.py: reading a page *)

Lemma py_strip_head s :
  match py_strip s with
  | String c _ => py_isspace c = false
  | EmptyString => True
  end.
Proof.
  unfold py_strip.
  set (l := lstrip py_isspace (list_ascii_of_string s)).
  pose proof (lstrip_head py_isspace (list_ascii_of_string s)) as Hhead.
  fold l in Hhead.
  destruct (rstrip_prefix py_isspace l) as (t & Hl & _).
  destruct (rstrip py_isspace l) as [|c r]; [done|].
  rewrite Hl in Hhead. done.
Qed.

Lemma sql_rtrim_cons c s :
  Ascii.eqb c space_char = false → sql_rtrim (String c s) ≠ "".
Proof.
  intros Hc. cbn [sql_rtrim]. destruct (sql_rtrim s); [|done]. by rewrite Hc.
Qed.

Lemma space_is_space c : Ascii.eqb c space_char = true → py_isspace c = true.
Proof. by intros ->%Ascii.eqb_eq. Qed.

Lemma py_strip_not_blank s :
  py_strip s ≠ "" → blank (Some (py_strip s)) = false.
Proof.
  intros Hne. pose proof (py_strip_head s) as Hhead.
  destruct (py_strip s) as [|c r]; [done|].
  assert (Ascii.eqb c space_char = false) as Hc.
  { destruct (Ascii.eqb c space_char) eqn:Hc; [|done].
    apply space_is_space in Hc. congruence. }
  cbn [blank]. apply String.eqb_neq. unfold sql_trim. cbn [sql_ltrim].
  rewrite Hc. by apply sql_rtrim_cons.
Qed.

Lemma truthy_Some x : truthy x = true ↔ ∃ t, x = Some t ∧ t ≠ "".
Proof.
  destruct x as [[|c t]|]; cbn; split; try done.
  - by intros (t & [= <-] & ?).
  - intros _. by eexists.
  - by intros (t & [=] & _).
Qed.

Lemma py_or_truthy x y : truthy y = true → truthy (py_or x y) = true.
Proof. intros Hy. unfold py_or. by destruct (truthy x) eqn:Hx. Qed.

(** X21. [extract_fitment_table] keeps a row of the table exactly when one
    of its first three cells holds more than white space; the rows kept
    stay in the order of the page, a cell after the third is not read, and
    a missing cell reads as [None]. *)
Theorem extract_fitment_table_spec (rows : list (list string)) (f : fitment_row) :
  (f ∈ extract_fitment_table rows ↔
     ∃ tds, tds ∈ rows ∧
       f = FitmentRow (py_strip <$> tds !! 0%nat) (py_strip <$> tds !! 1%nat)
             (py_strip <$> tds !! 2%nat) ∧
       ∃ i t, (i < 3)%nat ∧ tds !! i = Some t ∧ py_strip t ≠ "") ∧
  extract_fitment_table rows `sublist_of`
    ((λ tds, fitment_of_cells (py_strip <$> tds)) <$> rows).
Proof.
  split; [|apply sublist_filter].
  unfold extract_fitment_table. rewrite list_elem_of_filter, list_elem_of_fmap.
  assert (∀ tds, fitment_of_cells (py_strip <$> tds) =
            FitmentRow (py_strip <$> tds !! 0%nat) (py_strip <$> tds !! 1%nat)
              (py_strip <$> tds !! 2%nat)) as Hcells.
  { intros tds. unfold fitment_of_cells. by rewrite !list_lookup_fmap. }
  assert (∀ tds, any_field (fitment_of_cells (py_strip <$> tds)) = true ↔
            ∃ i t, (i < 3)%nat ∧ tds !! i = Some t ∧ py_strip t ≠ "") as Hany.
  { intros tds. rewrite Hcells. unfold any_field. cbn [f_vehicle f_sub_model f_engine].
    rewrite !orb_true_iff, !truthy_Some. split.
    - intros [[(t & Ht & Hne)|(t & Ht & Hne)]|(t & Ht & Hne)];
        apply fmap_Some in Ht as (t0 & Ht0 & ->).
      + exists 0%nat, t0. split; [lia|done].
      + exists 1%nat, t0. split; [lia|done].
      + exists 2%nat, t0. split; [lia|done].
    - intros (i & t & Hi & Ht & Hne).
      destruct i as [|[|[|i]]]; [| | |lia].
      + left. left. exists (py_strip t). by rewrite Ht.
      + left. right. exists (py_strip t). by rewrite Ht.
      + right. exists (py_strip t). by rewrite Ht. }
  split.
  - intros [Hf (tds & -> & Hin)]. exists tds. split; [done|].
    split; [apply Hcells | by apply Hany].
  - intros (tds & Hin & -> & Hex). rewrite <- Hcells. split.
    + by apply Hany.
    + by exists tds.
Qed.

(** ** parse.py: the outcome of a handler *)

Lemma mark_done_queue url now s u :
  queue (mark_done url now s) !! u =
    if decide (u = url) then set_done now <$> queue s !! url else queue s !! u.
Proof.
  unfold mark_done, update_url, with_locks, with_queue. cbn [queue].
  case_decide as Hu.
  - subst u. by rewrite lookup_alter_eq.
  - by rewrite lookup_alter_ne.
Qed.

Lemma mark_error_queue url err now s u :
  queue (mark_error url err now s) !! u =
    if decide (u = url)
    then set_error (str_prefix 1000 err) now <$> queue s !! url
    else queue s !! u.
Proof.
  unfold mark_error, update_url, with_locks, with_queue. cbn [queue].
  case_decide as Hu.
  - subst u. by rewrite lookup_alter_eq.
  - by rewrite lookup_alter_ne.
Qed.

Lemma mark_done_locks url now s u :
  locks (mark_done url now s) !! u = if decide (u = url) then None else locks s !! u.
Proof.
  unfold mark_done, with_locks, with_queue. cbn [locks]. case_decide as Hu.
  - subst u. apply lookup_delete_eq.
  - by apply lookup_delete_ne.
Qed.

Lemma mark_error_locks url err now s u :
  locks (mark_error url err now s) !! u =
    if decide (u = url) then None else locks s !! u.
Proof.
  unfold mark_error, with_locks, with_queue. cbn [locks]. case_decide as Hu.
  - subst u. apply lookup_delete_eq.
  - by apply lookup_delete_ne.
Qed.

Lemma mark_done_settled url now s s0 r :
  only_adds s s0 → queue s !! url = Some r →
  settled url (mark_done url now s0) ∧
  status_of url (mark_done url now s0) = Some Done ∧
  (∀ u, u ≠ url → ∀ x, queue s !! u = Some x →
     queue (mark_done url now s0) !! u = Some x) ∧
  (∀ u l, locks (mark_done url now s0) !! u = Some l → locks s !! u = Some l).
Proof.
  intros (Hl & Hq) Hr. pose proof (Hq url r Hr) as Hr0.
  unfold settled, status_of.
  rewrite mark_done_locks, mark_done_queue, !decide_True, Hr0 by done.
  repeat split.
  - eexists. split; [done|]. by left.
  - intros u Hu x Hx. rewrite mark_done_queue, decide_False by done. by apply Hq.
  - intros u l. rewrite mark_done_locks. case_decide; [done|]. by rewrite Hl.
Qed.

Lemma mark_error_settled url err now s s0 r :
  only_adds s s0 → queue s !! url = Some r →
  settled url (mark_error url err now s0) ∧
  status_of url (mark_error url err now s0) = Some Error ∧
  (∀ u, u ≠ url → ∀ x, queue s !! u = Some x →
     queue (mark_error url err now s0) !! u = Some x) ∧
  (∀ u l, locks (mark_error url err now s0) !! u = Some l → locks s !! u = Some l).
Proof.
  intros (Hl & Hq) Hr. pose proof (Hq url r Hr) as Hr0.
  unfold settled, status_of.
  rewrite mark_error_locks, mark_error_queue, !decide_True, Hr0 by done.
  repeat split.
  - eexists. split; [done|]. by right.
  - intros u Hu x Hx. rewrite mark_error_queue, decide_False by done. by apply Hq.
  - intros u l. rewrite mark_error_locks. case_decide; [done|]. by rewrite Hl.
Qed.

Lemma only_adds_refl s : only_adds s s.
Proof. by repeat split. Qed.

Lemma scraped_data_url `{Scraping} url c pg now :
  d_url (scraped_data url c pg now) = url.
Proof. done. Qed.

(** X22. Whatever the browser returns, [parse_product] under the guard of
    the worker leaves the item with its outcome: the lock is released and
    the status is done or error, never pending. The status is done only
    when a result for the URL is stored, and when no result was stored
    before, an error leaves none. For every other URL the item of the
    queue, the result and the lock are as they were: none is changed,
    removed or added. *)
Theorem parse_product_settles `{Scraping} (url : string) (c : option string)
    (load : page_load) (ts : clock) (t_error : Z) (s : store) (r : queue_row) :
  queue s !! url = Some r →
  let s' := guarded url t_error (parse_product url c load ts s) in
  settled url s' ∧
  (status_of url s' = Some Done → product_exists url s' = true) ∧
  (product_exists url s = false → status_of url s' = Some Error →
   product_exists url s' = false) ∧
  (∀ u, u ≠ url →
     queue s' !! u = queue s !! u ∧ products s' !! u = products s !! u ∧
     locks s' !! u = locks s !! u).
Proof.
  intros Hr.
  set (P := λ s' : store,
    settled url s' ∧
    (status_of url s' = Some Done → product_exists url s' = true) ∧
    (product_exists url s = false → status_of url s' = Some Error →
     product_exists url s' = false) ∧
    (∀ u, u ≠ url →
       queue s' !! u = queue s !! u ∧ products s' !! u = products s !! u ∧
       locks s' !! u = locks s !! u)).
  assert (∀ s0 now, products (mark_done url now s0) = products s0) as Hpd by done.
  assert (∀ s0 e now, products (mark_error url e now s0) = products s0) as Hpe by done.
  assert (∀ e now, product_exists url s = false → P (mark_error url e now s))
    as Herror.
  { intros e now Hno. unfold P.
    destruct (mark_error_settled url e now s s r (only_adds_refl s) Hr)
      as (Hset & Hst & _ & _).
    split; [done|]. rewrite Hst. unfold product_exists in *. rewrite Hpe.
    split; [done|]. split; [done|].
    intros u Hu. by rewrite mark_error_queue, mark_error_locks, !decide_False. }
  intros s'. change (P s'). unfold s', parse_product, parse_product_known.
  destruct (product_exists url s) eqn:Hex.
  - cbn [guarded fst snd]. unfold P.
    destruct (mark_done_settled url (ts 3%nat) s s r (only_adds_refl s) Hr)
      as (Hset & Hst & _ & _).
    split; [done|]. rewrite Hst. unfold product_exists in *. rewrite Hpd.
    split; [done|]. split; [done|].
    intros u Hu. by rewrite mark_done_queue, mark_done_locks, !decide_False.
  - unfold parse_product_page. destruct load as [e| |pg].
    + cbn [guarded fst snd]. by apply Herror.
    + cbn [guarded fst snd]. by apply Herror.
    + destruct (truthy (d_title (scraped_data url c pg (ts 0%nat))));
        [|cbn [guarded fst snd]; by apply Herror].
      set (d := scraped_data url c pg (ts 0%nat)).
      destruct (upsert_product d (ts 1%nat) (ts 2%nat) s) as [s1|] eqn:Hs1;
        cbn [guarded fst snd]; [|by apply Herror].
      destruct (upsert_product_Some _ _ _ _ _ Hs1)
        as (Hq1 & Hl1 & _ & _ & Hrow & Hother).
      assert (only_adds s s1) as Hadd.
      { split; [done|]. intros u x. by rewrite Hq1. }
      destruct (mark_done_settled url (ts 3%nat) s s1 r Hadd Hr)
        as (Hset & Hst & _ & _).
      unfold P. split; [done|]. rewrite Hst. unfold product_exists. rewrite Hpd.
      split.
      { intros _. apply bool_decide_eq_true.
        change (d_url d) with url in Hrow. rewrite Hrow. by eexists. }
      split; [done|].
      intros u Hu. rewrite mark_done_queue, mark_done_locks, !decide_False by done.
      rewrite Hq1, Hl1. split; [done|]. split; [|done].
      by apply Hother.
Qed.

Lemma parse_product_settles_witness :
  let s := (reserve_next 4 (reserve_next 3 (upsert_queue "q" Product 2
              (upsert_queue "p" Product 1 empty_store))).2).2 in
  let s' := guarded "p" 9 (@parse_product plain_scraping "p" None NotReady
                             (λ n, 5) s) in
  settled "p" s' ∧ locks s' !! "q" = Some (LockRow (Some 4)).
Proof.
  intros s s'.
  destruct (@parse_product_settles plain_scraping "p" None NotReady (λ n, 5) 9 s
              (new_queue_row Product 1)) as (Hset & _ & _ & Hother);
    [vm_compute; reflexivity|].
  split; [exact Hset|]. unfold s'.
  destruct (Hother "q") as (_ & _ & ->); [done|]. vm_compute. reflexivity.
Defined.

(** X23. Why the repair deletes before it re-queues: while the empty result
    of a URL is stored, [parse_product] marks the item done without loading
    the page, also after the item has been made pending again; after the
    repair the result is gone and [parse_product] goes on to the page. *)
Theorem repair_forces_rescrape `{Scraping} (url : string) (c : option string)
    (load : page_load) (ts : clock) (t : Z) (s : store) :
  url ∈ find_empty_products s →
  let requeued := ensure_queue_pending_for_products (find_empty_products s) t s in
  parse_product url c load ts requeued = (mark_done url (ts 3%nat) requeued, None) ∧
  products (mark_done url (ts 3%nat) requeued) !! url = products s !! url ∧
  parse_product url c load ts (repair_main t s) =
    parse_product_page url c load ts (repair_main t s).
Proof.
  intros Hin requeued.
  pose proof Hin as (p & Hp & _)%elem_of_find_empty_products.
  assert (products requeued = products s) as Hsame
    by apply ensure_for_products_products.
  split; [|split].
  - unfold parse_product, parse_product_known, product_exists.
    rewrite Hsame, Hp. by rewrite bool_decide_eq_true_2 by by eexists.
  - change (products requeued !! url = products s !! url). by rewrite Hsame.
  - unfold parse_product, parse_product_known, product_exists.
    rewrite repair_main_products, decide_True by done.
    by rewrite bool_decide_eq_false_2 by by intros [? [=]].
Qed.

Lemma repair_forces_rescrape_witness :
  let s := run corrupt_ops empty_store in
  @parse_product plain_scraping "p" None NotReady (λ _, 20) (repair_main 9 s) =
  @parse_product_page plain_scraping "p" None NotReady (λ _, 20) (repair_main 9 s).
Proof.
  intros s.
  apply (@repair_forces_rescrape plain_scraping "p" None NotReady (λ _, 20) 9 s).
  vm_compute. constructor.
Defined.

Lemma parse_product_page_stores `{Scraping} url c pg ts s :
  truthy (get_text (pg_title pg)) = true →
  parse_product_page url c (Ready pg) ts s =
    match upsert_product (scraped_data url c pg (ts 0%nat)) (ts 1%nat) (ts 2%nat) s with
    | Some s' => (mark_done url (ts 3%nat) s', None)
    | None => (s, Some overflow_error)
    end.
Proof.
  intros Ht. unfold parse_product_page.
  change (d_title (scraped_data url c pg (ts 0%nat))) with (get_text (pg_title pg)).
  by rewrite Ht.
Qed.

(** X24. On a page with a title, when the stock read from the page fits
    in 64 bits (or there is none), [parse_product] stores a result and ends
    without exception. The title stored has a character that is not white
    space; the currency stored is the one [parse_price_to_float] gave, and
    USD when it gave none or an empty one, so it is never empty; the
    category is the one passed in. So the repair finds such a result empty
    only when its title is one of the currency codes, or when it has no
    price, no part number, no brand and no attribute at once. When the
    stock does not fit, nothing is stored and the handler ends by the
    [OverflowError]. *)
Theorem parse_product_result `{Scraping} (url : string) (c : option string)
    (pg : product_page) (ts : clock) (s : store) :
  truthy (get_text (pg_title pg)) = true →
  let d := scraped_data url c pg (ts 0%nat) in
  let currency := (parse_price_to_float (get_text (pg_price pg))).2 in
  ((∀ z, d_stock d = Some z → - 2 ^ 63 ≤ z < 2 ^ 63) →
   ∃ p t,
     (parse_product_page url c (Ready pg) ts s).2 = None ∧
     products (parse_product_page url c (Ready pg) ts s).1 !! url = Some p ∧
     p_title p = Some t ∧ t ≠ "" ∧ blank (Some t) = false ∧
     p_currency p = (if truthy currency then currency else Some "USD") ∧
     truthy (p_currency p) = true ∧
     p_category_url p = c ∧
     (is_empty_product p = true ↔
        t ∈ ["USD"; "EUR"; "GBP"] ∨
        (p_price p = None ∧ blank (p_part_number p) = true ∧
         blank (p_brand p) = true ∧ pg_attrs pg = []))) ∧
  (∀ z, d_stock d = Some z → ¬ (- 2 ^ 63 ≤ z < 2 ^ 63) →
     parse_product_page url c (Ready pg) ts s = (s, Some overflow_error)).
Proof.
  intros Ht d currency. rewrite (parse_product_page_stores url c pg ts s Ht).
  fold d. split.
  - intros Hfit.
    destruct (upsert_product_binds d (ts 1%nat) (ts 2%nat) s
                (proj2 (binds_spec d) Hfit)) as [s1 Hs1].
    destruct (upsert_product_Some _ _ _ _ _ Hs1) as (_ & _ & _ & _ & Hrow & _).
    rewrite Hs1. cbn [fst snd].
    change (products (mark_done url (ts 3%nat) s1)) with (products s1).
    change (d_url d) with url in Hrow. rewrite Hrow.
    set (v := product_values d (ts 1%nat) (ts 2%nat)).
    set (p := match products s !! url with
              | Some old => product_on_conflict old v
              | None => v
              end).
    assert (p_title p = get_text (pg_title pg) ∧ p_currency p = d_currency d ∧
            p_category_url p = c ∧ p_price p = d_price d ∧
            p_part_number p = d_part_number d ∧ p_brand p = d_brand d ∧
            p_attrs_json p = Some (json_dumps_attrs (pg_attrs pg)))
      as (Htitle & Hcur & Hcat & Hprice & Hpn & Hbrand & Hattrs).
    { unfold p. by destruct (products s !! url). }
    pose proof Ht as (t & Hsome & Hne)%truthy_Some.
    assert (blank (Some t) = false) as Hblank.
    { destruct (pg_title pg) as [raw|]; [|done]. injection Hsome as <-.
      by apply py_strip_not_blank. }
    exists p, t. split; [done|]. split; [done|].
    rewrite Htitle, Hcur, Hcat. do 3 (split; [done|]).
    split; [done|]. split; [by apply py_or_truthy|]. split; [done|].
    unfold is_empty_product. rewrite Htitle, Hsome, Hattrs, Hprice, Hpn, Hbrand.
    cbn [bad_title]. cbn [blank] in Hblank. rewrite Hblank. cbn [orb].
    rewrite orb_true_iff, !andb_true_iff, bool_decide_eq_true.
    rewrite json_dumps_attrs_has_attrs, !orb_true_iff, !String.eqb_eq.
    rewrite !elem_of_cons, elem_of_nil. tauto.
  - intros z Hz Hout.
    by rewrite (upsert_product_raises d (ts 1%nat) (ts 2%nat) s z Hz Hout).
Qed.

Lemma parse_product_result_witness :
  let pg := ProductPage (Some " USD ") None [] [] (Some "In stock (12)") [] in
  ∃ p, products (@parse_product_page stock_scraping "p" None (Ready pg)
                   (λ _, 7) empty_store).1 !! "p" = Some p ∧
       p_title p = Some "USD" ∧ p_currency p = Some "USD" ∧
       is_empty_product p = true.
Proof.
  intros pg.
  destruct (@parse_product_result stock_scraping "p" None pg (λ _, 7) empty_store)
    as [Hfit _]; [vm_compute; reflexivity|].
  destruct Hfit as (p & t & _ & Hp & Ht & _ & _ & Hcur & _ & _ & Hempty).
  { intros z Hz. vm_compute in Hz. injection Hz as <-. lia. }
  exists p. split; [exact Hp|].
  assert (t = "USD") as ->.
  { vm_compute in Hp. injection Hp as <-. by injection Ht as <-. }
  split; [exact Ht|]. split; [exact Hcur|].
  apply Hempty. left. apply elem_of_cons. by left.
Defined.

(** ** parse.py: the link loops *)

Lemma parse_catalog_links_spec `{NetlocChecks} `{Scraping} url links ts n s :
  let res := parse_catalog_links url links ts n s in
  only_adds s res.1.1 ∧
  products res.1.1 = products s ∧
  product_discovery res.1.1 = product_discovery s ∧
  (∀ u x, categories s !! u = Some x → categories res.1.1 !! u = Some x) ∧
  (∀ u r, queue res.1.1 !! u = Some r →
     queue s !! u = Some r ∨
     (queue s !! u = None ∧ ∃ t, r = new_queue_row Category t)) ∧
  (res.2 = None ↔
     ∀ href name, (href, name) ∈ links →
       is_Some (canonicalize_url (urljoin url href))) ∧
  (res.2 = None →
     ∀ href name, (href, name) ∈ links →
       ∃ abs_url, canonicalize_url (urljoin url href) = Some abs_url ∧
         is_Some (categories res.1.1 !! abs_url) ∧
         is_Some (queue res.1.1 !! abs_url)).
Proof.
  revert n s. induction links as [|[href name] rest IH]; intros n s.
  - cbn [parse_catalog_links fst snd].
    split; [by split|]. do 3 (split; [done|]). split; [by left|]. split.
    + split; [|done]. intros _ href name Hin. by apply elem_of_nil in Hin.
    + intros _ href name Hin. by apply elem_of_nil in Hin.
  - cbn [parse_catalog_links].
    destruct (canonicalize_url (urljoin url href)) as [abs_url|] eqn:Hc.
    + set (s1 := upsert_queue abs_url Category (ts (S n))
                   (insert_category abs_url name (ts n) s)).
      specialize (IH (S (S n)) s1).
      destruct IH as ((Hl & Hq) & Hp & Hpd & Hcat & Hnew & Hiff & Hall).
      assert (∀ u r, queue s !! u = Some r → queue s1 !! u = Some r) as Hq1.
      { intros u r Hr. unfold s1, upsert_queue, with_queue. cbn [queue].
        by apply insert_or_ignore_keeps. }
      assert (∀ u r, queue s1 !! u = Some r →
                queue s !! u = Some r ∨
                (queue s !! u = None ∧ ∃ t, r = new_queue_row Category t)) as Hnew1.
      { intros u r. unfold s1, upsert_queue, with_queue. cbn [queue].
        rewrite insert_or_ignore_lookup.
        change (queue (insert_category abs_url name (ts n) s)) with (queue s).
        destruct (queue s !! u) as [r0|]; [by left|].
        case_decide; [|done]. intros [= <-]. right. split; [done|]. by eexists. }
      assert (∀ u x, categories s !! u = Some x → categories s1 !! u = Some x)
        as Hcat1.
      { intros u x Hx. unfold s1, upsert_queue, with_queue, insert_category,
          with_categories. cbn [categories]. by apply insert_or_ignore_keeps. }
      split; [split|]; [| |split; [|split; [|split; [|split; [|split; [split|]]]]]].
      * by rewrite Hl.
      * intros u r Hr. by apply Hq, Hq1.
      * by rewrite Hp.
      * by rewrite Hpd.
      * intros u x Hx. by apply Hcat, Hcat1.
      * intros u r Hr. destruct (Hnew u r Hr) as [Hr1|[Hnone Hrow]].
        -- by apply Hnew1.
        -- right. split; [|done].
           destruct (queue s !! u) as [r0|] eqn:Hr0; [|done].
           by rewrite (Hq1 u r0 Hr0) in Hnone.
      * intros Hnone href' name' [[= -> ->]|Hin]%elem_of_cons.
        -- by rewrite Hc.
        -- by apply (proj1 Hiff Hnone href' name').
      * intros Hok. apply Hiff. intros href' name' Hin. apply (Hok href' name').
        apply elem_of_cons. by right.
      * intros Hnone href' name' [[= -> ->]|Hin]%elem_of_cons.
        -- exists abs_url. split; [done|]. split.
           ++ destruct (insert_or_ignore_is_Some abs_url
                          (CategoryRow (Some name) (Some (ts n))) (categories s))
                as [x Hx].
              exists x. apply Hcat. unfold s1, upsert_queue, with_queue,
                insert_category, with_categories. by cbn [categories].
           ++ destruct (insert_or_ignore_is_Some abs_url
                          (new_queue_row Category (ts (S n))) (queue s))
                as [x Hx].
              exists x. apply Hq. unfold s1, upsert_queue, with_queue.
              by cbn [queue].
        -- by apply (Hall Hnone href' name').
    + cbn [fst snd].
      split; [by split|]. do 3 (split; [done|]). split; [by left|].
      split; [|done]. split; [done|].
      intros Hok. destruct (Hok href name) as [x Hx]; [|congruence].
      apply elem_of_cons. by left.
Qed.

(** X25. [parse_catalog] under the guard of the worker leaves the catalog
    item with its outcome, done or error, and without its lock. It changes
    no other item already in the queue, so a category that is done is not
    queued again; the items it adds are pending categories; it takes no
    lock and touches no result. The item is done exactly when the page was
    read and every link gave a URL that [urlsplit] accepts, and then the
    canonical URL of every link is in the categories and in the queue. *)
Theorem parse_catalog_outcome `{NetlocChecks} `{Scraping} (url : string)
    (load : links_load) (ts : clock) (t_error : Z) (s : store) (r : queue_row) :
  queue s !! url = Some r →
  let s' := guarded url t_error (parse_catalog url load ts s) in
  let read_all := ∃ nodes, load = Links nodes ∧
    ∀ href name, (href, name) ∈ extract_links nodes →
      ∃ abs_url, canonicalize_url (urljoin url href) = Some abs_url ∧
        is_Some (categories s' !! abs_url) ∧ is_Some (queue s' !! abs_url) in
  settled url s' ∧
  (status_of url s' = Some Done ↔ read_all) ∧
  (∀ u x, u ≠ url → queue s !! u = Some x → queue s' !! u = Some x) ∧
  (∀ u x, queue s' !! u = Some x → queue s !! u = None →
     ∃ t, x = new_queue_row Category t) ∧
  (∀ u l, locks s' !! u = Some l → locks s !! u = Some l) ∧
  products s' = products s.
Proof.
  intros Hr s' read_all. unfold s', parse_catalog in *.
  destruct load as [e|nodes].
  - cbn [guarded fst snd] in *.
    destruct (mark_error_settled url e t_error s s r (only_adds_refl s) Hr)
      as (Hset & Hst & Hkeep & Hlocks).
    split; [done|]. rewrite Hst. split; [|split; [|split; [|split]]].
    + split; [done|]. by intros (nodes & [=] & _).
    + intros u x Hu Hx. by apply Hkeep.
    + intros u x. rewrite mark_error_queue. case_decide as Hu.
      * subst u. by rewrite Hr.
      * by intros ->.
    + done.
    + done.
  - pose proof (parse_catalog_links_spec url (extract_links nodes) ts 0 s)
      as (Hadd & Hp & _ & Hcat & Hnew & Hiff & Hall).
    destruct (parse_catalog_links url (extract_links nodes) ts 0 s)
      as [[s1 n] [e|]] eqn:Hres; cbn [fst snd guarded] in *.
    + destruct (mark_error_settled url e t_error s s1 r Hadd Hr)
        as (Hset & Hst & Hkeep & Hlocks).
      split; [done|]. rewrite Hst. split; [|split; [|split; [|split]]].
      * split; [done|]. intros (nodes' & [= <-] & Hok).
        assert (Some e = None) as Hcontra; [|done].
        apply Hiff. intros href name Hin.
        destruct (Hok href name Hin) as (a & -> & _). by eexists.
      * intros u x Hu Hx. by apply Hkeep.
      * intros u x. rewrite mark_error_queue. case_decide as Hu.
        -- subst u. by rewrite Hr.
        -- intros Hx Hnone. destruct (Hnew u x Hx) as [?|[_ ?]]; [congruence|done].
      * done.
      * by rewrite <- Hp.
    + destruct (mark_done_settled url (ts n) s s1 r Hadd Hr)
        as (Hset & Hst & Hkeep & Hlocks).
      split; [done|]. rewrite Hst. split; [|split; [|split; [|split]]].
      * split; [|done]. intros _. exists nodes. split; [done|].
        intros href name Hin.
        destruct (Hall eq_refl href name Hin) as (a & Ha & [x Hx] & [y Hy]).
        exists a. split; [done|]. split.
        -- by exists x.
        -- rewrite mark_done_queue. case_decide; [|by exists y].
           subst a. rewrite (proj2 Hadd url r Hr). by eexists.
      * intros u x Hu Hx. by apply Hkeep.
      * intros u x. rewrite mark_done_queue. case_decide as Hu.
        -- subst u. by rewrite Hr.
        -- intros Hx Hnone. destruct (Hnew u x Hx) as [?|[_ ?]]; [congruence|done].
      * done.
      * by rewrite <- Hp.
Qed.

Lemma parse_catalog_outcome_witness :
  let s := (reserve_next 2 (seed_catalog "http://a/catalog" 1 empty_store)).2 in
  let load := Links [(Some " http://a/brakes/ ", "Brakes"); (None, "x")] in
  status_of "http://a/catalog"
    (guarded "http://a/catalog" 9
       (@parse_catalog lenient_checks plain_scraping "http://a/catalog" load
          (λ n, 5) s)) = Some Done.
Proof.
  intros s load.
  apply (@parse_catalog_outcome lenient_checks plain_scraping "http://a/catalog"
           load (λ n, 5) 9 s (new_queue_row Catalog 1)).
  - vm_compute. reflexivity.
  - exists [(Some " http://a/brakes/ ", "Brakes"); (None, "x")].
    split; [reflexivity|].
    intros href name Hin.
    assert (extract_links [(Some " http://a/brakes/ ", "Brakes"); (None, "x")] =
            [("http://a/brakes/", "Brakes")]) as Hl by (vm_compute; reflexivity).
    rewrite Hl in Hin.
    apply elem_of_cons in Hin as [[= -> ->]|Hin]; [|by apply elem_of_nil in Hin].
    exists "http://a/brakes". vm_compute.
    split; [reflexivity|]. split; eexists; reflexivity.
Defined.

Lemma discovers_refl url s : discovers url s s.
Proof.
  split; [apply only_adds_refl|]. do 3 (split; [done|]).
  split; [intros u d Hd Hn; congruence | intros u r Hr Hn; congruence].
Qed.

Lemma discovers_trans url s s1 s2 :
  discovers url s s1 → discovers url s1 s2 → discovers url s s2.
Proof.
  intros ((Hl1 & Hq1) & Hp1 & Hc1 & Hk1 & Hd1 & Hn1)
         ((Hl2 & Hq2) & Hp2 & Hc2 & Hk2 & Hd2 & Hn2).
  split; [split|]; [| |split; [|split; [|split; [|split]]]].
  - by rewrite Hl2.
  - intros u r Hr. by apply Hq2, Hq1.
  - by rewrite Hp2.
  - by rewrite Hc2.
  - intros u d Hd. by apply Hk2, Hk1.
  - intros u d Hd Hnone.
    destruct (product_discovery s1 !! u) as [d1|] eqn:Hs1.
    + pose proof (Hk2 u d1 Hs1) as Hd'. rewrite Hd in Hd'. injection Hd' as ->.
      by apply (Hd1 u).
    + by apply (Hd2 u).
  - intros u r Hr Hnone.
    destruct (queue s1 !! u) as [r1|] eqn:Hs1.
    + pose proof (Hq2 u r1 Hs1) as Hr'. rewrite Hr in Hr'. injection Hr' as ->.
      destruct (Hn1 u r1 Hs1 Hnone) as [Hrow [d Hd]].
      split; [done|]. exists d. by apply Hk2.
    + by apply (Hn2 u).
Qed.

Lemma discovers_link url abs_url title t1 t2 s :
  discovers url s
    (upsert_queue abs_url Product t2
       (insert_product_discovery abs_url title url t1 s)).
Proof.
  unfold upsert_queue, insert_product_discovery, with_queue,
    with_product_discovery.
  split; [split|]; cbn [queue locks products categories product_discovery];
    [done| |split; [done|split; [done|split; [|split]]]].
  - intros u r Hr. by apply insert_or_ignore_keeps.
  - intros u d Hd. by apply insert_or_ignore_keeps.
  - intros u d. rewrite insert_or_ignore_lookup. intros Hd Hnone.
    rewrite Hnone in Hd. case_decide; [|done]. by injection Hd as <-.
  - intros u r. rewrite !insert_or_ignore_lookup. intros Hr Hnone.
    rewrite Hnone in Hr. case_decide as Hu; [|done]. injection Hr as <-.
    split; [by eexists|]. subst u.
    destruct (product_discovery s !! abs_url); by eexists.
Qed.

Lemma parse_category_links_discovers `{NetlocChecks} `{Scraping}
    url cur_url links ts n s :
  discovers url s (parse_category_links url cur_url links ts n s).1.1.
Proof.
  revert n s. induction links as [|[href title] rest IH]; intros n s.
  - apply discovers_refl.
  - cbn [parse_category_links].
    destruct (canonicalize_url (urljoin cur_url href)) as [abs_url|].
    + eapply discovers_trans; [apply discovers_link | apply IH].
    + apply discovers_refl.
Qed.

Lemma parse_category_pages_discovers `{NetlocChecks} `{Scraping}
    url cur_url pages ts n s res :
  parse_category_pages url cur_url pages ts n s = Some res →
  ∃ s1, discovers url s s1 ∧
    ((∃ e, res = (s1, Some e)) ∨ (∃ t, res = (mark_done url t s1, None))).
Proof.
  revert cur_url n s.
  induction pages as [|[e|nodes next] rest IH]; intros cur_url n s; cbn; [done| |].
  - intros [= <-]. exists s. split; [apply discovers_refl|]. left. by exists e.
  - pose proof (parse_category_links_discovers url cur_url (extract_links nodes)
                  ts n s) as Hd.
    destruct (parse_category_links url cur_url (extract_links nodes) ts n s)
      as [[s1 n'] [e|]]; cbn [fst] in Hd.
    + intros [= <-]. exists s1. split; [done|]. left. by exists e.
    + destruct (truthy (find_next_page next)).
      * destruct (canonicalize_url
                    (urljoin cur_url (default "" (find_next_page next))))
          as [next_url|].
        -- intros Hres. destruct (IH _ _ _ Hres) as (s2 & Hd2 & Hcase).
           exists s2. split; [|done]. by apply discovers_trans with s1.
        -- intros [= <-]. exists s1. split; [done|]. left. by eexists.
      * intros [= <-]. exists s1. split; [done|]. right. by eexists.
Qed.

Lemma parse_category_pages_total `{NetlocChecks} `{Scraping} url pages nodes
    next ts s :
  truthy (find_next_page next) = false →
  is_Some (parse_category url (pages ++ [CategoryPage nodes next]) ts s).
Proof.
  intros Hlast. unfold parse_category. generalize 0%nat. generalize url at 2.
  revert s. induction pages as [|[e|nodes' next'] rest IH]; intros s cur_url n;
    cbn [app parse_category_pages].
  - destruct (parse_category_links url cur_url (extract_links nodes) ts n s)
      as [[s1 n'] [e|]]; [by eexists|]. rewrite Hlast. by eexists.
  - by eexists.
  - destruct (parse_category_links url cur_url (extract_links nodes') ts n s)
      as [[s1 n'] [e|]]; [by eexists|].
    destruct (truthy (find_next_page next')); [|by eexists].
    destruct (canonicalize_url _); [apply IH | by eexists].
Qed.

(** X26. The loop of [parse_category] ends on the first page without a
    next-page link, and sooner on an exception: whatever pages come before
    it, a page without a next-page link gives the handler its result. *)
Theorem parse_category_ends `{NetlocChecks} `{Scraping} (url : string)
    (pages : list category_load) (nodes : list (option string * string))
    (next : option (option string)) (ts : clock) (s : store) :
  truthy (find_next_page next) = false →
  is_Some (parse_category url (pages ++ [CategoryPage nodes next]) ts s).
Proof. apply parse_category_pages_total. Qed.

Lemma parse_category_ends_witness :
  is_Some (@parse_category lenient_checks plain_scraping "http://a/c"
             ([CategoryPage [(Some "http://a/p1", "P1")] (Some (Some "http://a/c?page=2"))]
              ++ [CategoryPage [(Some "http://a/p2", "P2")] None])
             (λ n, 5) empty_store).
Proof.
  apply (@parse_category_ends lenient_checks plain_scraping). reflexivity.
Defined.

(** X27. [parse_category] under the guard of the worker leaves the category
    item with its outcome, done or error, and without its lock. It changes
    no other item already in the queue; an item it adds is a pending
    product that has a discovery, and a discovery it adds names this
    category, so the first category that lists a product keeps it. It
    takes no lock and touches no result and no category. *)
Theorem parse_category_outcome `{NetlocChecks} `{Scraping} (url : string)
    (pages : list category_load) (ts : clock) (t_error : Z) (s : store)
    (r : queue_row) (res : outcome) :
  queue s !! url = Some r →
  parse_category url pages ts s = Some res →
  let s' := guarded url t_error res in
  settled url s' ∧
  (∀ u x, u ≠ url → queue s !! u = Some x → queue s' !! u = Some x) ∧
  (∀ u x, queue s' !! u = Some x → queue s !! u = None →
     (∃ t, x = new_queue_row Product t) ∧ is_Some (product_discovery s' !! u)) ∧
  (∀ u d, product_discovery s !! u = Some d → product_discovery s' !! u = Some d) ∧
  (∀ u d, product_discovery s' !! u = Some d → product_discovery s !! u = None →
     pd_category_url d = Some url) ∧
  (∀ u l, locks s' !! u = Some l → locks s !! u = Some l) ∧
  products s' = products s ∧ categories s' = categories s.
Proof.
  intros Hr Hres s'.
  destruct (parse_category_pages_discovers _ _ _ _ _ _ _ Hres)
    as (s1 & (Hadd & Hp & Hc & Hk & Hd & Hn) & Hcase).
  assert (∀ u x, queue s1 !! u = Some x → queue s !! u = None → u ≠ url) as Hne.
  { intros u x _ Hnone ->. congruence. }
  destruct Hcase as [[e ->]|[t ->]]; unfold s'; cbn [guarded fst snd].
  - destruct (mark_error_settled url e t_error s s1 r Hadd Hr)
      as (Hset & _ & Hkeep & Hlocks).
    split; [done|]. split; [intros u x Hu Hx; by apply Hkeep|].
    split; [|done].
    intros u x. rewrite mark_error_queue. case_decide as Hu.
    + subst u. intros _ Hnone. congruence.
    + apply Hn.
  - destruct (mark_done_settled url t s s1 r Hadd Hr)
      as (Hset & _ & Hkeep & Hlocks).
    split; [done|]. split; [intros u x Hu Hx; by apply Hkeep|].
    split; [|done].
    intros u x. rewrite mark_done_queue. case_decide as Hu.
    + subst u. intros _ Hnone. congruence.
    + apply Hn.
Qed.

Lemma parse_category_outcome_witness :
  let s := (reserve_next 2 (upsert_queue "http://a/c" Category 1 empty_store)).2 in
  let pages := [CategoryPage [(Some "http://a/p1", "P1")] None] in
  settled "http://a/c"
    (guarded "http://a/c" 9
       (mark_done "http://a/c" 5
          (upsert_queue "http://a/p1" Product 5
             (insert_product_discovery "http://a/p1" "P1" "http://a/c" 5 s)), None)).
Proof.
  intros s pages.
  apply (@parse_category_outcome lenient_checks plain_scraping "http://a/c"
           pages (λ n, 5) 9 s (new_queue_row Category 1)).
  - vm_compute. reflexivity.
  - vm_compute. reflexivity.
Defined.

(** ** parse.py: one turn of the worker *)

Lemma guarded_ends url t_error s res r :
  ends_by url s res → queue s !! url = Some r →
  settled url (guarded url t_error res) ∧
  (∀ u l, locks (guarded url t_error res) !! u = Some l → locks s !! u = Some l).
Proof.
  intros (s1 & Hadd & [[e ->]|[[t ->]|(e & t & ->)]]) Hr; cbn [guarded fst snd].
  - destruct (mark_error_settled url e t_error s s1 r Hadd Hr) as (? & _ & _ & ?).
    done.
  - destruct (mark_done_settled url t s s1 r Hadd Hr) as (? & _ & _ & ?). done.
  - destruct (mark_error_settled url e t s s1 r Hadd Hr) as (? & _ & _ & ?). done.
Qed.

Lemma parse_product_ends_by `{Scraping} url c load ts s :
  ends_by url s (parse_product url c load ts s).
Proof.
  unfold parse_product, parse_product_known.
  destruct (product_exists url s).
  { exists s. split; [apply only_adds_refl|]. right. left. by eexists. }
  unfold parse_product_page. destruct load as [e| |pg].
  - exists s. split; [apply only_adds_refl|]. left. by eexists.
  - exists s. split; [apply only_adds_refl|]. right. right. by eexists _, _.
  - destruct (truthy (d_title (scraped_data url c pg (ts 0%nat)))).
    + destruct (upsert_product _ _ _ s) as [s1|] eqn:Hs1.
      * destruct (upsert_product_Some _ _ _ _ _ Hs1) as (Hq1 & Hl1 & _).
        exists s1. split; [|right; left; by eexists].
        split; [done|]. intros u x. by rewrite Hq1.
      * exists s. split; [apply only_adds_refl|]. left. by eexists.
    + exists s. split; [apply only_adds_refl|]. right. right. by eexists _, _.
Qed.

Lemma parse_catalog_ends_by `{NetlocChecks} `{Scraping} url load ts s :
  ends_by url s (parse_catalog url load ts s).
Proof.
  unfold parse_catalog. destruct load as [e|nodes].
  - exists s. split; [apply only_adds_refl|]. left. by eexists.
  - pose proof (parse_catalog_links_spec url (extract_links nodes) ts 0 s)
      as (Hadd & _).
    destruct (parse_catalog_links url (extract_links nodes) ts 0 s)
      as [[s1 n] [e|]]; cbn [fst] in Hadd; exists s1; (split; [done|]).
    + left. by eexists.
    + right. left. by eexists.
Qed.

Lemma parse_category_ends_by `{NetlocChecks} `{Scraping} url pages ts s res :
  parse_category url pages ts s = Some res → ends_by url s res.
Proof.
  intros Hres.
  destruct (parse_category_pages_discovers _ _ _ _ _ _ _ Hres)
    as (s1 & (Hadd & _) & Hcase).
  exists s1. split; [done|]. destruct Hcase as [?|?]; [by left | right; by left].
Qed.

Lemma worker_turn_sound `{NetlocChecks} `{Scraping} (b : browser) (ts : clock)
    (t_reserve t_error : Z) (s s' : store) (t : turn) :
  locks s = ∅ →
  worker_turn b ts t_reserve t_error s = Some (t, s') →
  locks s' = ∅ ∧
  match t with
  | Stop => s' = s ∧ count_pending s = 0%nat
  | Wait => False
  | Handled url k =>
      (∃ r, queue s !! url = Some r ∧ q_kind r = k ∧ q_status r = Pending) ∧
      settled url s'
  end.
Proof.
  intros Hlocks. unfold worker_turn.
  pose proof (reserve_next_unlocked t_reserve s) as Hsel.
  pose proof (reserve_next_queue t_reserve s) as Hqueue.
  assert (∀ url k, (reserve_next t_reserve s).1 = Some (url, k) →
            ∀ u l, locks (reserve_next t_reserve s).2 !! u = Some l → u = url)
    as Hone.
  { intros url k. unfold reserve_next.
    destruct (select_next s) as [[v row]|]; [|done]. cbn [fst snd].
    intros [= -> _] u l. unfold with_locks. cbn [locks].
    rewrite Hlocks, insert_or_ignore_lookup, lookup_empty.
    by case_decide. }
  assert ((reserve_next t_reserve s).1 = None →
          (reserve_next t_reserve s).2 = s ∧ count_pending s = 0%nat) as Hnone.
  { unfold reserve_next.
    destruct (select_next s) as [[v row]|] eqn:Hs; [done|]. intros _.
    split; [done|]. apply count_pending_zero. intros u r Hr Hst.
    apply select_next_None in Hs.
    assert ((u, r) ∈ candidates s) as Hin.
    { apply elem_of_candidates. by rewrite Hlocks, lookup_empty. }
    rewrite Hs in Hin. by apply elem_of_nil in Hin. }
  destruct (reserve_next t_reserve s) as [[[url k]|] s0]; cbn [fst snd] in *.
  - destruct (Hsel url k eq_refl) as (row & Hrow & Hk & Hst & _).
    assert (queue s0 !! url = Some row) as Hrow0 by by rewrite Hqueue.
    assert (∀ res, ends_by url s0 res →
              locks (guarded url t_error res) = ∅ ∧
              settled url (guarded url t_error res)) as Hend.
    { intros res Hres.
      destruct (guarded_ends url t_error s0 res row Hres Hrow0) as [Hset Hno].
      split; [|done]. apply map_eq. intros u. rewrite lookup_empty.
      destruct (locks (guarded url t_error res) !! u) as [l|] eqn:Hl; [|done].
      rewrite (Hone url k eq_refl u l (Hno u l Hl)) in Hl.
      destruct Hset as [Hfree _]. congruence. }
    assert (∃ r, queue s !! url = Some r ∧ q_kind r = k ∧ q_status r = Pending)
      as Hwas by by exists row.
    destruct k.
    + intros [= <- <-].
      destruct (Hend _ (parse_catalog_ends_by url (as_catalog b) ts s0)). done.
    + destruct (parse_category url (as_category b) ts s0) as [res|] eqn:Hres;
        [|done].
      cbn. intros [= <- <-].
      destruct (Hend _ (parse_category_ends_by url _ ts s0 res Hres)). done.
    + intros [= <- <-].
      destruct (Hend _ (parse_product_ends_by url (category_of url s0)
                          (as_product b) ts s0)). done.
  - destruct (Hnone eq_refl) as [-> Hzero].
    rewrite decide_True by done. by intros [= <- <-].
Qed.

Lemma worker_turn_ends `{NetlocChecks} `{Scraping} (b : browser) (ts : clock)
    (t_reserve t_error : Z) (s : store) pages nodes next :
  as_category b = (pages ++ [CategoryPage nodes next])%list →
  truthy (find_next_page next) = false →
  is_Some (worker_turn b ts t_reserve t_error s).
Proof.
  intros Hpages Hlast. unfold worker_turn.
  destruct (reserve_next t_reserve s) as [[[url k]|] s0]; [|by eexists].
  destruct k; [by eexists| |by eexists].
  rewrite Hpages.
  destruct (parse_category_pages_total url pages nodes next ts s0 Hlast)
    as [res ->].
  by eexists.
Qed.

(** X28. A worker that runs alone never waits, as long as the pages of a
    category end. From a state without locks, and when the pages the
    browser returns for a category end with a page without a next-page
    link, a turn of the loop gives its result: it either stops, and then
    nothing is pending and the database is untouched, or it has handled an
    item that was pending, and then the item is done or in error; in both
    cases the state is without locks again. (On pages whose next-page links
    never end, the category handler does not return and the turn has no
    result.) *)
Theorem worker_turn_alone `{NetlocChecks} `{Scraping} (b : browser) (ts : clock)
    (t_reserve t_error : Z) (s : store) (pages : list category_load)
    (nodes : list (option string * string)) (next : option (option string)) :
  locks s = ∅ →
  as_category b = (pages ++ [CategoryPage nodes next])%list →
  truthy (find_next_page next) = false →
  ∃ t s',
    worker_turn b ts t_reserve t_error s = Some (t, s') ∧
    locks s' = ∅ ∧
    match t with
    | Stop => s' = s ∧ count_pending s = 0%nat
    | Wait => False
    | Handled url k =>
        (∃ r, queue s !! url = Some r ∧ q_kind r = k ∧ q_status r = Pending) ∧
        settled url s'
    end.
Proof.
  intros Hlocks Hpages Hlast.
  destruct (worker_turn_ends b ts t_reserve t_error s pages nodes next Hpages Hlast)
    as [[t s'] Hturn].
  exists t, s'. split; [done|]. by apply (worker_turn_sound b ts t_reserve t_error).
Qed.

Lemma worker_turn_alone_witness :
  let s := upsert_queue "http://a/c" Category 1 empty_store in
  let b := Browser (LinksRaised "e")
             ([CategoryPage [(Some "http://a/p1", "P1")]
                 (Some (Some "http://a/c?page=2"))]
              ++ [CategoryPage [(Some "http://a/p2", "P2")] None])
             NotReady in
  ∃ s', @worker_turn lenient_checks plain_scraping b (λ n, 5) 2 9 s
          = Some (Handled "http://a/c" Category, s') ∧
        locks s' = ∅ ∧ settled "http://a/c" s'.
Proof.
  intros s b.
  destruct (@worker_turn_alone lenient_checks plain_scraping b (λ n, 5) 2 9 s
              [CategoryPage [(Some "http://a/p1", "P1")]
                 (Some (Some "http://a/c?page=2"))]
              [(Some "http://a/p2", "P2")] None)
    as (t & s' & Hturn & Hlocks & Ht); [reflexivity..|].
  assert (t = Handled "http://a/c" Category) as ->.
  { vm_compute in Hturn. by injection Hturn as <- _. }
  exists s'. split; [exact Hturn|]. split; [exact Hlocks|]. apply Ht.
Defined.

Lemma count_pending_leaves (f : queue_row → queue_row) url s s' r :
  queue s' = alter f url (queue s) →
  queue s !! url = Some r → q_status r = Pending → q_status (f r) ≠ Pending →
  (count_pending s' + 1)%nat = count_pending s.
Proof.
  intros Hq Hr Hst Hf. unfold count_pending. rewrite Hq.
  pose proof (size_filter_alter (λ kv, q_status kv.2 = Pending) f (queue s) url r Hr)
    as Hsize.
  cbn [fst snd] in Hsize.
  rewrite decide_True in Hsize by done. rewrite decide_False in Hsize by done.
  lia.
Qed.

(** X29. Handling a product is one step of progress: whatever the browser
    returns, [parse_product] under the guard of the worker takes the
    pending item it was given out of the pending count and adds none, so
    [count_pending] goes down by exactly one. *)
Theorem parse_product_progress `{Scraping} (url : string) (c : option string)
    (load : page_load) (ts : clock) (t_error : Z) (s : store) (r : queue_row) :
  queue s !! url = Some r → q_status r = Pending →
  (count_pending (guarded url t_error (parse_product url c load ts s)) + 1)%nat =
    count_pending s.
Proof.
  intros Hr Hst.
  assert (∀ t s0, queue s0 = queue s →
            (count_pending (mark_done url t s0) + 1)%nat = count_pending s) as Hdone.
  { intros t s0 Hs0. apply (count_pending_leaves (set_done t) url s _ r); try done.
    unfold mark_done, update_url, with_locks, with_queue. cbn [queue].
    by rewrite Hs0. }
  assert (∀ e t, (count_pending (mark_error url e t s) + 1)%nat = count_pending s)
    as Herror.
  { intros e t.
    by apply (count_pending_leaves (set_error (str_prefix 1000 e) t) url s _ r). }
  unfold parse_product, parse_product_known.
  destruct (product_exists url s); [by apply Hdone|].
  unfold parse_product_page. destruct load as [e| |pg]; cbn [guarded fst snd].
  - apply Herror.
  - apply Herror.
  - destruct (truthy (d_title (scraped_data url c pg (ts 0%nat))));
      [|cbn [guarded fst snd]; apply Herror].
    destruct (upsert_product _ _ _ s) as [s1|] eqn:Hs1;
      cbn [guarded fst snd]; [|apply Herror].
    destruct (upsert_product_Some _ _ _ _ _ Hs1) as (Hq1 & _). by apply Hdone.
Qed.

Lemma parse_product_progress_witness :
  let s := (reserve_next 2 sample_queue).2 in
  (count_pending
     (guarded "p" 9%Z (@parse_product plain_scraping "p" None (Raised "Timeout")
                         (λ n, 5%Z) s)) + 1)%nat = count_pending s.
Proof.
  intros s.
  apply (@parse_product_progress plain_scraping "p" None (Raised "Timeout")
           (λ n, 5) 9 s (new_queue_row Product 1)); vm_compute; reflexivity.
Defined.

(** ** canonicalize_url and the trailing slash *)

Lemma strip_unsafe_slash u :
  strip_unsafe (u ++ [slash]) = (strip_unsafe u ++ [slash])%list.
Proof.
  unfold strip_unsafe. rewrite lstrip_app.
  assert ((if nonempty (lstrip is_c0_or_space u)
           then (lstrip is_c0_or_space u ++ [slash])%list
           else lstrip is_c0_or_space [slash]) =
          (lstrip is_c0_or_space u ++ [slash])%list) as ->.
  { by destruct (lstrip is_c0_or_space u). }
  unfold unsafe_bytes. cbn [foldl]. by rewrite !remove_char_app.
Qed.

Lemma strip_unsafe_free c u :
  has_char c u = false → has_char c (strip_unsafe u) = false.
Proof.
  intros Hu. unfold strip_unsafe, unsafe_bytes. cbn [foldl].
  do 3 apply has_char_remove_char.
  destruct (lstrip_suffix is_c0_or_space u) as (a & Heq & _).
  rewrite Heq, has_char_app in Hu. by apply orb_false_iff in Hu as [_ ?].
Qed.

Lemma split_scheme_free c v :
  has_char c v = false → has_char c (split_scheme v).2 = false.
Proof.
  intros Hv. destruct (split_scheme v) as [s u1] eqn:Hsplit.
  apply split_scheme_inv in Hsplit as [[_ ->]|(s0 & Heq & _)]; [done|].
  rewrite Heq, has_char_app in Hv. apply orb_false_iff in Hv as [_ Hv].
  cbn [snd]. cbn [has_char existsb] in Hv. by apply orb_false_iff in Hv as [_ ?].
Qed.

Lemma split_scheme_slash v :
  split_scheme (v ++ [slash]) =
    ((split_scheme v).1, ((split_scheme v).2 ++ [slash])%list).
Proof.
  unfold split_scheme. rewrite split1_app.
  destruct (split1 colon v) as [[pre post]|]; [|done].
  destruct pre as [|c pre]; [done|].
  by destruct (is_ascii_alpha c && forallb is_scheme_char (c :: pre)).
Qed.

Lemma starts_with_2slash_slash l :
  l ≠ [slash] → starts_with_2slash (l ++ [slash]) = starts_with_2slash l.
Proof.
  intros Hl. destruct l as [|a [|b l]]; cbn [app starts_with_2slash]; [done| |done].
  rewrite andb_true_r. apply Ascii.eqb_neq. by intros ->.
Qed.

Lemma take_drop_until_snoc p w x :
  drop_until p w ≠ [] →
  take_until p (w ++ x) = take_until p w ∧
  drop_until p (w ++ x) = (drop_until p w ++ x)%list.
Proof.
  induction w as [|c w IH]; cbn [app take_until drop_until]; [done|].
  destruct (p c); [done|]. intros Hw. by destruct (IH Hw) as [-> ->].
Qed.

Lemma urlsplit_slash `{NetlocChecks} u sch nl pth :
  has_char qmark u = false → has_char hash u = false →
  urlsplit u = Some (UrlParts sch nl pth [] []) →
  pth ≠ [] → pth ≠ [slash] →
  urlsplit (u ++ [slash]) = Some (UrlParts sch nl (pth ++ [slash]) [] []).
Proof.
  intros Hq Hh. rewrite !urlsplit_eq, strip_unsafe_slash, split_scheme_slash.
  pose proof (split_scheme_free qmark _ (strip_unsafe_free qmark u Hq)) as Hq1.
  pose proof (split_scheme_free hash _ (strip_unsafe_free hash u Hh)) as Hh1.
  destruct (split_scheme (strip_unsafe u)) as [sch0 u1]. cbn [fst snd] in *.
  destruct (starts_with_2slash u1) eqn:H2.
  - unfold splitnetloc.
    pose proof (has_char_drop_until qmark is_netloc_delim _
                  (has_char_drop qmark 2 u1 Hq1)) as Hq2.
    pose proof (has_char_drop_until hash is_netloc_delim _
                  (has_char_drop hash 2 u1 Hh1)) as Hh2.
    rewrite (split1_miss hash _ Hh2), (split1_miss qmark _ Hq2).
    destruct (netloc_ok (take_until is_netloc_delim (drop 2 u1))) eqn:Hok; [|done].
    intros [= <- <- <-] Hne _.
    apply starts_with_2slash_inv in H2.
    assert (starts_with_2slash (u1 ++ [slash]) = true) as -> by (by rewrite H2).
    assert (drop 2 (u1 ++ [slash]) = (drop 2 u1 ++ [slash])%list) as ->
      by (by rewrite H2).
    destruct (take_drop_until_snoc is_netloc_delim (drop 2 u1) [slash] Hne)
      as [-> ->].
    rewrite split1_miss by (by rewrite has_char_app, Hh2).
    rewrite split1_miss by (by rewrite has_char_app, Hq2).
    by rewrite Hok.
  - rewrite (split1_miss hash _ Hh1), (split1_miss qmark _ Hq1).
    replace (netloc_ok []) with true by (symmetry; apply netloc_ok_nil).
    intros [= <- <- <-] _ Hne.
    rewrite (starts_with_2slash_slash u1 Hne), H2.
    rewrite split1_miss by (by rewrite has_char_app, Hh1).
    rewrite split1_miss by (by rewrite has_char_app, Hq1).
    by rewrite netloc_ok_nil.
Qed.

Lemma canonicalize_slash `{NetlocChecks} u p :
  has_char qmark u = false → has_char hash u = false →
  urlsplit u = Some p → path p ≠ [] → path p ≠ [slash] →
  canonicalize (u ++ [slash]) = canonicalize u.
Proof.
  intros Hq Hh Hsplit Hne Hroot.
  destruct (urlsplit_inv u p Hsplit)
    as (u1 & qt & ft & Hss & Hu1 & _ & _ & _ & _ & _ & _ & Hqt & Hft & _).
  assert (query p = [] ∧ fragment p = []) as [Hqry Hfrag].
  { pose proof (split_scheme_free qmark _ (strip_unsafe_free qmark u Hq)) as Hq1.
    pose proof (split_scheme_free hash _ (strip_unsafe_free hash u Hh)) as Hh1.
    rewrite Hss in Hq1, Hh1. cbn [snd] in Hq1, Hh1.
    rewrite Hu1 in Hq1, Hh1. rewrite !has_char_app in Hq1, Hh1.
    apply orb_false_iff in Hq1 as [_ Hq1]. apply orb_false_iff in Hq1 as [_ Hq1].
    apply orb_false_iff in Hq1 as [Hq1 _].
    apply orb_false_iff in Hh1 as [_ Hh1]. apply orb_false_iff in Hh1 as [_ Hh1].
    apply orb_false_iff in Hh1 as [_ Hh1].
    split.
    - destruct Hqt as [[_ ?]| ->]; [done|]. by cbn in Hq1.
    - destruct Hft as [[_ ?]| ->]; [done|]. by cbn in Hh1. }
  destruct p as [sch nl pth qry frag]. cbn [path query fragment] in *. subst qry frag.
  unfold canonicalize.
  rewrite (urlsplit_slash u sch nl pth Hq Hh Hsplit Hne Hroot), Hsplit.
  cbn [scheme netloc path query].
  rewrite !urlunsplit_text.
  assert (writes_authority sch nl (pth ++ [slash]) = writes_authority sch nl pth)
    as ->.
  { unfold writes_authority. by rewrite starts_with_2slash_slash. }
  assert (nonempty (pth ++ [slash]) = nonempty pth ∧
          no_leading_slash (pth ++ [slash]) = no_leading_slash pth) as [-> ->].
  { by destruct pth. }
  set (w := writes_authority sch nl pth).
  set (pth1 := if w && (nonempty pth && no_leading_slash pth)
               then slash :: pth else pth).
  assert ((if w && (nonempty pth && no_leading_slash pth)
           then slash :: (pth ++ [slash])%list else (pth ++ [slash])%list) =
          (pth1 ++ [slash])%list) as ->.
  { unfold pth1. by destruct (w && (nonempty pth && no_leading_slash pth)). }
  assert (url_text sch w nl (pth1 ++ [slash]) [] =
          (url_text sch w nl pth1 [] ++ [slash])%list) as ->.
  { unfold url_text, query_text. cbn [nonempty].
    by rewrite !app_nil_r, !app_assoc. }
  set (clean := url_text sch w nl pth1 []).
  assert (ends_with_slash (clean ++ [slash]) = true) as ->.
  { unfold ends_with_slash. by rewrite rev_app_distr. }
  assert (bool_decide ((pth ++ [slash])%list = [slash]) = false) as ->.
  { apply bool_decide_eq_false_2. intros Heq. destruct pth as [|c pth]; [done|].
    injection Heq as _ Heq. by destruct pth. }
  rewrite (bool_decide_eq_false_2 (pth = [slash])) by done.
  cbn [andb negb]. rewrite andb_true_r. f_equal.
  rewrite rstrip_app. cbn.
  destruct (ends_with_slash clean) eqn:Hend; [done|]. by apply rstrip_id.
Qed.

(** X30. [canonicalize_url] does not tell a URL from the same URL with one
    more slash at its end: for a URL without query and fragment whose path
    is neither empty nor the root [/], appending a slash gives the same
    canonical text. The root is the exception the code makes: there the
    slash is kept. *)
Theorem canonicalize_url_trailing_slash `{NetlocChecks} (u : string) (p : url_parts) :
  has_char qmark (list_ascii_of_string u) = false →
  has_char hash (list_ascii_of_string u) = false →
  urlsplit (list_ascii_of_string u) = Some p →
  path p ≠ [] → path p ≠ [slash] →
  canonicalize_url (u ++ "/") = canonicalize_url u ∧
  is_Some (canonicalize_url u).
Proof.
  intros Hq Hh Hsplit Hne Hroot. split.
  - unfold canonicalize_url. rewrite list_ascii_of_string_app.
    change (list_ascii_of_string "/") with [slash].
    by rewrite (canonicalize_slash _ p).
  - unfold canonicalize_url, canonicalize. rewrite Hsplit. by eexists.
Qed.

Lemma canonicalize_url_trailing_slash_witness :
  @canonicalize_url lenient_checks ("http://a/b" ++ "/") =
  @canonicalize_url lenient_checks "http://a/b".
Proof.
  apply (@canonicalize_url_trailing_slash lenient_checks "http://a/b"
           (UrlParts (list_ascii_of_string "http") (list_ascii_of_string "a")
              (list_ascii_of_string "/b") [] []));
    vm_compute; (reflexivity || discriminate).
Defined.
